(** * rift: exclusion-pattern matcher and two-phase tree synchronisation

    A shallow embedding of [main.go]: the pattern matcher
    ([matchPattern], [shouldExclude]), the forward walk of [sync] with
    [copyFile], the orphan scan of [cleanOrphans], the reader of the
    ignore file ([parseGitignore]) and the command line ([run]).

    Conventions.
    - A Go [string] is a byte string: Rocq's [string] (a list of 8-bit
      [ascii]).  The build modelled is the Unix one, [Separator = '/'].
    - The functions of Go's standard library that the program calls
      ([strings.*], [filepath.Match], [filepath.Base], [utf8.DecodeRuneInString],
      [filepath.WalkDir], [os.*], [bufio.Scanner]) are transcribed from the
      library's sources under their Go names. *)

From Stdlib Require Import ZArith Ascii String.
From stdpp Require Import gmap strings list.

Local Open Scope Z_scope.
Set Warnings "-clear-no-such-hyp".

(** Go's [error] values that the program meets. *)
Inductive error : Type :=
| ErrBadPattern                         (* filepath.ErrBadPattern *)
| SkipDir                               (* fs.SkipDir *)
| SkipAll                               (* fs.SkipAll *)
| ENOENT                                (* no such file or directory *)
| ENOTDIR                               (* not a directory *)
| EISDIR                                (* is a directory *)
| Wrapped (context : string) (at_ : list string) (err : error).
                                        (* fmt.Errorf("context ...: %w", err) *)

(** ** Go's [strings] package, on byte strings *)

Module strings.

Fixpoint take (n : nat) (s : string) : string :=
  match n, s with
  | S n', String c s' => String c (take n' s')
  | _, _ => EmptyString
  end.

Fixpoint drop (n : nat) (s : string) : string :=
  match n, s with
  | S n', String _ s' => drop n' s'
  | _, _ => s
  end.

(** [len(s) > 0 && s[0] == c] *)
Definition startsWith (s : string) (c : ascii) : bool :=
  match s with
  | String c0 _ => Ascii.eqb c0 c
  | EmptyString => false
  end.

(** [s[1:]] *)
Definition tail (s : string) : string := drop 1 s.

(** [len(s) >= len(prefix) && s[:len(prefix)] == prefix] *)
Definition HasPrefix (s prefix : string) : bool :=
  (String.length prefix <=? String.length s)%nat
  && String.eqb (take (String.length prefix) s) prefix.

(** [len(s) >= len(suffix) && s[len(s)-len(suffix):] == suffix] *)
Definition HasSuffix (s suffix : string) : bool :=
  (String.length suffix <=? String.length s)%nat
  && String.eqb (drop (String.length s - String.length suffix) s) suffix.

Definition TrimPrefix (s prefix : string) : string :=
  if HasPrefix s prefix then drop (String.length prefix) s else s.

Definition TrimSuffix (s suffix : string) : string :=
  if HasSuffix s suffix then take (String.length s - String.length suffix) s else s.

(** [Index(s, substr) >= 0] *)
Fixpoint Contains (s substr : string) : bool :=
  HasPrefix s substr
  || match s with
     | EmptyString => false
     | String _ s' => Contains s' substr
     end.

(** [Split(s, sep)] for a one-byte separator, the only use in the
    program: the pieces between the separators, never an empty list. *)
Fixpoint Split (s : string) (sep : ascii) : list string :=
  match s with
  | EmptyString => [EmptyString]
  | String c s' =>
      if Ascii.eqb c sep then EmptyString :: Split s' sep
      else match Split s' sep with
           | [] => [String c EmptyString]
           | p :: ps => String c p :: ps
           end
  end.

Fixpoint Join (elems : list string) (sep : string) : string :=
  match elems with
  | [] => EmptyString
  | [e] => e
  | e :: es => e +:+ sep +:+ Join es sep
  end.

Fixpoint ReplaceAllByte (s : string) (old new : ascii) : string :=
  match s with
  | EmptyString => EmptyString
  | String c s' =>
      String (if Ascii.eqb c old then new else c) (ReplaceAllByte s' old new)
  end.

End strings.

(** ** [unicode/utf8]: decoding the first rune of a string *)

Module utf8.

Definition RuneError : Z := 0xFFFD.

Definition byte (c : ascii) : Z := Z.of_N (N_of_ascii c).

Definition locb : Z := 0x80.
Definition hicb : Z := 0xBF.
Definition xx : Z := 0xF1.  (* invalid: size 1 *)
Definition as_ : Z := 0xF0. (* ASCII: size 1 *)
Definition s1 : Z := 0x02.
Definition s2 : Z := 0x13.
Definition s3 : Z := 0x03.
Definition s4 : Z := 0x23.
Definition s5 : Z := 0x34.
Definition s6 : Z := 0x04.
Definition s7 : Z := 0x44.

(** The table [first]: information about the first byte of an encoding. *)
Definition first (b : Z) : Z :=
  if b <? 0x80 then as_
  else if b <? 0xC2 then xx
  else if b <? 0xE0 then s1
  else if b =? 0xE0 then s2
  else if b <? 0xED then s3
  else if b =? 0xED then s4
  else if b <? 0xF0 then s3
  else if b =? 0xF0 then s5
  else if b <? 0xF4 then s6
  else if b =? 0xF4 then s7
  else xx.

(** The table [acceptRanges]: bounds of the second byte. *)
Definition acceptRanges (i : Z) : Z * Z :=
  if i =? 0 then (locb, hicb)
  else if i =? 1 then (0xA0, hicb)
  else if i =? 2 then (locb, 0x9F)
  else if i =? 3 then (0x90, hicb)
  else if i =? 4 then (locb, 0x8F)
  else (0, 0).

Definition maskx : Z := 0x3F.
Definition mask2 : Z := 0x1F.
Definition mask3 : Z := 0x0F.
Definition mask4 : Z := 0x07.

(** [DecodeRuneInString]: the rune and its width in bytes. *)
Definition DecodeRuneInString (s : string) : Z * nat :=
  match s with
  | EmptyString => (RuneError, 0%nat)
  | String c0 t0 =>
      let b0 := byte c0 in
      let x := first b0 in
      if as_ <=? x then ((if Z.odd x then RuneError else b0), 1%nat)
      else
        let sz := Z.to_nat (Z.land x 7) in
        let '(lo, hi) := acceptRanges (Z.shiftr x 4) in
        if (String.length s <? sz)%nat then (RuneError, 1%nat)
        else
          match t0 with
          | EmptyString => (RuneError, 1%nat)
          | String c1 t1 =>
              let b1 := byte c1 in
              if (b1 <? lo) || (hi <? b1) then (RuneError, 1%nat)
              else if (sz <=? 2)%nat then
                (Z.lor (Z.shiftl (Z.land b0 mask2) 6) (Z.land b1 maskx), 2%nat)
              else
                match t1 with
                | EmptyString => (RuneError, 1%nat)
                | String c2 t2 =>
                    let b2 := byte c2 in
                    if (b2 <? locb) || (hicb <? b2) then (RuneError, 1%nat)
                    else if (sz <=? 3)%nat then
                      (Z.lor (Z.lor (Z.shiftl (Z.land b0 mask3) 12)
                                    (Z.shiftl (Z.land b1 maskx) 6))
                             (Z.land b2 maskx), 3%nat)
                    else
                      match t2 with
                      | EmptyString => (RuneError, 1%nat)
                      | String c3 _ =>
                          let b3 := byte c3 in
                          if (b3 <? locb) || (hicb <? b3) then (RuneError, 1%nat)
                          else
                            (Z.lor (Z.lor (Z.lor (Z.shiftl (Z.land b0 mask4) 18)
                                                 (Z.shiftl (Z.land b1 maskx) 12))
                                          (Z.shiftl (Z.land b2 maskx) 6))
                                   (Z.land b3 maskx), 4%nat)
                      end
                end
          end
  end.

End utf8.

(** ** The file system: [os] and [io] on a tree

    A root of the file system is a tree of regular files and directories,
    or nothing when the root does not exist.  A path below a root is the
    list of its components: [filepath.Join(root, relPath)] and
    [filepath.Rel(root, path)] go between the two without changing the
    list.  The source tree and the destination tree are two roots, disjoint
    as the program assumes.

    The entries of a directory are kept in the order [os.ReadDir] lists
    them; a new entry goes to the end.  Permission checks, the umask,
    symbolic links and failures of the device are outside the model: the
    errors that remain are a missing entry, a file where a directory is
    needed and a directory where a file is needed.  There is no clock
    either: the time stamp of a directory is data of the tree, and stays as
    it is when an entry is added or removed.  What a run leaves behind is
    therefore stated for the runs that return [nil]. *)

Module os.

Definition path : Type := list string.

Record FileInfo : Type := mkFileInfo {
  Size : Z;
  ModTime : Z;
  Mode : Z;
  IsDir : bool
}.

#[warnings="-register-all"]
Inductive node : Type :=
| File (data : string) (modTime : Z) (mode : Z)
| Dir (size : Z) (modTime : Z) (mode : Z) (entries : list (string * node)).

(** What the host gives to a fresh entry: the current time and the size it
    reports for a directory. *)
Record host : Type := mkHost { now : Z; dirSize : Z }.

Definition Info (d : node) : FileInfo :=
  match d with
  | File data modTime mode => mkFileInfo (Z.of_nat (String.length data)) modTime mode false
  | Dir size modTime mode _ => mkFileInfo size modTime mode true
  end.

Definition isDir (d : node) : bool := IsDir (Info d).

Fixpoint lookupEntry (name : string) (entries : list (string * node)) : option node :=
  match entries with
  | [] => None
  | (name', d) :: entries' =>
      if String.eqb name' name then Some d else lookupEntry name entries'
  end.

(** Replace the entry [name], or add it at the end. *)
Fixpoint setEntry (name : string) (d : node) (entries : list (string * node))
    : list (string * node) :=
  match entries with
  | [] => [(name, d)]
  | (name', d') :: entries' =>
      if String.eqb name' name then (name, d) :: entries'
      else (name', d') :: setEntry name d entries'
  end.

Fixpoint removeEntry (name : string) (entries : list (string * node))
    : list (string * node) :=
  match entries with
  | [] => []
  | (name', d') :: entries' =>
      if String.eqb name' name then removeEntry name entries'
      else (name', d') :: removeEntry name entries'
  end.

Definition putEntry (name : string) (d : option node) (entries : list (string * node))
    : list (string * node) :=
  match d with
  | Some d => setEntry name d entries
  | None => removeEntry name entries
  end.

(** The node at a path below a node. *)
Fixpoint find (d : node) (p : path) : option node :=
  match p with
  | [] => Some d
  | name :: p' =>
      match d with
      | Dir _ _ _ entries =>
          match lookupEntry name entries with
          | Some d' => find d' p'
          | None => None
          end
      | File _ _ _ => None
      end
  end.

(** A root: the tree at it, if it exists. *)
Definition root : Type := option node.

Definition nodeAt (fs : root) (p : path) : option node :=
  match fs with
  | Some d => find d p
  | None => None
  end.

(** The system calls below walk down a path and act on what they find at
    its end.  [alterAt create f fs p] applies [f] to the node at [p];
    on the way down a regular file gives [ENOTDIR], and a missing
    directory is made from [create] or gives [ENOENT].  [f] returns the
    node to put at [p] (nothing to remove it) and the error of the call. *)
Fixpoint alterAt (create : option (Z * Z * Z))
    (f : option node -> option error * option node)
    (fs : option node) (p : path) : option error * option node :=
  match p with
  | [] => f fs
  | name :: p' =>
      match fs with
      | Some (File _ _ _) => (Some ENOTDIR, fs)
      | Some (Dir size modTime mode entries) =>
          let '(err, d') := alterAt create f (lookupEntry name entries) p' in
          (err, Some (Dir size modTime mode (putEntry name d' entries)))
      | None =>
          match create with
          | Some (size, modTime, mode) =>
              let '(err, d') := alterAt create f None p' in
              (err, Some (Dir size modTime mode (putEntry name d' [])))
          | None => (Some ENOENT, None)
          end
      end
  end.

(** [os.Stat]: the error is [ENOENT] or [ENOTDIR]. *)
Definition Stat (fs : root) (p : path) : option FileInfo :=
  match nodeAt fs p with
  | Some d => Some (Info d)
  | None => None
  end.

(** [os.MkdirAll(path, perm)]: nothing to do on a directory, [ENOTDIR] on a
    file, and every missing directory of the path is made with [perm]. *)
Definition MkdirAll (h : host) (fs : root) (p : path) (perm : Z) : option error * root :=
  alterAt (Some (dirSize h, now h, perm))
    (fun d =>
       match d with
       | Some (Dir _ _ _ _) => (None, d)
       | Some (File _ _ _) => (Some ENOTDIR, d)
       | None => (None, Some (Dir (dirSize h) (now h) perm []))
       end)
    fs p.

(** [os.OpenFile(name, O_RDWR|O_CREATE|O_TRUNC, perm)]: a new empty file
    with [perm], or the file that is there cut to length zero. *)
Definition OpenFile_create_trunc (h : host) (fs : root) (p : path) (perm : Z)
    : option error * root :=
  alterAt None
    (fun d =>
       match d with
       | Some (Dir _ _ _ _) => (Some EISDIR, d)
       | Some (File _ _ mode) => (None, Some (File EmptyString (now h) mode))
       | None => (None, Some (File EmptyString (now h) perm))
       end)
    fs p.

(** [os.Open(name)] and the reads of [io.Copy]: the bytes of a regular
    file; reading a directory fails. *)
Definition Open (fs : root) (p : path) : option node := nodeAt fs p.

(** [io.Copy(destFile, srcFile)] on a destination just opened: the bytes of
    the source are written to it. *)
Definition Copy (h : host) (fs : root) (p : path) (srcFile : node) : option error * root :=
  match srcFile with
  | Dir _ _ _ _ => (Some EISDIR, fs)
  | File data _ _ =>
      alterAt None
        (fun d =>
           match d with
           | Some (File data' _ mode) => (None, Some (File (data' +:+ data) (now h) mode))
           | _ => (Some ENOENT, d)
           end)
        fs p
  end.

(** [os.Chtimes(name, atime, mtime)]. *)
Definition Chtimes (fs : root) (p : path) (mtime : Z) : option error * root :=
  alterAt None
    (fun d =>
       match d with
       | Some (File data _ mode) => (None, Some (File data mtime mode))
       | Some (Dir size _ mode entries) => (None, Some (Dir size mtime mode entries))
       | None => (Some ENOENT, d)
       end)
    fs p.

(** [os.IsNotExist(err)]. *)
Definition IsNotExist (err : option error) : bool :=
  match err with
  | Some ENOENT => true
  | _ => false
  end.

(** [os.RemoveAll(path)]: the entry and all below it; no error when there
    is nothing at the path. *)
Definition RemoveAll (fs : root) (p : path) : option error * root :=
  let '(err, fs') := alterAt None (fun _ => (None, None)) fs p in
  if IsNotExist err then (None, fs') else (err, fs').

(** [filepath.Dir] of a path below the root: the path without its last
    component. *)
Definition parent (p : path) : path := removelast p.

(** A property of the entries of every directory of a tree. *)
Fixpoint everyDir (Q : list (string * node) -> Prop) (d : node) : Prop :=
  match d with
  | File _ _ _ => True
  | Dir _ _ _ entries =>
      Q entries
      /\ (fix all (entries : list (string * node)) : Prop :=
            match entries with
            | [] => True
            | (_, d') :: entries' => everyDir Q d' /\ all entries'
            end) entries
  end.

(** A file name: not empty, not ["."] or [".."], without a separator. *)
Definition validName (name : string) : Prop :=
  name <> EmptyString /\ name <> "."%string /\ name <> ".."%string
  /\ strings.Contains name "/" = false.

(** The names of a directory are distinct. *)
Definition uniqueNames (d : node) : Prop :=
  everyDir (fun entries => NoDup (map fst entries)) d.

Definition validNames (d : node) : Prop :=
  everyDir (fun entries => Forall validName (map fst entries)) d.

(** A tree as a file system holds it. *)
Definition wellFormed (d : node) : Prop := uniqueNames d /\ validNames d.

Definition wellFormedRoot (fs : root) : Prop :=
  match fs with
  | Some d => uniqueNames d
  | None => True
  end.

(** What [os.Stat] and a read tell about a path: the entry without what is
    below it. *)
Inductive entry : Type :=
| FileEntry (data : string) (modTime : Z) (mode : Z)
| DirEntry (size : Z) (modTime : Z) (mode : Z).

Definition entryOf (d : node) : entry :=
  match d with
  | File data modTime mode => FileEntry data modTime mode
  | Dir size modTime mode _ => DirEntry size modTime mode
  end.

Definition entryAt (fs : root) (p : path) : option entry :=
  match nodeAt fs p with
  | Some d => Some (entryOf d)
  | None => None
  end.

End os.

(** ** [path/filepath]: [ToSlash], [Base], the glob matcher [Match] and [WalkDir] *)

Module filepath.

Definition Separator : ascii := "/"%char.

Definition ToSlash (path : string) : string :=
  if Ascii.eqb Separator "/"%char then path
  else strings.ReplaceAllByte path Separator "/"%char.

(** The loop [for len(path) > 0 && IsPathSeparator(path[len(path)-1])]. *)
Fixpoint stripTrailingSeparators (path : string) : string :=
  match path with
  | EmptyString => EmptyString
  | String c path' =>
      match stripTrailingSeparators path' with
      | EmptyString =>
          if Ascii.eqb c Separator then EmptyString else String c EmptyString
      | t => String c t
      end
  end.

(** [path[i+1:]] for the last index [i] holding a separator, the whole
    path when there is none. *)
Fixpoint lastElement (path : string) : string :=
  match path with
  | EmptyString => EmptyString
  | String c path' =>
      if strings.Contains path' (String Separator EmptyString) then lastElement path'
      else if Ascii.eqb c Separator then path'
      else path
  end.

Definition Base (path : string) : string :=
  if String.eqb path EmptyString then "."%string
  else
    let path := stripTrailingSeparators path in
    let path := lastElement path in
    if String.eqb path EmptyString then String Separator EmptyString
    else path.

(** Leading stars of [scanChunk]. *)
Fixpoint skipStars (pattern : string) : bool * string :=
  match pattern with
  | String c pattern' =>
      if Ascii.eqb c "*" then (true, snd (skipStars pattern')) else (false, pattern)
  | EmptyString => (false, pattern)
  end.

(** The [Scan] loop of [scanChunk], started at index [i]: the index of
    the first star outside a bracket class, or the length. *)
Fixpoint scanLoop (pattern : string) (inrange : bool) (i : nat) : nat :=
  match pattern with
  | EmptyString => i
  | String c pattern' =>
      if Ascii.eqb c "\"%char then
        match pattern' with
        | EmptyString => S i
        | String _ pattern'' => scanLoop pattern'' inrange (S (S i))
        end
      else if Ascii.eqb c "["%char then scanLoop pattern' true (S i)
      else if Ascii.eqb c "]"%char then scanLoop pattern' false (S i)
      else if Ascii.eqb c "*"%char then
        if inrange then scanLoop pattern' inrange (S i) else i
      else scanLoop pattern' inrange (S i)
  end.

Definition scanChunk (pattern : string) : bool * string * string :=
  let '(star, pattern) := skipStars pattern in
  let i := scanLoop pattern false 0 in
  (star, strings.take i pattern, strings.drop i pattern).

(** [getEsc]: a possibly escaped rune of a bracket class and the rest of
    the chunk; [None] is [ErrBadPattern]. *)
Definition getEsc (chunk : string) : option (Z * string) :=
  match chunk with
  | EmptyString => None
  | String c chunk' =>
      if Ascii.eqb c "-"%char || Ascii.eqb c "]"%char then None
      else
        let chunk := if Ascii.eqb c "\"%char then chunk' else chunk in
        if String.eqb chunk EmptyString then None
        else
          let '(r, n) := utf8.DecodeRuneInString chunk in
          if (r =? utf8.RuneError) && (n =? 1)%nat then None
          else
            let nchunk := strings.drop n chunk in
            if String.eqb nchunk EmptyString then None
            else Some (r, nchunk)
  end.

(** Outcome of a loop run with a step budget. *)
Inductive outcome (A : Type) : Type :=
| Ret (a : A)
| Bad          (* ErrBadPattern *)
| OutOfFuel.
Arguments Ret {A} a.
Arguments Bad {A}.
Arguments OutOfFuel {A}.

(** The range loop of a bracket class: [match] and the chunk after the
    closing bracket. *)
Fixpoint classLoop (fuel : nat) (chunk : string) (r : Z) (match_ : bool)
    (nrange : nat) : outcome (bool * string) :=
  match fuel with
  | O => OutOfFuel
  | S fuel' =>
      if strings.startsWith chunk "]" && (0 <? nrange)%nat then
        Ret (match_, strings.tail chunk)
      else
        match getEsc chunk with
        | None => Bad
        | Some (lo, chunk) =>
            let hi_chunk :=
              if strings.startsWith chunk "-" then getEsc (strings.tail chunk)
              else Some (lo, chunk) in
            match hi_chunk with
            | None => Bad
            | Some (hi, chunk) =>
                classLoop fuel' chunk r
                  (if (lo <=? r) && (r <=? hi) then true else match_)
                  (S nrange)
            end
        end
  end.

(** The loop of [matchChunk]; [failed] records that the match has failed
    while the rest of the chunk is still checked for syntax. *)
Fixpoint matchChunkLoop (fuel : nat) (chunk s : string) (failed : bool)
    : option (string * bool * option error) :=
  match fuel with
  | O => None
  | S fuel' =>
      match chunk with
      | EmptyString =>
          if failed then Some (EmptyString, false, None)
          else Some (s, true, None)
      | String c chunk' =>
          let failed := failed || String.eqb s EmptyString in
          if Ascii.eqb c "["%char then
            let '(r, s) :=
              if failed then (0, s)
              else let '(r, n) := utf8.DecodeRuneInString s in (r, strings.drop n s) in
            let negated := strings.startsWith chunk' "^" in
            let chunk := if negated then strings.tail chunk' else chunk' in
            match classLoop fuel' chunk r false 0 with
            | Ret (match_, chunk) =>
                matchChunkLoop fuel' chunk s (failed || Bool.eqb match_ negated)
            | Bad => Some (EmptyString, false, Some ErrBadPattern)
            | OutOfFuel => None
            end
          else if Ascii.eqb c "?"%char then
            if failed then matchChunkLoop fuel' chunk' s failed
            else
              let failed :=
                match s with
                | String s0 _ => Ascii.eqb s0 Separator
                | EmptyString => false
                end in
              let '(_, n) := utf8.DecodeRuneInString s in
              matchChunkLoop fuel' chunk' (strings.drop n s) failed
          else
            (* '\\' drops the backslash and falls through to the default *)
            let chunk := if Ascii.eqb c "\"%char then chunk' else chunk in
            match chunk with
            | EmptyString => Some (EmptyString, false, Some ErrBadPattern)
            | String c0 chunk1 =>
                if failed then matchChunkLoop fuel' chunk1 s failed
                else
                  match s with
                  | String s0 s' =>
                      matchChunkLoop fuel' chunk1 s' (negb (Ascii.eqb c0 s0))
                  | EmptyString => matchChunkLoop fuel' chunk1 s true
                  end
            end
      end
  end.

Definition matchChunk (chunk s : string) : option (string * bool * option error) :=
  matchChunkLoop (S (String.length chunk)) chunk s false.

Definition result : Type := option (bool * option error).

(** The last loop of [Match], as of Go 1.16, the release the program needs
    for [filepath.WalkDir]: before [false] is returned without an error,
    the remainder of the pattern is checked for syntax, chunk by chunk,
    against the empty name. *)
Fixpoint checkLoop (fuel : nat) (pattern : string) : result :=
  match fuel with
  | O => None
  | S fuel' =>
      if String.eqb pattern EmptyString then Some (false, None)
      else
        let '(_, chunk, pattern) := scanChunk pattern in
        match matchChunk chunk EmptyString with
        | None => None
        | Some (_, _, Some e) => Some (false, Some e)
        | Some (_, _, None) => checkLoop fuel' pattern
        end
  end.

(** The loop [for i := 0; i < len(name) && name[i] != Separator; i++]
    of [Match], on the part of [name] from index [i]; [continue Pattern]
    is the continuation [k], and [unmatched] is what follows the loop
    when it runs to its end: the check of the remaining pattern. *)
Fixpoint starLoop (chunk pattern : string) (k : string -> result)
    (unmatched : result) (name : string) : result :=
  match name with
  | EmptyString => unmatched
  | String c name' =>
      if Ascii.eqb c Separator then unmatched
      else
        match matchChunk chunk name' with
        | None => None
        | Some (t, ok, err) =>
            if ok then
              if String.eqb pattern EmptyString && negb (String.eqb t EmptyString)
              then starLoop chunk pattern k unmatched name'
              else k t
            else
              match err with
              | Some e => Some (false, Some e)
              | None => starLoop chunk pattern k unmatched name'
              end
        end
  end.

Fixpoint MatchLoop (fuel : nat) (pattern name : string) : result :=
  match fuel with
  | O => None
  | S fuel' =>
      if String.eqb pattern EmptyString then Some (String.eqb name EmptyString, None)
      else
        let '(star, chunk, pattern) := scanChunk pattern in
        if star && String.eqb chunk EmptyString then
          Some (negb (strings.Contains name (String Separator EmptyString)), None)
        else
          match matchChunk chunk name with
          | None => None
          | Some (t, ok, err) =>
              if ok && (String.eqb t EmptyString || negb (String.eqb pattern EmptyString))
              then MatchLoop fuel' pattern t
              else
                match err with
                | Some e => Some (false, Some e)
                | None =>
                    let unmatched := checkLoop fuel' pattern in
                    if star
                    then starLoop chunk pattern (MatchLoop fuel' pattern) unmatched name
                    else unmatched
                end
          end
  end.

(** [Match(pattern, name)]: [(matched, err)]. *)
Definition Match (pattern name : string) : bool * option error :=
  match MatchLoop (S (String.length pattern)) pattern name with
  | Some r => r
  | None => (false, None)
  end.

(** Two runs of [classLoop], and of [matchChunkLoop], agree on the syntax
    of the chunk: same remainder, same error. *)
Definition classSim (o1 o2 : outcome (bool * string)) : Prop :=
  match o1, o2 with
  | Ret (_, c1), Ret (_, c2) => c1 = c2
  | Bad, Bad => True
  | OutOfFuel, OutOfFuel => True
  | _, _ => False
  end.

Definition errSim (o1 o2 : option (string * bool * option error)) : Prop :=
  match o1, o2 with
  | Some (_, _, e1), Some (_, _, e2) => e1 = e2
  | None, None => True
  | _, _ => False
  end.

(** The syntax of a pattern, chunk by chunk: a chunk is malformed when
    [matchChunk] reports an error for it (on the empty name, as on any
    other), a pattern when one of its chunks is. *)
Definition chunkBad (chunk : string) : bool :=
  match matchChunk chunk EmptyString with
  | Some (_, _, Some _) => true
  | _ => false
  end.

Fixpoint patBadLoop (fuel : nat) (pattern : string) : bool :=
  match fuel with
  | O => false
  | S fuel' =>
      if String.eqb pattern EmptyString then false
      else
        let '(star, chunk, pattern) := scanChunk pattern in
        if star && String.eqb chunk EmptyString then false
        else chunkBad chunk || patBadLoop fuel' pattern
  end.

Definition patBad (pattern : string) : bool :=
  patBadLoop (S (String.length pattern)) pattern.

(** A pattern has a syntax error when [Match] reports [ErrBadPattern] for
    it on some name; it then does so on every name, since [Match] checks
    the whole pattern. *)
Definition badSyntax (pattern : string) : Prop :=
  exists name, snd (Match pattern name) = Some ErrBadPattern.

(** [filepath.Rel(root, path)] for a path below the root. *)
Definition Rel (p : os.path) : string :=
  match p with
  | [] => "."%string
  | _ => strings.Join p "/"
  end.

(** [fs.WalkDirFunc], with the state the callback works on: the path, the
    entry ([nil] when the root cannot be read) and the error of reading it. *)
Definition WalkDirFunc (S : Type) : Type :=
  os.path -> option os.node -> option error -> S -> option error * S.

Definition isSkipDir (err : option error) : bool :=
  match err with
  | Some SkipDir => true
  | _ => false
  end.

(** [walkDir]: the callback on the entry, then on the entries of a
    directory in the order of [os.ReadDir]; [SkipDir] from a directory
    skips it, [SkipDir] from another entry skips the rest of its
    directory. *)
Fixpoint walkDir {S : Type} (fn : WalkDirFunc S) (p : os.path) (d : os.node) (s : S)
    : option error * S :=
  let '(err, s) := fn p (Some d) None s in
  if bool_decide (err <> None) || negb (os.isDir d) then
    ((if isSkipDir err && os.isDir d then None else err), s)
  else
    match d with
    | os.File _ _ _ => (None, s)
    | os.Dir _ _ _ dirs =>
        (fix loop (dirs : list (string * os.node)) (s : S) : option error * S :=
           match dirs with
           | [] => (None, s)
           | (name, d1) :: dirs' =>
               let '(err, s) := walkDir fn (p ++ [name]) d1 s in
               match err with
               | Some SkipDir => (None, s)
               | Some e => (Some e, s)
               | None => loop dirs' s
               end
           end) dirs s
    end.

(** [WalkDir(root, fn)]. *)
Definition WalkDir {S : Type} (fs : os.root) (fn : WalkDirFunc S) (s : S)
    : option error * S :=
  let '(err, s) :=
    match fs with
    | None => fn [] None (Some ENOENT) s
    | Some d => walkDir fn [] d s
    end in
  match err with
  | Some SkipDir | Some SkipAll => (None, s)
  | _ => (err, s)
  end.

(** The entries a walk visits, in its order, when [skip] tells the
    directories it does not descend into. *)
Fixpoint visits (skip : os.path -> os.node -> bool) (p : os.path) (d : os.node)
    : list (os.path * os.node) :=
  (p, d) ::
  if skip p d then []
  else
    match d with
    | os.File _ _ _ => []
    | os.Dir _ _ _ dirs =>
        (fix loop (dirs : list (string * os.node)) : list (os.path * os.node) :=
           match dirs with
           | [] => []
           | (name, d1) :: dirs' => visits skip (p ++ [name]) d1 ++ loop dirs'
           end) dirs
    end.

Definition plainError (e : error) : Prop := e <> SkipDir /\ e <> SkipAll.

(** The callback on a list of visits, one after the other, up to the first
    error. *)
Fixpoint runVisits {S : Type} (step : os.path -> os.node -> S -> option error * S)
    (l : list (os.path * os.node)) (s : S) : option error * S :=
  match l with
  | [] => (None, s)
  | (p, d) :: l' =>
      let '(err, s) := step p d s in
      match err with
      | Some e => (Some e, s)
      | None => runVisits step l' s
      end
  end.

End filepath.

(** ** The pattern matcher of [main.go] *)

(** The loop over [parts] in the double-star case; [parts] is [parts[i:]]. *)
Fixpoint matchAnySuffix (suffix : string) (parts : list string) : bool :=
  match parts with
  | [] => false
  | part :: rest =>
      let subPath := strings.Join parts "/" in
      if fst (filepath.Match suffix subPath) then true
      else if fst (filepath.Match suffix part) then true
      else matchAnySuffix suffix rest
  end.

(** The loop over [parts] in the case without a separator. *)
Fixpoint matchAnyPart (pattern : string) (parts : list string) : bool :=
  match parts with
  | [] => false
  | part :: rest =>
      if fst (filepath.Match pattern part) then true
      else matchAnyPart pattern rest
  end.

Definition matchPattern (relPath pattern : string) (isDir : bool) : bool :=
  let pattern := filepath.ToSlash pattern in
  let dirOnly := strings.HasSuffix pattern "/" in
  if dirOnly && negb isDir then false
  else
    let pattern := if dirOnly then strings.TrimSuffix pattern "/" else pattern in
    if strings.HasPrefix pattern "**/" then
      let suffix := strings.TrimPrefix pattern "**/" in
      let parts := strings.Split relPath "/"%char in
      matchAnySuffix suffix parts
    else if negb (strings.Contains pattern "/") then
      let base := filepath.Base relPath in
      if fst (filepath.Match pattern base) then true
      else
        let parts := strings.Split relPath "/"%char in
        matchAnyPart pattern parts
    else
      let pattern := strings.TrimPrefix pattern "/" in
      fst (filepath.Match pattern relPath).

Fixpoint shouldExcludeLoop (relPath : string) (patterns : list string)
    (isDir : bool) : bool :=
  match patterns with
  | [] => false
  | pattern :: patterns' =>
      if matchPattern relPath pattern isDir then true
      else shouldExcludeLoop relPath patterns' isDir
  end.

Definition shouldExclude (relPath : string) (patterns : list string)
    (isDir : bool) : bool :=
  let relPath := filepath.ToSlash relPath in
  shouldExcludeLoop relPath patterns isDir.

(** ** [copyFile], [sync] and [cleanOrphans] *)

(** The destination as the program changes it, with a count of the files
    whose bytes were copied. *)
Record world : Type := mkWorld {
  destFS : os.root;
  copies : nat
}.

Definition sameFile (destInfo info : os.FileInfo) : bool :=
  (os.Size destInfo =? os.Size info) && (os.ModTime destInfo =? os.ModTime info).

Definition copyFile (h : os.host) (srcFS : os.root) (src dest : os.path) (w : world)
    : option error * world :=
  match os.Stat srcFS src with
  | None => (Some ENOENT, w)
  | Some info =>
      let '(err, fs) := os.MkdirAll h (destFS w) (os.parent dest) 493 (* 0755 *) in
      match err with
      | Some e => (Some e, mkWorld fs (copies w))
      | None =>
          if match os.Stat fs dest with
             | Some destInfo => sameFile destInfo info
             | None => false
             end
          then (None, mkWorld fs (copies w))
          else
            match os.Open srcFS src with
            | None => (Some ENOENT, mkWorld fs (copies w))
            | Some srcFile =>
                let '(err, fs) := os.OpenFile_create_trunc h fs dest (os.Mode info) in
                match err with
                | Some e => (Some e, mkWorld fs (copies w))
                | None =>
                    let '(err, fs) := os.Copy h fs dest srcFile in
                    match err with
                    | Some e => (Some e, mkWorld fs (S (copies w)))
                    | None =>
                        let '(err, fs) := os.Chtimes fs dest (os.ModTime info) in
                        (err, mkWorld fs (S (copies w)))
                    end
                end
            end
      end
  end.

(** The callback of the walk in [sync]; its state is the destination and
    the map [validPaths]. *)
Definition syncFn (h : os.host) (src : os.node) (patterns : list string)
    : filepath.WalkDirFunc (world * gset os.path) :=
  fun path d err '(w, validPaths) =>
    match err, d with
    | Some e, _ => (Some e, (w, validPaths))
    | None, None => (Some ENOENT, (w, validPaths))
    | None, Some d =>
        let relPath := filepath.Rel path in
        if String.eqb relPath "." then (None, (w, validPaths))
        else
          let isDir := os.isDir d in
          if shouldExclude relPath patterns isDir then
            ((if isDir then Some SkipDir else None), (w, validPaths))
          else
            let destPath := path in
            let validPaths := {[destPath]} ∪ validPaths in
            if isDir then
              let info := os.Info d in
              let '(err, fs) := os.MkdirAll h (destFS w) destPath (os.Mode info) in
              (err, (mkWorld fs (copies w), validPaths))
            else
              let '(err, w) := copyFile h (Some src) path destPath w in
              (err, (w, validPaths))
    end.

(** The walk of [sync], up to the call of [cleanOrphans]. *)
Definition syncWalk (h : os.host) (src : os.node) (w : world) (patterns : list string)
    : option error * (world * gset os.path) :=
  filepath.WalkDir (Some src) (syncFn h src patterns) (w, ∅).

(** The callback of the walk in [cleanOrphans]; its state is [toRemove]. *)
Definition scanFn (validPaths : gset os.path) : filepath.WalkDirFunc (list os.path) :=
  fun path d err toRemove =>
    match err, d with
    | Some e, _ => (Some e, toRemove)
    | None, None => (Some ENOENT, toRemove)
    | None, Some d =>
        if bool_decide (path = []) then (None, toRemove)
        else if negb (bool_decide (path ∈ validPaths)) then
          let toRemove := toRemove ++ [path] in
          if os.isDir d then (Some SkipDir, toRemove) else (None, toRemove)
        else (None, toRemove)
    end.

(** The scan of [cleanOrphans]: the deletion list. *)
Definition scanOrphans (dest : os.root) (validPaths : gset os.path)
    : option error * list os.path :=
  filepath.WalkDir dest (scanFn validPaths) [].

Fixpoint removeLoop (toRemove : list os.path) (fs : os.root) : option error * os.root :=
  match toRemove with
  | [] => (None, fs)
  | path :: toRemove' =>
      let '(err, fs) := os.RemoveAll fs path in
      match err with
      | Some e => (Some (Wrapped "removing" path e), fs)
      | None => removeLoop toRemove' fs
      end
  end.

Definition cleanOrphans (dest : os.root) (validPaths : gset os.path)
    : option error * os.root :=
  if match os.Stat dest [] with None => true | Some _ => false end then (None, dest)
  else
    let '(err, toRemove) := scanOrphans dest validPaths in
    match err with
    | Some e => (Some (Wrapped "scanning destination" [] e), dest)
    | None => removeLoop toRemove dest
    end.

Definition sync (h : os.host) (src : os.node) (w : world) (patterns : list string)
    : option error * world :=
  let '(err, (w, validPaths)) := syncWalk h src w patterns in
  match err with
  | Some e => (Some (Wrapped "walking source" [] e), w)
  | None =>
      let '(err, fs) := cleanOrphans (destFS w) validPaths in
      (err, mkWorld fs (copies w))
  end.

(** What the two callbacks do to their state on an entry, apart from
    telling the walk to skip a directory. *)
Definition syncStep (h : os.host) (src : os.node) (patterns : list string)
    (path : os.path) (d : os.node) (s : world * gset os.path)
    : option error * (world * gset os.path) :=
  let '(w, validPaths) := s in
  if String.eqb (filepath.Rel path) "." then (None, s)
  else if shouldExclude (filepath.Rel path) patterns (os.isDir d) then (None, s)
  else if os.isDir d then
    let '(err, fs) := os.MkdirAll h (destFS w) path (os.Mode (os.Info d)) in
    (err, (mkWorld fs (copies w), {[path]} ∪ validPaths))
  else
    let '(err, w) := copyFile h (Some src) path path w in
    (err, (w, {[path]} ∪ validPaths)).

Definition scanStep (validPaths : gset os.path) (path : os.path) (d : os.node)
    (toRemove : list os.path) : option error * list os.path :=
  if bool_decide (path = []) then (None, toRemove)
  else if negb (bool_decide (path ∈ validPaths)) then (None, toRemove ++ [path])
  else (None, toRemove).

(** The visited paths that the scan of [cleanOrphans] puts on its list. *)
Definition orphansOf (validPaths : gset os.path) (l : list (os.path * os.node))
    : list os.path :=
  map fst (filter (fun x => fst x <> [] /\ fst x ∉ validPaths) l).

(** The entries that [sync] records and brings to the destination. *)
Definition recorded (patterns : list string) (e : os.path * os.node) : bool :=
  negb (String.eqb (filepath.Rel (fst e)) ".")
  && negb (shouldExclude (filepath.Rel (fst e)) patterns (os.isDir (snd e))).

(** The paths that a complete walk of [sync] over the visits [l] records. *)
Definition recordedPaths (patterns : list string) (l : list (os.path * os.node))
    : gset os.path :=
  list_to_set (map fst (filter (fun x => recorded patterns x = true) l)).

(** [os.Stat] from an entry. *)
Definition entryInfo (e : os.entry) : os.FileInfo :=
  match e with
  | os.FileEntry data modTime mode =>
      os.mkFileInfo (Z.of_nat (String.length data)) modTime mode false
  | os.DirEntry size modTime mode => os.mkFileInfo size modTime mode true
  end.

(** The destination holds a source entry as [sync] wants it: a directory
    where the source has a directory, and for a file an entry that passes
    the size and time check of [copyFile]. *)
Definition syncedDir (fs : os.root) (p : os.path) : Prop :=
  exists size modTime mode, os.entryAt fs p = Some (os.DirEntry size modTime mode).

Definition syncedFile (src : os.node) (fs : os.root) (p : os.path) : Prop :=
  exists e info,
    os.entryAt fs p = Some e /\ os.Stat (Some src) p = Some info
    /\ sameFile (entryInfo e) info = true.

Definition synced (src : os.node) (fs : os.root) (p : os.path) (d : os.node) : Prop :=
  if os.isDir d then syncedDir fs p else syncedFile src fs p.

(** With a path, [validPaths] holds the directories above it. *)
Definition prefixClosed (validPaths : gset os.path) : Prop :=
  forall p name, p ++ [name] ∈ validPaths -> p = [] \/ p ∈ validPaths.

(** The directories the two walks do not descend into. *)
Definition excludedDir (patterns : list string) (p : os.path) (d : os.node) : bool :=
  negb (String.eqb (filepath.Rel p) ".")
  && os.isDir d && shouldExclude (filepath.Rel p) patterns true.

Definition orphanDir (validPaths : gset os.path) (p : os.path) (d : os.node) : bool :=
  negb (bool_decide (p = [])) && negb (bool_decide (p ∈ validPaths)) && os.isDir d.

(** The glob that [matchPattern] hands to [filepath.Match] for a pattern:
    the pattern after rule 1, without its double-star prefix (rule 2) or
    its leading separator (rule 4). *)
Definition globOf (pattern : string) : string :=
  let pattern := filepath.ToSlash pattern in
  let pattern := strings.TrimSuffix pattern "/" in
  if strings.HasPrefix pattern "**/" then strings.TrimPrefix pattern "**/"
  else if negb (strings.Contains pattern "/") then pattern
  else strings.TrimPrefix pattern "/".

(** The table of [TestMatchPattern] and of [TestShouldExclude]. *)
Definition TestMatchPattern_table : list (string * string * bool * bool) :=
  [ ("foo.log", "*.log", false, true);
    ("foo.txt", "*.log", false, false);
    ("dir/foo.log", "*.log", false, true);
    ("node_modules", "node_modules/", true, true);
    ("node_modules", "node_modules/", false, false);
    ("src/node_modules", "node_modules/", true, true);
    (".git", ".git", true, true);
    (".gitignore", ".git", false, false);
    ("src/test/foo.go", "**/test", true, true);
    ("deep/nested/test", "**/test", true, true);
    ("build/output", "build/output", true, true);
    ("src/build/output", "build/output", true, false) ]%string.

Definition TestShouldExclude_table : list (string * bool * bool) :=
  [ (".git", true, true);
    ("src/main.go", false, false);
    ("debug.log", false, true);
    ("src/debug.log", false, true);
    ("node_modules", true, true);
    ("node_modules", false, false);
    ("dist", true, true);
    ("src/index.ts", false, false) ]%string.

(** ** The matcher: rules 1 to 4 *)

(** [filepath.IsAbs] on Unix. *)
Definition IsAbs (path : string) : bool := strings.HasPrefix path "/".

(** Rule 2 in the words of the specification: [suffix] glob-matches the
    joined remainder [parts[i:]] for some index [i], or the single
    component [parts[i]]. *)
Definition suffixOrComponentMatches (suffix relPath : string) : bool :=
  let parts := strings.Split relPath "/"%char in
  existsb (fun i =>
             fst (filepath.Match suffix (strings.Join (drop i parts) "/"))
             || match parts !! i with
                | Some part => fst (filepath.Match suffix part)
                | None => false
                end)
          (seq 0 (length parts)).

(** Leading directory components [d1/.../dk/] put in front of a path. *)
Definition withLeading (dirs : list string) (relPath : string) : string :=
  strings.Join (dirs ++ [relPath]) "/".

(** ** Trees for the tests of [main_test.go] *)

Definition testHost : os.host := os.mkHost 1000 4096.

Definition TestSync_src : os.node :=
  os.Dir 4096 900 493
    [ ("file1.txt", os.File "hello" 100 420);
      ("ignore.log", os.File "logs" 101 420);
      ("subdir", os.Dir 4096 102 493 [ ("file2.txt", os.File "world" 103 420) ]) ]%string.

Definition TestSync_dest : os.root := Some (os.Dir 4096 900 448 []).

Definition TestSyncRemovesOrphans_src : os.node :=
  os.Dir 4096 900 493 [ ("keep.txt", os.File "keep" 100 420) ]%string.

Definition TestSyncRemovesOrphans_dest : os.root :=
  Some (os.Dir 4096 900 448 [ ("orphan.txt", os.File "orphan" 50 420) ]%string).

(** A destination with an orphan directory that has nested entries. *)
Definition orphanTree_dest : os.root :=
  Some (os.Dir 4096 900 448
          [ ("keep.txt", os.File "keep" 100 420);
            ("old", os.Dir 4096 60 493
                      [ ("a.txt", os.File "a" 61 420);
                        ("deep", os.Dir 4096 62 493 [ ("b.txt", os.File "b" 63 420) ]) ]) ]%string).

(** A source with a directory that a pattern excludes, and a destination
    that still has it from an earlier run. *)
Definition excluded_src : os.node :=
  os.Dir 4096 900 493
    [ ("main.go", os.File "package main" 100 420);
      ("node_modules", os.Dir 4096 101 493 [ ("lib.js", os.File "x" 102 420) ]) ]%string.

Definition excluded_dest : os.root :=
  Some (os.Dir 4096 900 448
          [ ("node_modules", os.Dir 4096 50 493 [ ("stale.js", os.File "y" 51 420) ]) ]%string).

(** The table of [TestMatch] in Go's [path/filepath]: pattern, name,
    [matched], and whether the error is [ErrBadPattern]. *)
Definition TestMatch_table : list (string * string * bool * bool) :=
  [ ("abc", "abc", true, false);
    ("*", "abc", true, false);
    ("*c", "abc", true, false);
    ("a*", "a", true, false);
    ("a*", "abc", true, false);
    ("a*", "ab/c", false, false);
    ("a*/b", "abc/b", true, false);
    ("a*/b", "a/c/b", false, false);
    ("a*b*c*d*e*/f", "axbxcxdxe/f", true, false);
    ("a*b*c*d*e*/f", "axbxcxdxexxx/f", true, false);
    ("a*b*c*d*e*/f", "axbxcxdxe/xxx/f", false, false);
    ("a*b*c*d*e*/f", "axbxcxdxexxx/fff", false, false);
    ("a*b?c*x", "abxbbxdbxebxczzx", true, false);
    ("a*b?c*x", "abxbbxdbxebxczzy", false, false);
    ("ab[c]", "abc", true, false);
    ("ab[b-d]", "abc", true, false);
    ("ab[e-g]", "abc", false, false);
    ("ab[^c]", "abc", false, false);
    ("ab[^b-d]", "abc", false, false);
    ("ab[^e-g]", "abc", true, false);
    ("a\*b", "a*b", true, false);
    ("a\*b", "ab", false, false);
    ("a?b", "a☺b", true, false);
    ("a[^a]b", "a☺b", true, false);
    ("a???b", "a☺b", false, false);
    ("a[^a][^a][^a]b", "a☺b", false, false);
    ("[a-ζ]*", "α", true, false);
    ("*[a-ζ]", "A", false, false);
    ("a?b", "a/b", false, false);
    ("a*b", "a/b", false, false);
    ("[\]a]", "]", true, false);
    ("[\-]", "-", true, false);
    ("[x\-]", "x", true, false);
    ("[x\-]", "-", true, false);
    ("[x\-]", "z", false, false);
    ("[\-x]", "x", true, false);
    ("[\-x]", "-", true, false);
    ("[\-x]", "a", false, false);
    ("[]a]", "]", false, true);
    ("[-]", "-", false, true);
    ("[x-]", "x", false, true);
    ("[x-]", "-", false, true);
    ("[x-]", "z", false, true);
    ("[-x]", "x", false, true);
    ("[-x]", "-", false, true);
    ("[-x]", "a", false, true);
    ("\", "a", false, true);
    ("[a-b-c]", "a", false, true);
    ("[", "a", false, true);
    ("[^", "a", false, true);
    ("[^bc", "a", false, true);
    ("a[", "a", false, true);
    ("a[", "ab", false, true);
    ("a[", "x", false, true);
    ("a/b[", "x", false, true);
    ("*x", "xxx", true, false) ]%string.

(** ** Patterns without a metacharacter *)

(** A pattern without the characters that [Match] gives a meaning to:
    [*], [?], [[] and the backslash. *)
Fixpoint literal (s : string) : bool :=
  match s with
  | EmptyString => true
  | String c s' =>
      negb (Ascii.eqb c "*" || Ascii.eqb c "?" || Ascii.eqb c "[" || Ascii.eqb c "\")
      && literal s'
  end.

(** ** What [copyFile] and [sync] leave at a path *)

Definition entryMode (e : os.entry) : Z :=
  match e with
  | os.FileEntry _ _ mode => mode
  | os.DirEntry _ _ mode => mode
  end.

Definition entryIsDir (e : os.entry) : bool := os.IsDir (entryInfo e).

(** The entry at the destination path after [copyFile] has returned [nil]
    for a regular source file, from the entry [old] that was there: the old
    entry when it passes the size and time check, else a regular file with
    the bytes and the time of the source, under the permission bits of the
    old file or, for a new file, of the source. *)
Definition copied (data : string) (modTime mode : Z) (old : option os.entry) : os.entry :=
  match old with
  | Some e =>
      if sameFile (entryInfo e) (os.Info (os.File data modTime mode)) then e
      else os.FileEntry data modTime (entryMode e)
  | None => os.FileEntry data modTime mode
  end.

(** Whether [copyFile] writes the bytes. *)
Definition rewritten (data : string) (modTime mode : Z) (old : option os.entry) : bool :=
  match old with
  | Some e => negb (sameFile (entryInfo e) (os.Info (os.File data modTime mode)))
  | None => true
  end.

(** The entry [sync] leaves at the path of a source entry that it brings
    over: a directory that is there stays, a missing one is made with the
    permission bits of the source directory. *)
Definition brought (h : os.host) (d : os.node) (old : option os.entry) : os.entry :=
  match d with
  | os.File data modTime mode => copied data modTime mode old
  | os.Dir _ _ mode _ =>
      match old with
      | Some e => e
      | None => os.DirEntry (os.dirSize h) (os.now h) mode
      end
  end.

(** The source entry at a path when [shouldExclude] excludes neither it
    nor a directory above it: the entries that [sync] brings over. *)
Definition kept (patterns : list string) (src : os.node) (q : os.path) : option os.node :=
  match os.find src q with
  | Some d =>
      if forallb (fun n =>
                    match os.find src (take n q) with
                    | Some e =>
                        negb (shouldExclude (filepath.Rel (take n q)) patterns (os.isDir e))
                    | None => true
                    end)
                 (seq 1 (length q))
      then Some d else None
  | None => None
  end.

(** The visits of a walk come parents first: no entry is at or above an
    entry visited before it. *)
Fixpoint parentsFirst (l : list (os.path * os.node)) : Prop :=
  match l with
  | [] => True
  | x :: l' => (forall y, y ∈ l' -> ~ fst y `prefix_of` fst x) /\ parentsFirst l'
  end.

(** A path all of whose prefixes below the root are in [validPaths]: the
    path itself and every directory above it. *)
Definition allValid (validPaths : gset os.path) (q : os.path) : bool :=
  forallb (fun n => bool_decide (take n q ∈ validPaths)) (seq 1 (length q)).

(** A destination that has a directory where the source has a file, and a
    stale file beside it. *)
Definition conflict_src : os.node :=
  os.Dir 4096 900 493 [ ("a", os.File "hello" 100 420) ]%string.

Definition conflict_dest : os.root :=
  Some (os.Dir 4096 900 448
          [ ("a", os.Dir 4096 50 493 []);
            ("stale.txt", os.File "old" 51 420) ]%string).

(** ** [unicode], [unicode/utf8] and [strings]: what [strings.TrimSpace] needs

    These are transcribed from Go's library like the functions of the
    modules above; they stay at the top level under their Go names. *)

Definition RuneSelf : Z := 0x80.
Definition UTFMax : nat := 4.

(** [utf8.RuneStart(b)]: [b&0xC0 != 0x80]. *)
Definition RuneStart (b : Z) : bool := negb (Z.land b 0xC0 =? 0x80).

(** [s[i]] *)
Definition byteAt (s : string) (i : nat) : Z :=
  match String.get i s with
  | Some c => utf8.byte c
  | None => 0
  end.

(** The loop [for start--; start >= lim; start-- { if RuneStart(s[start]) { break } }]
    of [DecodeLastRuneInString], from the value of [start] after the first
    decrement; it runs at most [UTFMax] times. *)
Fixpoint backToRuneStart (fuel : nat) (s : string) (start lim : Z) : Z :=
  match fuel with
  | O => start
  | S fuel' =>
      if start <? lim then start
      else if RuneStart (byteAt s (Z.to_nat start)) then start
      else backToRuneStart fuel' s (start - 1) lim
  end.

(** [utf8.DecodeLastRuneInString]: the last rune and its width. *)
Definition DecodeLastRuneInString (s : string) : Z * nat :=
  let end_ := String.length s in
  if (end_ =? 0)%nat then (utf8.RuneError, 0%nat)
  else
    let start := (end_ - 1)%nat in
    let r := byteAt s start in
    if r <? RuneSelf then (r, 1%nat)
    else
      let lim := Z.max (Z.of_nat end_ - Z.of_nat UTFMax) 0 in
      let start := backToRuneStart UTFMax s (Z.of_nat start - 1) lim in
      let start := Z.to_nat (if start <? 0 then 0 else start) in
      let '(r, size) := utf8.DecodeRuneInString (strings.drop start s) in
      if negb (start + size =? end_)%nat then (utf8.RuneError, 1%nat)
      else (r, size).

(** [unicode.IsSpace]: the Latin-1 spaces, and beyond them the other code
    points of the table [White_Space]. *)
Definition IsSpace (r : Z) : bool :=
  if r <=? 0xFF then
    (r =? 9) || (r =? 10) || (r =? 11) || (r =? 12) || (r =? 13) || (r =? 32)
    || (r =? 0x85) || (r =? 0xA0)
  else
    (r =? 0x1680) || ((0x2000 <=? r) && (r <=? 0x200a)) || (r =? 0x2028) || (r =? 0x2029)
    || (r =? 0x202f) || (r =? 0x205f) || (r =? 0x3000).

(** The table [asciiSpace] of [strings]. *)
Definition asciiSpace (c : ascii) : bool :=
  Ascii.eqb c "009" || Ascii.eqb c "010" || Ascii.eqb c "011" || Ascii.eqb c "012"
  || Ascii.eqb c "013" || Ascii.eqb c " ".

(** [indexFunc(s, f, truth)], on the rest of the string from byte [i];
    [None] is [-1]. *)
Fixpoint indexFuncLoop (fuel : nat) (f : Z -> bool) (truth : bool) (s : string) (i : nat)
    : option nat :=
  match fuel with
  | O => None
  | S fuel' =>
      if String.eqb s EmptyString then None
      else
        let '(r, n) := utf8.DecodeRuneInString s in
        if Bool.eqb (f r) truth then Some i
        else indexFuncLoop fuel' f truth (strings.drop n s) (i + n)
  end.

Definition indexFunc (s : string) (f : Z -> bool) (truth : bool) : option nat :=
  indexFuncLoop (String.length s) f truth s 0.

(** [lastIndexFunc(s, f, truth)]: the loop [for i := len(s); i > 0; ]. *)
Fixpoint lastIndexFuncLoop (fuel : nat) (f : Z -> bool) (truth : bool) (s : string) (i : nat)
    : option nat :=
  match fuel with
  | O => None
  | S fuel' =>
      if (i =? 0)%nat then None
      else
        let '(r, size) := DecodeLastRuneInString (strings.take i s) in
        let i := (i - size)%nat in
        if Bool.eqb (f r) truth then Some i
        else lastIndexFuncLoop fuel' f truth s i
  end.

Definition lastIndexFunc (s : string) (f : Z -> bool) (truth : bool) : option nat :=
  lastIndexFuncLoop (String.length s) f truth s (String.length s).

Definition TrimLeftFunc (s : string) (f : Z -> bool) : string :=
  match indexFunc s f false with
  | None => EmptyString
  | Some i => strings.drop i s
  end.

Definition TrimRightFunc (s : string) (f : Z -> bool) : string :=
  let i :=
    match lastIndexFunc s f false with
    | Some i =>
        if RuneSelf <=? byteAt s i
        then (i + snd (utf8.DecodeRuneInString (strings.drop i s)))%nat
        else (i + 1)%nat
    | None => 0%nat
    end in
  strings.take i s.

Definition TrimFunc (s : string) (f : Z -> bool) : string :=
  TrimRightFunc (TrimLeftFunc s f) f.

(** The second loop of [TrimSpace], on [s[start:stop]]. *)
Fixpoint trimSpaceStop (fuel : nat) (s : string) : string :=
  match fuel with
  | O => s
  | S fuel' =>
      let stop := String.length s in
      match String.get (stop - 1) s with
      | None => s
      | Some c =>
          if RuneSelf <=? utf8.byte c then TrimRightFunc s IsSpace
          else if negb (asciiSpace c) then s
          else trimSpaceStop fuel' (strings.take (stop - 1) s)
      end
  end.

(** [strings.TrimSpace]: the first loop, on [s[start:]]. *)
Fixpoint TrimSpace (s : string) : string :=
  match s with
  | EmptyString => EmptyString
  | String c s' =>
      if RuneSelf <=? utf8.byte c then TrimFunc s IsSpace
      else if negb (asciiSpace c) then trimSpaceStop (String.length s) s
      else TrimSpace s'
  end.

(** ** [bufio.Scanner] with [ScanLines] *)

(** The errors of reading the ignore file. *)
Inductive scanError : Type :=
| ErrTooLong                   (* bufio.ErrTooLong *)
| ReadError (err : error).     (* of [os.Open], or of the read *)

Definition MaxScanTokenSize : Z := 65536.

(** [dropCR] *)
Definition dropCR (data : string) : string :=
  if strings.HasSuffix data (String "013" EmptyString)
  then strings.take (String.length data - 1) data
  else data.

(** The tokens of the scanner, from the pieces of the input between its
    newlines: every piece but the last is a line ended by a newline, the
    last one is what follows the last newline and is a token unless it is
    empty.  A line that does not fit the buffer of [MaxScanTokenSize]
    bytes ends the scan with [ErrTooLong]. *)
Fixpoint scanLines (pieces : list string) : list string * option scanError :=
  match pieces with
  | [] => ([], None)
  | line :: rest =>
      match rest with
      | [] =>
          if String.eqb line EmptyString then ([], None)
          else if MaxScanTokenSize <=? Z.of_nat (String.length line) then ([], Some ErrTooLong)
          else ([dropCR line], None)
      | _ :: _ =>
          if MaxScanTokenSize <=? Z.of_nat (String.length line) then ([], Some ErrTooLong)
          else
            let '(tokens, err) := scanLines rest in
            (dropCR line :: tokens, err)
      end
  end.

(** ** [parseGitignore] *)

(** The loop [for scanner.Scan()], on the tokens. *)
Fixpoint parseLines (tokens : list string) : list string :=
  match tokens with
  | [] => []
  | text :: tokens' =>
      let line := TrimSpace text in
      if String.eqb line EmptyString || strings.HasPrefix line "#" then parseLines tokens'
      else if strings.HasPrefix line "!" then parseLines tokens'
      else line :: parseLines tokens'
  end.

Definition parseGitignore (fs : os.root) (path : os.path) : list string * option scanError :=
  match os.Open fs path with
  | None => ([], Some (ReadError ENOENT))
  | Some (os.Dir _ _ _ _) => ([], Some (ReadError EISDIR))
  | Some (os.File data _ _) =>
      let '(tokens, err) := scanLines (strings.Split data "010") in
      (parseLines tokens, err)
  end.

(** ** [run] *)

(** The variables of the argument loop. *)
Record options : Type := mkOptions {
  destPath : string;
  projectName : string;
  excludePatterns : list string
}.

(** How the argument loop ends: at the end of the arguments, with the
    usage text printed, or with an error. *)
Inductive parsed : Type :=
| Parsed (o : options)
| Usage
| ArgError (msg : string).

(** The loop [for i := 0; i < len(args); i++] on [args[i:]]. *)
Fixpoint parseArgs (args : list string) (o : options) : parsed :=
  match args with
  | [] => Parsed o
  | arg :: rest =>
      if String.eqb arg "--to" then
        match rest with
        | [] => ArgError "--to requires a path argument"
        | v :: rest' => parseArgs rest' (mkOptions v (projectName o) (excludePatterns o))
        end
      else if String.eqb arg "--name" then
        match rest with
        | [] => ArgError "--name requires a name argument"
        | v :: rest' => parseArgs rest' (mkOptions (destPath o) v (excludePatterns o))
        end
      else if String.eqb arg "--exclude" then
        match rest with
        | [] => ArgError "--exclude requires a pattern argument"
        | v :: rest' =>
            parseArgs rest' (mkOptions (destPath o) (projectName o) (excludePatterns o ++ [v]))
        end
      else if String.eqb arg "-h" || String.eqb arg "--help" then Usage
      else if strings.HasPrefix arg "-" then ArgError ("unknown flag: " +:+ arg)
      else parseArgs rest o
  end.

(** The patterns [run] hands to [sync]: [.git], the patterns of the
    ignore file of the source when it is read without error, and the
    patterns of [--exclude]. *)
Definition runPatterns (src : os.node) (excludePatterns : list string) : list string :=
  let patterns := [".git"%string] in
  let patterns :=
    match parseGitignore (Some src) [".gitignore"%string] with
    | (gitignorePatterns, None) => patterns ++ gitignorePatterns
    | (_, Some _) => patterns
    end in
  patterns ++ excludePatterns.

(** The errors of [run]: a message of its own, or an error it passes on. *)
Inductive runError : Type :=
| Message (msg : string)
| Failure (err : error).

(** What [run] does: it returns before it touches a tree ([nil] after the
    usage text, or an error), or it returns what [sync] returns for the
    destination [fullDest]. *)
Inductive outcome : Type :=
| Returned (err : option runError)
| Synced (fullDest : string) (err : option error) (w : world).

Section run.

(** [filepath.Join] of two elements and the tree that the file system
    holds at a destination path are not interpreted. *)
Variable Join : string -> string -> string.
Variable destAt : string -> world.

(** [run(args)], with the result of [os.Getwd] and the tree at the working
    directory. *)
Definition run (h : os.host) (getwd : string + error) (src : os.node) (args : list string)
    : outcome :=
  match parseArgs args (mkOptions "" "" []) with
  | Usage => Returned None
  | ArgError msg => Returned (Some (Message msg))
  | Parsed o =>
      if String.eqb (destPath o) "" then Returned (Some (Message "--to flag is required"))
      else
        match getwd with
        | inr err => Returned (Some (Failure (Wrapped "getting working directory" [] err)))
        | inl srcPath =>
            let projectName :=
              if String.eqb (projectName o) "" then filepath.Base srcPath
              else projectName o in
            let fullDest := Join (destPath o) projectName in
            let patterns := runPatterns src (excludePatterns o) in
            let '(err, w) := sync h src (destAt fullDest) patterns in
            Synced fullDest err w
        end
  end.

End run.

(** ** The lines of an ignore file *)

Definition newline : string := String "010" EmptyString.

(** Blanks around the text of a line: ASCII spaces other than the
    newline. *)
Fixpoint blank (s : string) : bool :=
  match s with
  | EmptyString => true
  | String c s' => asciiSpace c && negb (Ascii.eqb c "010") && blank s'
  end.

(** An ASCII byte that is not a space. *)
Definition plainByte (c : ascii) : bool :=
  (utf8.byte c <? RuneSelf) && negb (asciiSpace c).

(** A pattern that [parseGitignore] can return: it begins and ends with
    an ASCII byte that is not a space, begins with neither [#] nor [!],
    and holds no newline. *)
Definition cleanPattern (p : string) : bool :=
  match p, String.get (String.length p - 1) p with
  | String c _, Some c' =>
      plainByte c && negb (Ascii.eqb c "#") && negb (Ascii.eqb c "!") && plainByte c'
      && negb (strings.Contains p newline)
  | _, _ => false
  end.

(** A line of an ignore file and what it stands for: a pattern between
    blanks, a comment or a negation after blanks, or blanks alone. *)
Inductive lineYields : string -> option string -> Prop :=
| PatternLine (lead p trail : string) :
    blank lead = true -> blank trail = true -> cleanPattern p = true ->
    lineYields (lead +:+ p +:+ trail) (Some p)
| SkippedLine (lead : string) (c : ascii) (text : string) :
    blank lead = true -> c = "#"%char \/ c = "!"%char ->
    strings.Contains text newline = false ->
    lineYields (lead +:+ String c text) None
| BlankLine (lead : string) :
    blank lead = true -> lineYields lead None.

(** The ignore file of [TestParseGitignore]. *)
Definition TestParseGitignore_content : string :=
  strings.Join
    [ "# Comment"; "*.log"; "node_modules/"; ""; "# Another comment"; "dist/";
      "!important.log"; "" ]%string newline.

(** A source with a [.git] directory and an ignore file, and a destination
    that holds a [.git] from elsewhere. *)
Definition git_src : os.node :=
  os.Dir 4096 900 493
    [ (".git", os.Dir 4096 10 493 [ ("config", os.File "[core]" 11 420) ]);
      (".gitignore", os.File ("*.log" +:+ newline) 12 420);
      ("main.go", os.File "package main" 100 420);
      ("debug.log", os.File "log" 101 420) ]%string.

Definition git_dest : os.root :=
  Some (os.Dir 4096 900 448
          [ (".git", os.Dir 4096 50 493 [ ("HEAD", os.File "ref" 51 420) ]) ]%string).

(** A line of [n] bytes [c]. *)
Fixpoint repeatByte (n : nat) (c : ascii) : string :=
  match n with
  | O => EmptyString
  | S n' => String c (repeatByte n' c)
  end.
(** ** Facts about the string functions *)

Section string_facts.

Local Open Scope nat_scope.
Local Arguments String.append !_ _ / : simpl nomatch.
Implicit Types s t p : string.

Lemma append_nil_r s : s +:+ "" = s.
Proof. induction s as [|c s IH]; simpl; [done | by rewrite IH]. Qed.

Lemma append_assoc s t p : (s +:+ t) +:+ p = s +:+ (t +:+ p).
Proof. induction s as [|c s IH]; simpl; [done | by rewrite IH]. Qed.

Lemma length_append s t : String.length (s +:+ t) = String.length s + String.length t.
Proof. induction s as [|c s IH]; simpl; [done | by rewrite IH]. Qed.

Lemma take_append s t : strings.take (String.length s) (s +:+ t) = s.
Proof. induction s as [|c s IH]; simpl; [by destruct t | by rewrite IH]. Qed.

Lemma drop_append s t : strings.drop (String.length s) (s +:+ t) = t.
Proof. induction s as [|c s IH]; simpl; [by destruct t | done]. Qed.

Lemma take_drop n s : strings.take n s +:+ strings.drop n s = s.
Proof.
  revert s; induction n as [|n IH]; intros [|c s]; simpl; try done.
  by rewrite IH.
Qed.

Lemma length_take n s : n <= String.length s -> String.length (strings.take n s) = n.
Proof.
  revert s; induction n as [|n IH]; intros [|c s]; simpl; try done; try lia.
  intros H. rewrite IH; lia.
Qed.

Lemma length_drop n s : String.length (strings.drop n s) = String.length s - n.
Proof. revert s; induction n as [|n IH]; intros [|c s]; simpl; try done. Qed.

Lemma take_length_append n s t :
  n = String.length s -> strings.take n (s +:+ t) = s.
Proof. intros ->. apply take_append. Qed.

Lemma eqb_true s t : String.eqb s t = true <-> s = t.
Proof. apply String.eqb_eq. Qed.

Lemma HasPrefix_true s p : strings.HasPrefix s p = true <-> exists t, s = p +:+ t.
Proof.
  unfold strings.HasPrefix. rewrite andb_true_iff, Nat.leb_le, eqb_true. split.
  - intros [_ H]. exists (strings.drop (String.length p) s).
    rewrite <- (take_drop (String.length p) s) at 1. by rewrite H.
  - intros [t ->]. rewrite length_append, take_append. split; [lia | done].
Qed.

Lemma HasPrefix_append p t : strings.HasPrefix (p +:+ t) p = true.
Proof. apply HasPrefix_true. by exists t. Qed.

Lemma TrimPrefix_append p t : strings.TrimPrefix (p +:+ t) p = t.
Proof. unfold strings.TrimPrefix. by rewrite HasPrefix_append, drop_append. Qed.

Lemma drop_length_append s t :
  strings.drop (String.length (s +:+ t) - String.length t) (s +:+ t) = t.
Proof.
  rewrite length_append.
  replace (String.length s + String.length t - String.length t) with (String.length s) by lia.
  apply drop_append.
Qed.

Lemma HasSuffix_true s p : strings.HasSuffix s p = true <-> exists t, s = t +:+ p.
Proof.
  unfold strings.HasSuffix. rewrite andb_true_iff, Nat.leb_le, eqb_true. split.
  - intros [Hl H]. exists (strings.take (String.length s - String.length p) s).
    rewrite <- (take_drop (String.length s - String.length p) s) at 1. by rewrite H.
  - intros [t ->]. rewrite drop_length_append, length_append. split; [lia | done].
Qed.

Lemma HasSuffix_append t p : strings.HasSuffix (t +:+ p) p = true.
Proof. apply HasSuffix_true. by exists t. Qed.

Lemma TrimSuffix_append t p : strings.TrimSuffix (t +:+ p) p = t.
Proof.
  unfold strings.TrimSuffix. rewrite HasSuffix_append, length_append.
  replace (String.length t + String.length p - String.length p) with (String.length t) by lia.
  apply take_append.
Qed.

Lemma Contains_HasPrefix s p :
  strings.HasPrefix s p = true -> strings.Contains s p = true.
Proof. destruct s; simpl; by intros ->. Qed.

Lemma Contains_append s p t : strings.Contains (s +:+ p +:+ t) p = true.
Proof.
  induction s as [|c s IH]; simpl.
  - apply Contains_HasPrefix, HasPrefix_append.
  - rewrite IH. apply orb_true_r.
Qed.

Lemma Contains_false_HasSuffix s p :
  strings.Contains s p = false -> strings.HasSuffix s p = false.
Proof.
  intros H. destruct (strings.HasSuffix s p) eqn:E; [|done].
  apply HasSuffix_true in E as [t ->].
  rewrite <- (append_nil_r p) in H at 1.
  by rewrite Contains_append in H.
Qed.

Lemma Contains_false_HasPrefix s p q t :
  p = q +:+ "/" +:+ t ->
  strings.Contains s "/" = false -> strings.HasPrefix s p = false.
Proof.
  intros -> H. destruct (strings.HasPrefix _ _) eqn:E; [|done].
  apply HasPrefix_true in E as [u ->].
  rewrite !append_assoc in H. by rewrite Contains_append in H.
Qed.

(** *** [Split] *)

Lemma Split_not_nil s sep : strings.Split s sep <> [].
Proof. destruct s as [|c s]; simpl; [done|]. destruct (Ascii.eqb c sep); [done|]. by destruct (strings.Split s sep). Qed.

Lemma Split_append s t sep :
  strings.Split (s +:+ String sep t) sep = strings.Split s sep ++ strings.Split t sep.
Proof.
  induction s as [|c s IH]; simpl.
  - by rewrite Ascii.eqb_refl.
  - destruct (Ascii.eqb c sep); [by rewrite IH|].
    rewrite IH. pose proof (Split_not_nil s sep).
    by destruct (strings.Split s sep).
Qed.

Lemma HasPrefix_separator c s :
  strings.HasPrefix (String c s) "/" = Ascii.eqb c "/".
Proof.
  unfold strings.HasPrefix. simpl.
  rewrite Ascii.eqb_sym. by destruct (Ascii.eqb "/" c).
Qed.

Lemma Contains_separator c s :
  strings.Contains (String c s) "/" = Ascii.eqb c "/" || strings.Contains s "/".
Proof. change (strings.Contains (String c s) "/") with (strings.HasPrefix (String c s) "/" || strings.Contains s "/"). by rewrite HasPrefix_separator. Qed.

Lemma Split_no_separator s :
  strings.Contains s "/" = false -> strings.Split s "/" = [s].
Proof.
  induction s as [|c s IH]; [done|].
  rewrite Contains_separator. intros [H1 H2]%orb_false_iff.
  simpl. by rewrite H1, IH.
Qed.

Lemma Split_separator s :
  strings.Contains s "/" = true -> exists p q ps, strings.Split s "/" = p :: q :: ps.
Proof.
  induction s as [|c s IH]; [done|].
  rewrite Contains_separator. simpl. intros H.
  destruct (Ascii.eqb c "/") eqn:E.
  - pose proof (Split_not_nil s "/"). destruct (strings.Split s "/") eqn:E1; [done|]. eauto.
  - destruct (IH H) as (p & q & ps & ->). eauto.
Qed.

(** *** [Base] *)

Lemma lastElement_last s :
  filepath.lastElement s = List.last (strings.Split s "/") ""%string.
Proof.
  induction s as [|c s IH]; [done|].
  simpl filepath.lastElement. simpl strings.Split.
  change (String filepath.Separator "") with "/"%string.
  change filepath.Separator with "/"%char.
  destruct (strings.Contains s "/") eqn:E.
  - destruct (Split_separator s E) as (p & q & ps & Hs).
    rewrite IH, Hs. by destruct (Ascii.eqb c "/").
  - rewrite (Split_no_separator s E). by destruct (Ascii.eqb c "/").
Qed.

Lemma Split_stripTrailingSeparators s :
  exists l, strings.Split s "/" = strings.Split (filepath.stripTrailingSeparators s) "/" ++ l.
Proof.
  induction s as [|c s [l IH]]; [by exists []|].
  simpl. change filepath.Separator with "/"%char.
  destruct (filepath.stripTrailingSeparators s) as [|c' u] eqn:E.
  - simpl in IH. rewrite IH. destruct (Ascii.eqb c "/") eqn:Ec; simpl; rewrite ?Ec; eauto.
  - rewrite IH. remember (String c' u) as v. simpl. destruct (Ascii.eqb c "/"); [eauto|].
    pose proof (Split_not_nil v "/"). destruct (strings.Split v "/"); [done|]. eauto.
Qed.

Lemma stripTrailingSeparators_idemp s :
  filepath.stripTrailingSeparators (filepath.stripTrailingSeparators s)
  = filepath.stripTrailingSeparators s.
Proof.
  induction s as [|c s IH]; [done|]. simpl.
  destruct (filepath.stripTrailingSeparators s) as [|c' u] eqn:E.
  - destruct (Ascii.eqb c filepath.Separator) eqn:Ec; [done|]. simpl. by rewrite Ec.
  - remember (String c' u) as v. simpl. rewrite IH. by subst v.
Qed.

Lemma lastElement_stripped s :
  filepath.stripTrailingSeparators s = s -> s <> ""%string ->
  filepath.lastElement s <> ""%string.
Proof.
  induction s as [|c s IH]; [done|]. intros Hs _.
  simpl in Hs. simpl.
  destruct (filepath.stripTrailingSeparators s) as [|c' u] eqn:E.
  - destruct (Ascii.eqb c filepath.Separator) eqn:Ec; [done|].
    by simplify_eq.
  - simplify_eq. destruct (strings.Contains _ _); [by apply IH|].
    by destruct (Ascii.eqb c filepath.Separator).
Qed.

(** A path with a byte that is not a separator has its base among its
    components. *)
Lemma Base_in_Split s :
  filepath.stripTrailingSeparators s <> ""%string ->
  filepath.Base s ∈ strings.Split s "/".
Proof.
  intros Hs. unfold filepath.Base.
  destruct (String.eqb s "") eqn:E; [apply eqb_true in E; by subst|].
  pose proof (lastElement_stripped _ (stripTrailingSeparators_idemp s) Hs) as Hl.
  destruct (String.eqb (filepath.lastElement _) "") eqn:E2; [by apply eqb_true in E2|].
  destruct (Split_stripTrailingSeparators s) as [l ->].
  apply elem_of_app. left. rewrite lastElement_last.
  pose proof (Split_not_nil (filepath.stripTrailingSeparators s) "/") as Hn.
  revert Hn. generalize (strings.Split (filepath.stripTrailingSeparators s) "/").
  induction l0 as [|x [|y l0] IH]; intros Hn; [done| |].
  - simpl. apply list_elem_of_here.
  - apply list_elem_of_further. by apply IH.
Qed.

End string_facts.

Section matcher_facts.

Implicit Types relPath pattern suffix : string.

Lemma ToSlash_id s : filepath.ToSlash s = s.
Proof. done. Qed.

Lemma existsb_seq_S (f : nat -> bool) a n :
  existsb f (seq (S a) n) = existsb (fun i => f (S i)) (seq a n).
Proof. revert a; induction n as [|n IH]; intros a; simpl; [done | by rewrite IH]. Qed.

Lemma matchAnySuffix_spec suffix parts :
  matchAnySuffix suffix parts
  = existsb (fun i =>
               fst (filepath.Match suffix (strings.Join (drop i parts) "/"))
               || match parts !! i with
                  | Some part => fst (filepath.Match suffix part)
                  | None => false
                  end)
            (seq 0 (length parts)).
Proof.
  induction parts as [|part parts IH]; [done|].
  cbn [matchAnySuffix length seq existsb]. rewrite existsb_seq_S, IH.
  change (drop 0 (part :: parts)) with (part :: parts).
  change ((part :: parts) !! 0%nat) with (Some part).
  destruct (fst (filepath.Match suffix (strings.Join (part :: parts) "/"))); [done|].
  destruct (fst (filepath.Match suffix part)); reflexivity.
Qed.

Lemma matchAnyPart_true pattern parts :
  matchAnyPart pattern parts = true
  <-> exists part, part ∈ parts /\ fst (filepath.Match pattern part) = true.
Proof.
  induction parts as [|part parts IH]; simpl.
  - split; [done|]. intros (? & []%elem_of_nil & _).
  - destruct (fst (filepath.Match pattern part)) eqn:E.
    + split; [|done]. intros _. exists part. split; [left|done].
    + rewrite IH. split.
      * intros (x & Hx & Hm). exists x. split; [by right|done].
      * intros (x & Hx & Hm). apply elem_of_cons in Hx as [->|Hx]; [congruence|eauto].
Qed.

(** The three shapes a pattern takes after rule 1. *)
Lemma matchPattern_unfold relPath pattern isDir :
  matchPattern relPath pattern isDir
  = (negb (strings.HasSuffix pattern "/") || isDir)
    && let stripped := strings.TrimSuffix pattern "/" in
       if strings.HasPrefix stripped "**/" then
         matchAnySuffix (strings.TrimPrefix stripped "**/") (strings.Split relPath "/"%char)
       else if negb (strings.Contains stripped "/") then
         fst (filepath.Match stripped (filepath.Base relPath))
         || matchAnyPart stripped (strings.Split relPath "/"%char)
       else fst (filepath.Match (strings.TrimPrefix stripped "/") relPath).
Proof.
  assert ((if strings.HasSuffix pattern "/" then strings.TrimSuffix pattern "/" else pattern)
          = strings.TrimSuffix pattern "/") as Hs.
  { unfold strings.TrimSuffix. by destruct (strings.HasSuffix pattern "/"). }
  unfold matchPattern. rewrite ToSlash_id, Hs.
  destruct (strings.HasSuffix pattern "/"), isDir; cbn [negb andb orb]; try done.
  all: repeat case_match; done.
Qed.

Lemma matchPattern_no_separator relPath pattern isDir :
  strings.Contains pattern "/" = false ->
  matchPattern relPath pattern isDir
  = fst (filepath.Match pattern (filepath.Base relPath))
    || matchAnyPart pattern (strings.Split relPath "/"%char).
Proof.
  intros H. rewrite matchPattern_unfold.
  unfold strings.TrimSuffix. rewrite (Contains_false_HasSuffix _ _ H). cbn [negb orb andb].
  rewrite (Contains_false_HasPrefix pattern "**/" "**" "" eq_refl H).
  by rewrite H.
Qed.

Lemma relative_not_only_separators relPath :
  relPath <> ""%string -> IsAbs relPath = false ->
  filepath.stripTrailingSeparators relPath <> ""%string.
Proof.
  destruct relPath as [|c s]; [done|]. intros _. unfold IsAbs.
  rewrite HasPrefix_separator. intros Hc. simpl.
  change filepath.Separator with "/"%char. rewrite Hc.
  by destruct (filepath.stripTrailingSeparators s).
Qed.

Lemma Join_cons e es sep :
  es <> [] -> strings.Join (e :: es) sep = e +:+ sep +:+ strings.Join es sep.
Proof. by destruct es. Qed.

Lemma Split_withLeading dirs relPath part :
  part ∈ strings.Split relPath "/" ->
  part ∈ strings.Split (withLeading dirs relPath) "/".
Proof.
  intros H. unfold withLeading. induction dirs as [|d dirs IH]; [done|].
  change ((d :: dirs) ++ [relPath]) with (d :: (dirs ++ [relPath])).
  rewrite Join_cons by (by destruct dirs).
  change ("/" +:+ ?t) with (String "/" t). rewrite Split_append.
  apply elem_of_app. by right.
Qed.

End matcher_facts.

(** ** The tests of [main_test.go] on the model *)

Example TestMatchPattern :
  forallb (fun '(relPath, pattern, isDir, expected) =>
             Bool.eqb (matchPattern relPath pattern isDir) expected)
          TestMatchPattern_table = true.
Proof. vm_compute. reflexivity. Qed.

Example TestShouldExclude :
  forallb (fun '(relPath, isDir, expected) =>
             Bool.eqb (shouldExclude relPath [".git"; "*.log"; "node_modules/"; "dist/"]%string isDir)
                      expected)
          TestShouldExclude_table = true.
Proof. vm_compute. reflexivity. Qed.

(** ** Rule 1: directory-only patterns *)

(** C4. A pattern ending in the path separator never matches an entry that
    is not a directory: for every relative path and every pattern
    [pattern ++ "/"], [matchPattern] with [isDir = false] is false,
    whatever the components or the base name of the path. *)
Theorem C4_dir_only_pattern_never_matches_file (relPath pattern : string) :
  matchPattern relPath (pattern +:+ "/") false = false.
Proof.
  rewrite matchPattern_unfold, HasSuffix_append. reflexivity.
Qed.

(** ** Rule 2: the double-star prefix *)

(** C5, as stated, fails on the directory-only pattern ["**/test/"] and
    the path ["test"]: with the suffix taken after the prefix alone
    (["test/"]) the code matches a directory that the suffix does not
    glob-match; with the suffix taken after both strips (["test"]) the
    code rejects a file that the suffix glob-matches. *)
Lemma C5_counterexample :
  strings.HasPrefix "**/test/" "**/" = true
  /\ ~ (matchPattern "test" "**/test/" true = true
        <-> suffixOrComponentMatches (strings.TrimPrefix "**/test/" "**/") "test" = true)
  /\ ~ (matchPattern "test" "**/test/" false = true
        <-> suffixOrComponentMatches
              (strings.TrimPrefix (strings.TrimSuffix "**/test/" "/") "**/") "test" = true).
Proof.
  split; [reflexivity|]. split.
  - assert (matchPattern "test" "**/test/" true = true) as H1 by (vm_compute; reflexivity).
    assert (suffixOrComponentMatches (strings.TrimPrefix "**/test/" "**/") "test" = false) as H2
      by (vm_compute; reflexivity).
    rewrite H1, H2. intros [H _]. by specialize (H eq_refl).
  - assert (matchPattern "test" "**/test/" false = false) as H1 by (vm_compute; reflexivity).
    assert (suffixOrComponentMatches
              (strings.TrimPrefix (strings.TrimSuffix "**/test/" "/") "**/") "test" = true) as H2
      by (vm_compute; reflexivity).
    rewrite H1, H2. intros [_ H]. by specialize (H eq_refl).
Qed.

(** C5 (amended). For a pattern whose form after rule 1 (one trailing
    separator removed) begins with ["**/"], [matchPattern] is true if and
    only if the pattern is not directory-only or the entry is a directory,
    and the suffix of the separator-stripped pattern glob-matches some
    joined remainder [parts[i:]] of the path or some single component.
    In particular ["**/test"] matches ["test"] and ["a/b/test"]. *)
Theorem C5_double_star_prefix :
  (forall (relPath pattern : string) (isDir : bool),
      strings.HasPrefix (strings.TrimSuffix pattern "/") "**/" = true ->
      matchPattern relPath pattern isDir = true
      <-> (strings.HasSuffix pattern "/" = true -> isDir = true)
          /\ suffixOrComponentMatches
               (strings.TrimPrefix (strings.TrimSuffix pattern "/") "**/") relPath = true)
  /\ (forall isDir, matchPattern "test" "**/test" isDir = true)
  /\ (forall isDir, matchPattern "a/b/test" "**/test" isDir = true).
Proof.
  split; [|split; intros []; vm_compute; reflexivity].
  intros relPath pattern isDir H.
  rewrite matchPattern_unfold. cbv zeta. rewrite H, matchAnySuffix_spec.
  fold (suffixOrComponentMatches (strings.TrimPrefix (strings.TrimSuffix pattern "/") "**/") relPath).
  rewrite andb_true_iff.
  destruct (strings.HasSuffix pattern "/"), isDir; cbn [negb orb]; intuition congruence.
Qed.

Lemma C5_double_star_prefix_witness :
  strings.HasPrefix (strings.TrimSuffix "**/test" "/") "**/" = true
  /\ (matchPattern "a/b/test" "**/test" false = true
      <-> (strings.HasSuffix "**/test" "/" = true -> false = true)
          /\ suffixOrComponentMatches
               (strings.TrimPrefix (strings.TrimSuffix "**/test" "/") "**/") "a/b/test" = true).
Proof.
  split; [reflexivity|].
  apply (proj1 C5_double_star_prefix "a/b/test" "**/test" false). reflexivity.
Defined.

(** ** Rule 4: rooted patterns *)

(** C6, as stated, fails on the pattern ["build/"]: it contains a
    separator and has no double-star prefix, yet it matches the nested
    directory ["src/build"], which neither ["build/"] nor ["build"]
    glob-matches as a whole path. *)
Lemma C6_counterexample :
  strings.Contains "build/" "/" = true
  /\ strings.HasPrefix "build/" "**/" = false
  /\ matchPattern "src/build" "build/" true = true
  /\ fst (filepath.Match (strings.TrimPrefix "build/" "/") "src/build") = false
  /\ fst (filepath.Match (strings.TrimPrefix (strings.TrimSuffix "build/" "/") "/") "src/build") = false.
Proof. repeat split; vm_compute; reflexivity. Qed.

(** C6 (amended). For a pattern whose form after rule 1 (one trailing
    separator removed) contains a separator and does not begin with
    ["**/"], [matchPattern] is true only when that form, with one optional
    leading separator removed, glob-matches the entire relative path (and,
    exactly, when moreover the pattern is not directory-only or the entry
    is a directory); ["build/output"] does not match ["src/build/output"]. *)
Theorem C6_rooted_pattern :
  (forall (relPath pattern : string) (isDir : bool),
      strings.Contains (strings.TrimSuffix pattern "/") "/" = true ->
      strings.HasPrefix (strings.TrimSuffix pattern "/") "**/" = false ->
      (matchPattern relPath pattern isDir = true ->
       fst (filepath.Match (strings.TrimPrefix (strings.TrimSuffix pattern "/") "/") relPath) = true)
      /\ matchPattern relPath pattern isDir
         = (negb (strings.HasSuffix pattern "/") || isDir)
           && fst (filepath.Match (strings.TrimPrefix (strings.TrimSuffix pattern "/") "/") relPath))
  /\ (forall isDir, matchPattern "src/build/output" "build/output" isDir = false).
Proof.
  split; [|intros []; vm_compute; reflexivity].
  intros relPath pattern isDir H1 H2.
  rewrite matchPattern_unfold. cbv zeta. rewrite H1, H2. cbn [negb].
  split; [|done]. by intros [_ ?]%andb_true_iff.
Qed.

Lemma C6_rooted_pattern_witness :
  matchPattern "build/output" "/build/output/" true = true
  /\ fst (filepath.Match
            (strings.TrimPrefix (strings.TrimSuffix "/build/output/" "/") "/") "build/output") = true.
Proof.
  assert (matchPattern "build/output" "/build/output/" true = true) as H
    by (vm_compute; reflexivity).
  split; [exact H|].
  apply (proj1 (proj1 C6_rooted_pattern "build/output" "/build/output/" true
                  ltac:(reflexivity) ltac:(reflexivity))).
  exact H.
Defined.

(** ** Rule 3: patterns without a separator *)

(** C7. For a pattern without a path separator, matching is monotone under
    prefixing: if a relative path (non-empty, not absolute) matches, so
    does the path with any leading directory components [d1/.../dk/] put
    in front of it. *)
Theorem C7_unrooted_pattern_depth_independent
    (relPath pattern : string) (dirs : list string) (isDir : bool) :
  strings.Contains pattern "/" = false ->
  relPath <> ""%string -> IsAbs relPath = false ->
  matchPattern relPath pattern isDir = true ->
  matchPattern (withLeading dirs relPath) pattern isDir = true.
Proof.
  intros Hp Hne Hrel. rewrite !matchPattern_no_separator by done.
  intros H. apply orb_true_iff. right. apply matchAnyPart_true.
  apply orb_true_iff in H as [H|H].
  - exists (filepath.Base relPath). split; [|done].
    apply Split_withLeading, Base_in_Split. by apply relative_not_only_separators.
  - apply matchAnyPart_true in H as (part & Hin & Hm).
    exists part. split; [|done]. by apply Split_withLeading.
Qed.

Lemma C7_unrooted_pattern_depth_independent_witness :
  matchPattern (withLeading ["src"; "pkg"] "debug.log") "*.log" false = true.
Proof.
  apply (C7_unrooted_pattern_depth_independent "debug.log" "*.log" ["src"; "pkg"] false);
    [reflexivity | discriminate | reflexivity | vm_compute; reflexivity].
Defined.

(** ** The glob matcher: termination and syntax errors *)

Section glob_facts.

Import filepath.
Local Open Scope nat_scope.
Local Arguments String.append !_ _ / : simpl nomatch.

Lemma getEsc_length chunk r nchunk :
  getEsc chunk = Some (r, nchunk) -> String.length nchunk < String.length chunk.
Proof.
  unfold getEsc. destruct chunk as [|c chunk]; [done|].
  destruct (_ || _); [done|].
  set (ch := if Ascii.eqb c "\" then chunk else String c chunk).
  assert (String.length ch <= String.length (String c chunk)) as Hle.
  { unfold ch. destruct (Ascii.eqb c "\"); simpl; lia. }
  destruct (String.eqb ch "") eqn:E; [done|].
  destruct (utf8.DecodeRuneInString ch) as [r' n] eqn:Ed.
  destruct (_ && _) eqn:E1; [done|].
  destruct (String.eqb (strings.drop n ch) "") eqn:E2; [done|].
  intros [= <- <-]. rewrite length_drop.
  assert (n <> 0) as Hn.
  { intros ->. destruct ch; [done|]. unfold utf8.DecodeRuneInString in Ed.
    repeat case_match; simplify_eq. }
  assert (String.length ch <> 0) by (destruct ch; done).
  lia.
Qed.

(** *** The step budgets are never exhausted *)

Lemma length_tail s : String.length (strings.tail s) <= String.length s.
Proof. destruct s; cbn; lia. Qed.

Lemma classLoop_fuel fuel chunk r m nrange :
  String.length chunk < fuel ->
  match classLoop fuel chunk r m nrange with
  | Ret (_, chunk') => String.length chunk' < String.length chunk
  | Bad => True
  | OutOfFuel => False
  end.
Proof.
  revert chunk m nrange. induction fuel as [|fuel IH]; intros chunk m nrange Hf; [lia|].
  simpl. destruct (strings.startsWith chunk "]" && (0 <? nrange)) eqn:E.
  - apply andb_true_iff in E as [E _]. destruct chunk; [done|]. cbn. lia.
  - destruct (getEsc chunk) as [[lo chunk1]|] eqn:E1; [|done].
    apply getEsc_length in E1.
    destruct (strings.startsWith chunk1 "-").
    + destruct (getEsc (strings.tail chunk1)) as [[hi chunk3]|] eqn:E2; [|done].
      apply getEsc_length in E2. pose proof (length_tail chunk1).
      specialize (IH chunk3 (if (lo <=? r)%Z && (r <=? hi)%Z then true else m) (S nrange) ltac:(lia)).
      destruct (classLoop fuel chunk3 r _ (S nrange)) as [[? ?]| |]; [lia|done|done].
    + specialize (IH chunk1 (if (lo <=? r)%Z && (r <=? lo)%Z then true else m) (S nrange) ltac:(lia)).
      destruct (classLoop fuel chunk1 r _ (S nrange)) as [[? ?]| |]; [lia|done|done].
Qed.

Lemma matchChunkLoop_fuel fuel chunk s failed :
  String.length chunk < fuel -> is_Some (matchChunkLoop fuel chunk s failed).
Proof.
  revert chunk s failed.
  induction fuel as [|fuel IH]; intros chunk s failed Hf; [lia|].
  destruct chunk as [|c chunk']; simpl; [by destruct failed|].
  simpl in Hf.
  destruct (Ascii.eqb c "[").
  - destruct (if failed || String.eqb s "" then _ else _) as [r s1].
    set (chunk := if strings.startsWith chunk' "^" then strings.tail chunk' else chunk').
    assert (String.length chunk <= String.length chunk') as Hc.
    { unfold chunk. destruct (strings.startsWith _ _); [apply length_tail|done]. }
    pose proof (classLoop_fuel fuel chunk r false 0 ltac:(lia)) as Hcl.
    destruct (classLoop fuel chunk r false 0) as [[m chunk1]| |]; [|done|done].
    apply IH. lia.
  - destruct (Ascii.eqb c "?").
    + destruct (failed || String.eqb s ""); [apply IH; lia|].
      destruct (utf8.DecodeRuneInString s). apply IH. lia.
    + destruct (Ascii.eqb c "\").
      * destruct chunk' as [|c0 chunk1]; [done|]. simpl in Hf.
        destruct (failed || String.eqb s ""); [apply IH; lia|].
        destruct s; apply IH; lia.
      * destruct (failed || String.eqb s ""); [apply IH; lia|].
        destruct s; apply IH; lia.
Qed.

Lemma matchChunk_total chunk s : is_Some (matchChunk chunk s).
Proof. apply matchChunkLoop_fuel. lia. Qed.

Lemma scanLoop_ge pattern :
  (forall inrange i, i <= scanLoop pattern inrange i)
  /\ (forall c inrange i, i <= scanLoop (String c pattern) inrange i).
Proof.
  induction pattern as [|c' pattern [IH1 IH2]].
  - split; [done|]. intros c inrange i. simpl. repeat case_match; lia.
  - split; [apply IH2|]. intros c inrange i.
    change (scanLoop (String c (String c' pattern)) inrange i) with
      (if Ascii.eqb c "\" then scanLoop pattern inrange (S (S i))
       else if Ascii.eqb c "[" then scanLoop (String c' pattern) true (S i)
       else if Ascii.eqb c "]" then scanLoop (String c' pattern) false (S i)
       else if Ascii.eqb c "*" then
         if inrange then scanLoop (String c' pattern) inrange (S i) else i
       else scanLoop (String c' pattern) inrange (S i)).
    pose proof (IH1 inrange (S (S i))).
    pose proof (fun b => IH2 c' b (S i)) as H2.
    pose proof (H2 true); pose proof (H2 false); pose proof (H2 inrange).
    repeat case_match; lia.
Qed.

Lemma scanLoop_zero c pattern :
  scanLoop (String c pattern) false 0 = 0 -> Ascii.eqb c "*" = true.
Proof.
  destruct (scanLoop_ge pattern) as [H1 H2].
  simpl. intros H.
  pose proof (H1 true 1); pose proof (H1 false 1).
  destruct (Ascii.eqb c "\").
  { destruct pattern as [|c' p']; [done|].
    destruct (scanLoop_ge p') as [Hp _]. specialize (Hp false 2). lia. }
  repeat case_match; try done; lia.
Qed.

Lemma scanLoop_le pattern :
  (forall inrange i, scanLoop pattern inrange i <= i + String.length pattern)
  /\ (forall c inrange i, scanLoop (String c pattern) inrange i <= i + S (String.length pattern)).
Proof.
  induction pattern as [|c' pattern [IH1 IH2]].
  - split; [simpl; lia|]. intros c inrange i. simpl. repeat case_match; lia.
  - split; [apply IH2|]. intros c inrange i.
    change (scanLoop (String c (String c' pattern)) inrange i) with
      (if Ascii.eqb c "\" then scanLoop pattern inrange (S (S i))
       else if Ascii.eqb c "[" then scanLoop (String c' pattern) true (S i)
       else if Ascii.eqb c "]" then scanLoop (String c' pattern) false (S i)
       else if Ascii.eqb c "*" then
         if inrange then scanLoop (String c' pattern) inrange (S i) else i
       else scanLoop (String c' pattern) inrange (S i)).
    pose proof (IH1 inrange (S (S i))).
    pose proof (fun b => IH2 c' b (S i)) as H2.
    pose proof (H2 true); pose proof (H2 false); pose proof (H2 inrange).
    cbn [String.length]. repeat case_match; lia.
Qed.

Lemma skipStars_spec pattern :
  String.length (snd (skipStars pattern)) <= String.length pattern
  /\ (fst (skipStars pattern) = true ->
      String.length (snd (skipStars pattern)) < String.length pattern)
  /\ (fst (skipStars pattern) = false -> snd (skipStars pattern) = pattern)
  /\ strings.startsWith (snd (skipStars pattern)) "*" = false.
Proof.
  induction pattern as [|c pattern (IH1 & IH2 & IH3 & IH4)]; [done|].
  simpl. destruct (Ascii.eqb c "*") eqn:E; simpl; [|by rewrite E].
  repeat split; try done; lia.
Qed.

(** Unless the pattern ends in stars, [scanChunk] leaves a strictly
    shorter pattern. *)
Lemma scanChunk_length pattern star chunk rest :
  pattern <> ""%string ->
  scanChunk pattern = (star, chunk, rest) ->
  star && String.eqb chunk "" = false ->
  String.length rest < String.length pattern.
Proof.
  intros Hne. unfold scanChunk.
  destruct (skipStars pattern) as [st p'] eqn:Es.
  pose proof (skipStars_spec pattern) as (H1 & H2 & H3 & H4).
  rewrite Es in H1, H2, H3, H4. simpl in H1, H2, H3, H4.
  intros [= <- <- <-] Hsc. rewrite length_drop.
  destruct st; [specialize (H2 eq_refl); lia|].
  specialize (H3 eq_refl). subst p'.
  destruct pattern as [|c p]; [done|].
  destruct (scanLoop (String c p) false 0) eqn:El; [|simpl; lia].
  apply scanLoop_zero in El. simpl in H4. congruence.
Qed.

(** [scanChunk] always leaves a strictly shorter pattern, and nothing
    when the chunk is empty: an empty chunk is what follows trailing stars. *)
Lemma scanChunk_shorter pattern star chunk rest :
  pattern <> ""%string ->
  scanChunk pattern = (star, chunk, rest) ->
  String.length rest < String.length pattern
  /\ (chunk = ""%string -> rest = ""%string).
Proof.
  intros Hne. unfold scanChunk.
  destruct (skipStars pattern) as [st p'] eqn:Es.
  pose proof (skipStars_spec pattern) as (H1 & H2 & H3 & H4).
  rewrite Es in H1, H2, H3, H4. simpl in H1, H2, H3, H4.
  intros [= <- <- <-]. rewrite length_drop.
  destruct p' as [|c p].
  { split; [|done]. destruct st; [specialize (H2 eq_refl); simpl in *; lia|].
    specialize (H3 eq_refl). congruence. }
  destruct (scanLoop (String c p) false 0) eqn:El.
  { apply scanLoop_zero in El. simpl in H4. congruence. }
  split; [simpl in *; lia|done].
Qed.

Lemma checkLoop_fuel fuel pattern :
  String.length pattern < fuel -> is_Some (checkLoop fuel pattern).
Proof.
  revert pattern. induction fuel as [|fuel IH]; intros pattern Hf; [lia|].
  simpl. destruct (String.eqb pattern "") eqn:Ep; [done|].
  destruct (scanChunk pattern) as [[star chunk] rest] eqn:Es.
  apply scanChunk_shorter in Es as [Hr _]; [|by intros ->].
  destruct (matchChunk_total chunk "") as [[[t ok] err] ->].
  destruct err; [done|]. apply IH. lia.
Qed.

Lemma starLoop_total chunk pattern k unmatched name :
  (forall t, is_Some (k t)) -> is_Some unmatched ->
  is_Some (starLoop chunk pattern k unmatched name).
Proof.
  intros Hk Hu. induction name as [|c name IH]; simpl; [done|].
  destruct (Ascii.eqb c Separator); [done|].
  destruct (matchChunk_total chunk name) as [[[t ok] err] ->].
  destruct ok; [by destruct (_ && _)|]. by destruct err.
Qed.

Lemma MatchLoop_fuel fuel pattern name :
  String.length pattern < fuel -> is_Some (MatchLoop fuel pattern name).
Proof.
  revert pattern name.
  induction fuel as [|fuel IH]; intros pattern name Hf; [lia|].
  simpl. destruct (String.eqb pattern "") eqn:Ep; [done|].
  destruct (scanChunk pattern) as [[star chunk] rest] eqn:Es.
  destruct (star && String.eqb chunk "") eqn:Esc; [done|].
  assert (String.length rest < String.length pattern) as Hr.
  { eapply scanChunk_length; [|done..]. intros ->. done. }
  destruct (matchChunk_total chunk name) as [[[t ok] err] ->].
  destruct (ok && _); [apply IH; lia|].
  destruct err; [done|].
  assert (is_Some (checkLoop fuel rest)) as Hu by (apply checkLoop_fuel; lia).
  destruct star; [|done].
  apply starLoop_total; [|done]. intros t'. apply IH. lia.
Qed.

(** [Match] always returns: the budget of its loop is enough. *)
Lemma Match_total pattern name :
  MatchLoop (S (String.length pattern)) pattern name = Some (Match pattern name).
Proof.
  unfold Match.
  destruct (MatchLoop_fuel (S (String.length pattern)) pattern name) as [r ->]; [lia|done].
Qed.

(** *** Whether a chunk is malformed does not depend on the name *)

Lemma classLoop_indep fuel chunk r1 m1 r2 m2 nrange :
  classSim (classLoop fuel chunk r1 m1 nrange) (classLoop fuel chunk r2 m2 nrange).
Proof.
  revert chunk m1 m2 nrange.
  induction fuel as [|fuel IH]; intros chunk m1 m2 nrange; [done|].
  simpl. destruct (strings.startsWith chunk "]" && (0 <? nrange)); [done|].
  destruct (getEsc chunk) as [[lo chunk1]|]; [|done].
  destruct (if strings.startsWith chunk1 "-" then _ else _) as [[hi chunk3]|]; [|done].
  apply IH.
Qed.

Lemma matchChunkLoop_indep fuel chunk s1 f1 s2 f2 :
  errSim (matchChunkLoop fuel chunk s1 f1) (matchChunkLoop fuel chunk s2 f2).
Proof.
  revert chunk s1 f1 s2 f2.
  induction fuel as [|fuel IH]; intros chunk s1 f1 s2 f2; [done|].
  destruct chunk as [|c chunk']; simpl; [by destruct f1, f2|].
  destruct (Ascii.eqb c "[").
  - destruct (if f1 || String.eqb s1 "" then _ else _) as [r1 t1].
    destruct (if f2 || String.eqb s2 "" then _ else _) as [r2 t2].
    set (chunk := if strings.startsWith chunk' "^" then strings.tail chunk' else chunk').
    pose proof (classLoop_indep fuel chunk r1 false r2 false 0) as Hc.
    destruct (classLoop fuel chunk r1 false 0) as [[m1 c1]| |],
             (classLoop fuel chunk r2 false 0) as [[m2 c2]| |]; try done.
    simpl in Hc. subst c2. apply IH.
  - destruct (Ascii.eqb c "?").
    + destruct (f1 || String.eqb s1 ""), (f2 || String.eqb s2 "");
        repeat (destruct (utf8.DecodeRuneInString _)); apply IH.
    + destruct (if Ascii.eqb c "\" then chunk' else String c chunk') as [|c0 chunk1]; [done|].
      destruct (f1 || String.eqb s1 ""), (f2 || String.eqb s2 ""), s1, s2; apply IH.
Qed.

Lemma matchChunkLoop_ok fuel chunk s failed t err :
  matchChunkLoop fuel chunk s failed = Some (t, true, err) -> err = None.
Proof.
  revert chunk s failed.
  induction fuel as [|fuel IH]; intros chunk s failed; [done|].
  destruct chunk as [|c chunk']; simpl.
  { destruct failed; congruence. }
  destruct (Ascii.eqb c "[").
  - destruct (if failed || String.eqb s "" then _ else _) as [r1 t1].
    destruct (classLoop fuel _ r1 false 0) as [[m1 c1]| |]; [apply IH|done|done].
  - destruct (Ascii.eqb c "?").
    + destruct (failed || String.eqb s ""); [apply IH|].
      destruct (utf8.DecodeRuneInString s). apply IH.
    + destruct (if Ascii.eqb c "\" then chunk' else String c chunk') as [|c0 chunk1]; [done|].
      destruct (failed || String.eqb s ""); [apply IH|]. destruct s; apply IH.
Qed.

(** A chunk that is well formed against one name is so against all. *)
Lemma matchChunk_no_error chunk s t ok s' :
  matchChunk chunk s = Some (t, ok, None) ->
  exists t' ok', matchChunk chunk s' = Some (t', ok', None).
Proof.
  intros H. pose proof (matchChunkLoop_indep (S (String.length chunk)) chunk s false s' false) as Hi.
  unfold matchChunk in *. rewrite H in Hi.
  destruct (matchChunkLoop _ chunk s' false) as [[[t' ok'] e']|]; [|done].
  simpl in Hi. subst e'. eauto.
Qed.

(** *** The error of [Match] is the syntax of the pattern *)

Lemma matchChunk_chunkBad chunk s t ok err :
  matchChunk chunk s = Some (t, ok, err) ->
  chunkBad chunk = match err with Some _ => true | None => false end.
Proof.
  intros H. unfold chunkBad.
  pose proof (matchChunkLoop_indep (S (String.length chunk)) chunk s false "" false) as Hi.
  unfold matchChunk in *. rewrite H in Hi.
  destruct (matchChunkLoop _ chunk "" false) as [[[t' ok'] e']|]; [|done].
  simpl in Hi. by subst e'.
Qed.

(** The one error of [matchChunk] is [ErrBadPattern], without a match. *)
Lemma matchChunkLoop_error fuel chunk s failed t ok e :
  matchChunkLoop fuel chunk s failed = Some (t, ok, Some e) ->
  ok = false /\ e = ErrBadPattern.
Proof.
  revert chunk s failed.
  induction fuel as [|fuel IH]; intros chunk s failed; [done|].
  destruct chunk as [|c chunk']; simpl.
  { destruct failed; congruence. }
  destruct (Ascii.eqb c "[").
  - destruct (if failed || String.eqb s "" then _ else _) as [r1 t1].
    destruct (classLoop fuel _ r1 false 0) as [[m1 c1]| |]; [apply IH| |done].
    by intros [= <- <- <-].
  - destruct (Ascii.eqb c "?").
    + destruct (failed || String.eqb s ""); [apply IH|].
      destruct (utf8.DecodeRuneInString s). apply IH.
    + destruct (if Ascii.eqb c "\" then chunk' else String c chunk') as [|c0 chunk1].
      { by intros [= <- <- <-]. }
      destruct (failed || String.eqb s ""); [apply IH|]. destruct s; apply IH.
Qed.

(** The last loop of [Match] reports whether a chunk is malformed. *)
Lemma checkLoop_patBad fuel pattern :
  String.length pattern < fuel ->
  checkLoop fuel pattern
  = Some (false, if patBadLoop fuel pattern then Some ErrBadPattern else None).
Proof.
  revert pattern. induction fuel as [|fuel IH]; intros pattern Hf; [lia|].
  simpl. destruct (String.eqb pattern "") eqn:Ep; [done|].
  destruct (scanChunk pattern) as [[star chunk] rest] eqn:Es.
  apply scanChunk_shorter in Es as [Hr Hnil]; [|by intros ->].
  destruct (star && String.eqb chunk "") eqn:Esc.
  { apply andb_true_iff in Esc as [_ ->%String.eqb_eq]. rewrite (Hnil eq_refl).
    destruct fuel; [lia|done]. }
  destruct (matchChunk_total chunk "") as [[[t ok] err] Em]. rewrite Em.
  rewrite (matchChunk_chunkBad _ _ _ _ _ Em).
  destruct err as [e|]; [|apply IH; lia].
  apply matchChunkLoop_error in Em as [_ ->]. done.
Qed.

Lemma starLoop_bad chunk pattern k unmatched name :
  (forall t, k t = Some (false, Some ErrBadPattern)) ->
  unmatched = Some (false, Some ErrBadPattern) ->
  starLoop chunk pattern k unmatched name = Some (false, Some ErrBadPattern).
Proof.
  intros Hk Hu. induction name as [|c name IH]; simpl; [done|].
  destruct (Ascii.eqb c Separator); [done|].
  destruct (matchChunk_total chunk name) as [[[t ok] err] Em]. rewrite Em.
  destruct ok; [by destruct (_ && _)|].
  destruct err as [e|]; [|done].
  by apply matchChunkLoop_error in Em as [_ ->].
Qed.

(** On a pattern with a malformed chunk [Match] reports [ErrBadPattern],
    whatever the name. *)
Lemma MatchLoop_bad fuel pattern name :
  String.length pattern < fuel ->
  patBadLoop fuel pattern = true ->
  MatchLoop fuel pattern name = Some (false, Some ErrBadPattern).
Proof.
  revert pattern name. induction fuel as [|fuel IH]; intros pattern name Hf; [lia|].
  simpl. destruct (String.eqb pattern "") eqn:Ep; [done|].
  destruct (scanChunk pattern) as [[star chunk] rest] eqn:Es.
  destruct (star && String.eqb chunk "") eqn:Esc; [done|].
  apply scanChunk_shorter in Es as [Hr _]; [|by intros ->].
  destruct (matchChunk_total chunk name) as [[[t ok] err] Em]. rewrite Em.
  rewrite (matchChunk_chunkBad _ _ _ _ _ Em).
  destruct err as [e|].
  { intros _. apply matchChunkLoop_error in Em as [-> ->]. done. }
  simpl. intros Hb.
  destruct (ok && _); [apply IH; [lia|done]|].
  assert (checkLoop fuel rest = Some (false, Some ErrBadPattern)) as Hu.
  { rewrite checkLoop_patBad by lia. by rewrite Hb. }
  destruct star; [|done].
  apply starLoop_bad; [|done]. intros t'. apply IH; [lia|done].
Qed.

Lemma starLoop_good chunk pattern k unmatched name r :
  chunkBad chunk = false ->
  (forall t r, k t = Some r -> snd r = None) ->
  (forall r, unmatched = Some r -> snd r = None) ->
  starLoop chunk pattern k unmatched name = Some r -> snd r = None.
Proof.
  intros Hc Hk Hu. induction name as [|c name IH]; simpl; [apply Hu|].
  destruct (Ascii.eqb c Separator); [apply Hu|].
  destruct (matchChunk chunk name) as [[[t ok] err]|] eqn:Em; [|done].
  apply matchChunk_chunkBad in Em. rewrite Hc in Em.
  destruct err; [done|].
  destruct ok; [|done].
  destruct (_ && _); [done|]. apply Hk.
Qed.

(** On a pattern without one it reports no error. *)
Lemma MatchLoop_good fuel pattern name r :
  String.length pattern < fuel ->
  patBadLoop fuel pattern = false ->
  MatchLoop fuel pattern name = Some r -> snd r = None.
Proof.
  revert pattern name r. induction fuel as [|fuel IH]; intros pattern name r Hf; [lia|].
  simpl. destruct (String.eqb pattern "") eqn:Ep; [by intros _ [= <-]|].
  destruct (scanChunk pattern) as [[star chunk] rest] eqn:Es.
  destruct (star && String.eqb chunk "") eqn:Esc; [by intros _ [= <-]|].
  apply scanChunk_shorter in Es as [Hr _]; [|by intros ->].
  intros [Hc Hb]%orb_false_iff.
  destruct (matchChunk chunk name) as [[[t ok] err]|] eqn:Em; [|done].
  apply matchChunk_chunkBad in Em. rewrite Hc in Em.
  destruct err; [done|].
  destruct (ok && _); [apply IH; [lia|done]|].
  assert (forall r, checkLoop fuel rest = Some r -> snd r = None) as Hu.
  { intros r'. rewrite checkLoop_patBad by lia. rewrite Hb. by intros [= <-]. }
  destruct star; [|apply Hu].
  eapply starLoop_good; [done| |done]. intros t' r'. apply IH; [lia|done].
Qed.

(** [Match] reports [ErrBadPattern] exactly for the patterns with a
    malformed chunk, on every name, and matches none of them. *)
Lemma patBad_Match pattern name :
  patBad pattern = true -> Match pattern name = (false, Some ErrBadPattern).
Proof.
  intros Hb. pose proof (Match_total pattern name) as Ht.
  rewrite (MatchLoop_bad _ _ _ (Nat.lt_succ_diag_r _) Hb) in Ht. congruence.
Qed.

Lemma patBad_false_Match pattern name :
  patBad pattern = false -> snd (Match pattern name) = None.
Proof.
  intros Hb. pose proof (Match_total pattern name) as Ht.
  eapply MatchLoop_good; [|exact Hb|exact Ht]. lia.
Qed.

Lemma badSyntax_patBad pattern : badSyntax pattern -> patBad pattern = true.
Proof.
  intros [name H]. destruct (patBad pattern) eqn:E; [done|].
  by rewrite (patBad_false_Match _ name E) in H.
Qed.

Lemma patBad_badSyntax pattern : patBad pattern = true -> badSyntax pattern.
Proof. intros H. exists ""%string. by rewrite patBad_Match. Qed.

Lemma patBad_never_matches pattern name :
  patBad pattern = true -> fst (Match pattern name) = false.
Proof. intros H. by rewrite patBad_Match. Qed.

(** So a pattern with a syntax error matches no name at all. *)
Lemma badSyntax_never_matches pattern name :
  badSyntax pattern -> fst (Match pattern name) = false.
Proof. intros H. by apply patBad_never_matches, badSyntax_patBad. Qed.

(** A pattern that matches some name reports no error on any name. *)
Lemma Match_true_no_error pattern name name' :
  fst (Match pattern name) = true -> snd (Match pattern name') = None.
Proof.
  intros H. apply patBad_false_Match.
  destruct (patBad pattern) eqn:E; [|done].
  by rewrite patBad_never_matches in H.
Qed.

(** [Match] never reports an error together with a match. *)
Lemma Match_error_unmatched pattern name :
  snd (Match pattern name) <> None -> fst (Match pattern name) = false.
Proof.
  intros H. destruct (fst (Match pattern name)) eqn:E; [|done].
  by rewrite (Match_true_no_error _ _ name E) in H.
Qed.

End glob_facts.

(** ** The syntax of a pattern survives the strips of [matchPattern] *)

Section syntax_facts.

Import filepath.
Local Open Scope nat_scope.
Local Arguments String.append !_ _ / : simpl nomatch.

(** The budget of [patBadLoop] does not matter once it is enough. *)
Lemma patBadLoop_fuel fuel fuel' pattern :
  String.length pattern < fuel -> String.length pattern < fuel' ->
  patBadLoop fuel pattern = patBadLoop fuel' pattern.
Proof.
  revert fuel' pattern. induction fuel as [|fuel IH]; intros fuel' pattern Hf Hf'; [lia|].
  destruct fuel' as [|fuel']; [lia|]. simpl.
  destruct (String.eqb pattern "") eqn:Ep; [done|].
  destruct (scanChunk pattern) as [[star chunk] rest] eqn:Es.
  destruct (star && String.eqb chunk "") eqn:Esc; [done|].
  assert (String.length rest < String.length pattern) as Hr.
  { eapply scanChunk_length; [|done..]. by intros ->. }
  f_equal. apply IH; lia.
Qed.

(** *** A leading separator, a leading ["**/"] *)

Lemma scanLoop_shift pattern :
  (forall inrange k, scanLoop pattern inrange (S k) = S (scanLoop pattern inrange k))
  /\ (forall c inrange k,
        scanLoop (String c pattern) inrange (S k) = S (scanLoop (String c pattern) inrange k)).
Proof.
  induction pattern as [|c' pattern [IH1 IH2]].
  - split; [done|]. intros c inrange k. simpl. by repeat case_match.
  - split; [apply IH2|]. intros c inrange k.
    change (scanLoop (String c (String c' pattern)) inrange ?i) with
      (if Ascii.eqb c "\" then scanLoop pattern inrange (S (S i))
       else if Ascii.eqb c "[" then scanLoop (String c' pattern) true (S i)
       else if Ascii.eqb c "]" then scanLoop (String c' pattern) false (S i)
       else if Ascii.eqb c "*" then
         if inrange then scanLoop (String c' pattern) inrange (S i) else i
       else scanLoop (String c' pattern) inrange (S i)).
    rewrite !IH1, !IH2. by repeat case_match.
Qed.

Lemma chunkBad_separator chunk : chunkBad (String "/" chunk) = chunkBad chunk.
Proof.
  unfold chunkBad, matchChunk.
  change (matchChunkLoop (S (String.length (String "/" chunk))) (String "/" chunk) "" false)
    with (matchChunkLoop (S (String.length chunk)) chunk "" true).
  pose proof (matchChunkLoop_indep (S (String.length chunk)) chunk "" true "" false) as Hi.
  destruct (matchChunkLoop _ chunk "" true) as [[[t ok] e]|],
           (matchChunkLoop _ chunk "" false) as [[[t' ok'] e']|]; try done.
  simpl in Hi. by subst.
Qed.

Lemma chunkBad_nil : chunkBad "" = false.
Proof. done. Qed.

Lemma scanChunk_no_star pattern :
  strings.startsWith pattern "*" = false ->
  scanChunk pattern
  = (false, strings.take (scanLoop pattern false 0) pattern,
     strings.drop (scanLoop pattern false 0) pattern).
Proof.
  intros H. unfold scanChunk.
  assert (skipStars pattern = (false, pattern)) as ->; [|done].
  destruct pattern as [|c pattern]; [done|]. simpl in *. by rewrite H.
Qed.

Lemma patBadLoop_S fuel pattern :
  patBadLoop (S fuel) pattern
  = if String.eqb pattern "" then false
    else
      let '(star, chunk, pattern) := scanChunk pattern in
      if star && String.eqb chunk "" then false
      else chunkBad chunk || patBadLoop fuel pattern.
Proof. done. Qed.

(** The chunks of a pattern after a leading separator are those of the
    pattern, the first one with the separator in front. *)
Lemma patBadLoop_separator fuel s :
  String.length s < fuel ->
  patBadLoop (S fuel) (String "/" s) = patBadLoop fuel s.
Proof.
  intros Hf. rewrite patBadLoop_S.
  change (String.eqb (String "/" s) "") with false. cbv iota.
  rewrite scanChunk_no_star by done.
  change (scanLoop (String "/" s) false 0) with (scanLoop s false 1).
  rewrite (proj1 (scanLoop_shift s)).
  cbn [strings.take strings.drop andb]. rewrite chunkBad_separator.
  change (String.eqb (String "/" _) "") with false. cbv iota.
  destruct fuel as [|fuel]; [lia|].
  destruct s as [|c s]; [done|].
  destruct (Ascii.eqb c "*") eqn:Ec.
  - (* the separator is a chunk of its own *)
    apply Ascii.eqb_eq in Ec as ->.
    change (scanLoop (String "*" s) false 0) with 0.
    cbn [strings.take strings.drop]. by rewrite chunkBad_nil, orb_false_l.
  - rewrite (patBadLoop_S fuel (String c s)).
    change (String.eqb (String c s) "") with false. cbv iota.
    rewrite scanChunk_no_star by done. cbn [andb].
    f_equal.
    apply patBadLoop_fuel; rewrite length_drop; [simpl in *; lia|].
    destruct (scanLoop (String c s) false 0) eqn:El; [|simpl in *; lia].
    apply scanLoop_zero in El. congruence.
Qed.

Lemma patBad_separator s : patBad (String "/" s) = patBad s.
Proof. unfold patBad. apply patBadLoop_separator. simpl. lia. Qed.

Lemma patBad_double_star s : patBad ("**/" +:+ s) = patBad s.
Proof.
  transitivity (patBad (String "/" s)); [|apply patBad_separator].
  unfold patBad.
  change ("**/" +:+ s) with (String "*" (String "*" (String "/" s))).
  rewrite !patBadLoop_S.
  change (String.eqb (String "*" _) "") with false.
  change (String.eqb (String "/" _) "") with false. cbv iota.
  assert (scanChunk (String "*" (String "*" (String "/" s)))
          = (true, strings.take (scanLoop (String "/" s) false 0) (String "/" s),
             strings.drop (scanLoop (String "/" s) false 0) (String "/" s))) as ->.
  { unfold scanChunk. done. }
  rewrite scanChunk_no_star by done.
  change (scanLoop (String "/" s) false 0) with (scanLoop s false 1).
  rewrite (proj1 (scanLoop_shift s)). cbn [strings.take strings.drop andb].
  change (String.eqb (String "/" _) "") with false. cbv iota. f_equal.
  apply patBadLoop_fuel; rewrite length_drop; simpl; lia.
Qed.

(** *** A trailing separator *)

Lemma drop_app_le n s t :
  n <= String.length s -> strings.drop n (s +:+ t) = strings.drop n s +:+ t.
Proof.
  revert s; induction n as [|n IH]; intros [|c s]; simpl; try done; try lia.
  intros H. apply IH. lia.
Qed.

Lemma take_app_le n s t :
  n <= String.length s -> strings.take n (s +:+ t) = strings.take n s.
Proof.
  revert s; induction n as [|n IH]; intros [|c s]; simpl; try done; try lia.
  intros H. rewrite IH; [done|lia].
Qed.

Lemma drop_nil_length n s : strings.drop n s = ""%string -> String.length s <= n.
Proof. intros H. pose proof (length_drop n s) as Hl. rewrite H in Hl. simpl in Hl. lia. Qed.

Lemma drop_ge n s : String.length s <= n -> strings.drop n s = ""%string.
Proof.
  intros H. pose proof (length_drop n s) as Hl.
  destruct (strings.drop n s); [done|]. simpl in Hl. lia.
Qed.

Lemma take_ge n s : String.length s <= n -> strings.take n s = s.
Proof.
  intros H. rewrite <- (take_drop n s) at 2. by rewrite (drop_ge n s), append_nil_r.
Qed.

(** A rune that decodes from a string decodes from any extension of it. *)
Lemma DecodeRuneInString_append s t r n :
  s <> ""%string ->
  utf8.DecodeRuneInString s = (r, n) ->
  (r =? utf8.RuneError)%Z && (n =? 1) = false ->
  utf8.DecodeRuneInString (s +:+ t) = (r, n).
Proof.
  assert (forall r n, (utf8.RuneError, 1) = (r, n) ->
                      (r =? utf8.RuneError)%Z && (n =? 1) = false -> False) as Hbad.
  { by intros ?? [= <- <-]. }
  destruct s as [|c0 s]; [done|]. intros _.
  unfold utf8.DecodeRuneInString. cbn [String.append]. cbv zeta.
  destruct (utf8.as_ <=? utf8.first (utf8.byte c0))%Z; [done|].
  destruct (utf8.acceptRanges _) as [lo hi].
  set (sz := Z.to_nat _).
  destruct (Nat.ltb_spec (String.length (String c0 s)) sz) as [Hl|Hl];
    [intros H Hv; by destruct (Hbad _ _ H Hv)|].
  destruct (Nat.ltb_spec (String.length (String c0 (s +:+ t))) sz) as [Hl'|_].
  { simpl in Hl, Hl'. rewrite length_append in Hl'. lia. }
  destruct s as [|c1 s]; [intros H Hv; by destruct (Hbad _ _ H Hv)|].
  cbn [String.append].
  destruct (_ || _); [intros H Hv; by destruct (Hbad _ _ H Hv)|].
  destruct (sz <=? 2); [done|].
  destruct s as [|c2 s]; [intros H Hv; by destruct (Hbad _ _ H Hv)|].
  cbn [String.append].
  destruct (_ || _); [intros H Hv; by destruct (Hbad _ _ H Hv)|].
  destruct (sz <=? 3); [done|].
  destruct s as [|c3 s]; [intros H Hv; by destruct (Hbad _ _ H Hv)|].
  done.
Qed.

Lemma startsWith_append s t c :
  s <> ""%string -> strings.startsWith (s +:+ t) c = strings.startsWith s c.
Proof. by destruct s. Qed.

Lemma tail_append s t :
  s <> ""%string -> strings.tail (s +:+ t) = strings.tail s +:+ t.
Proof. by destruct s. Qed.

Lemma getEsc_append chunk t r nchunk :
  getEsc chunk = Some (r, nchunk) ->
  nchunk <> ""%string /\ getEsc (chunk +:+ t) = Some (r, nchunk +:+ t).
Proof.
  unfold getEsc. destruct chunk as [|c chunk]; [done|]. cbn [String.append].
  destruct (_ || _); [done|].
  assert ((if Ascii.eqb c "\" then chunk +:+ t else String c (chunk +:+ t))
          = (if Ascii.eqb c "\" then chunk else String c chunk) +:+ t) as ->.
  { by destruct (Ascii.eqb c "\"). }
  set (chunk0 := if Ascii.eqb c "\" then chunk else String c chunk).
  destruct (String.eqb chunk0 "") eqn:E0; [done|].
  apply String.eqb_neq in E0.
  destruct (utf8.DecodeRuneInString chunk0) as [r0 n] eqn:Ed.
  destruct ((r0 =? utf8.RuneError)%Z && (n =? 1)) eqn:Ev; [done|].
  destruct (String.eqb (strings.drop n chunk0) "") eqn:En; [done|].
  apply String.eqb_neq in En. intros [= <- <-]. split; [done|].
  destruct (String.eqb (chunk0 +:+ t) "") eqn:E0'.
  { apply String.eqb_eq in E0'. by destruct chunk0. }
  rewrite (DecodeRuneInString_append _ t _ _ E0 Ed Ev), Ev.
  assert (n <= String.length chunk0) as Hn.
  { destruct (Nat.le_gt_cases n (String.length chunk0)) as [|Hgt]; [done|].
    destruct En. apply drop_ge. lia. }
  rewrite drop_app_le by done.
  destruct (String.eqb (strings.drop n chunk0 +:+ t) "") eqn:En'; [|done].
  apply String.eqb_eq in En'. by destruct (strings.drop n chunk0).
Qed.

Lemma classLoop_append fuel chunk t r m nrange m' rest :
  classLoop fuel chunk r m nrange = Ret (m', rest) ->
  classLoop fuel (chunk +:+ t) r m nrange = Ret (m', rest +:+ t).
Proof.
  revert chunk m nrange. induction fuel as [|fuel IH]; intros chunk m nrange; [done|].
  cbn [classLoop].
  destruct chunk as [|c chunk]; [done|].
  rewrite startsWith_append, tail_append by done.
  destruct (_ && _); [by intros [= <- <-]|].
  destruct (getEsc (String c chunk)) as [[lo chunk1]|] eqn:Elo; [|done].
  apply (getEsc_append _ t) in Elo as [Hne ->].
  rewrite startsWith_append by done.
  destruct (strings.startsWith chunk1 "-").
  - rewrite tail_append by done.
    destruct (getEsc (strings.tail chunk1)) as [[hi chunk2]|] eqn:Ehi; [|done].
    apply (getEsc_append _ t) in Ehi as [_ ->]. apply IH.
  - apply IH.
Qed.

Lemma classLoop_mono fuel chunk r m nrange x :
  classLoop fuel chunk r m nrange = Ret x ->
  classLoop (S fuel) chunk r m nrange = Ret x.
Proof.
  revert chunk m nrange. induction fuel as [|fuel IH]; intros chunk m nrange; [done|].
  intros H. cbn [classLoop] in H. remember (S fuel) as fuel1 eqn:Ef.
  cbn [classLoop]. subst fuel1.
  destruct (_ && _); [done|].
  destruct (getEsc chunk) as [[lo chunk1]|]; [|done].
  destruct (if strings.startsWith chunk1 "-" then _ else _) as [[hi chunk2]|]; [|done].
  by apply IH.
Qed.

(** A well-formed chunk followed by a separator is well-formed. *)
Lemma matchChunkLoop_append fuel chunk t ok :
  matchChunkLoop fuel chunk "" true = Some (t, ok, None) ->
  exists t' ok', matchChunkLoop (S fuel) (chunk +:+ "/") "" true = Some (t', ok', None).
Proof.
  revert chunk. induction fuel as [|fuel IH]; intros chunk; [done|].
  destruct chunk as [|c chunk].
  { intros _. destruct fuel; [|by eexists _, _]. by eexists _, _. }
  intros H. cbn [matchChunkLoop orb] in H.
  remember (S fuel) as fuel1 eqn:Ef.
  cbn [matchChunkLoop orb String.append]. subst fuel1.
  destruct (Ascii.eqb c "[").
  - destruct chunk as [|c1 chunk]; [by destruct fuel|].
    rewrite startsWith_append by done.
    set (chunk0 := if strings.startsWith (String c1 chunk) "^"
                   then strings.tail (String c1 chunk) else String c1 chunk) in *.
    assert ((if strings.startsWith (String c1 chunk) "^"
             then strings.tail (String c1 chunk +:+ "/") else String c1 chunk +:+ "/")
            = chunk0 +:+ "/") as ->.
    { unfold chunk0. by destruct (strings.startsWith _ "^"). }
    destruct (classLoop fuel chunk0 0 false 0) as [[m rest]| |] eqn:Ec; [|done|done].
    apply (classLoop_append _ _ "/"), classLoop_mono in Ec. rewrite Ec.
    by apply IH.
  - destruct (Ascii.eqb c "?"); [by apply IH|].
    destruct (Ascii.eqb c "\").
    + destruct chunk as [|c0 chunk1]; [done|]. by apply IH.
    + by apply IH.
Qed.

Lemma chunkBad_append chunk :
  chunkBad chunk = false -> chunkBad (chunk +:+ "/") = false.
Proof.
  unfold chunkBad, matchChunk. rewrite length_append, Nat.add_1_r.
  pose proof (matchChunkLoop_indep (S (String.length chunk)) chunk "" false "" true) as H1.
  pose proof (matchChunkLoop_indep (S (S (String.length chunk))) (chunk +:+ "/")
                "" false "" true) as H2.
  destruct (matchChunkLoop _ chunk "" false) as [[[t ok] e]|] eqn:E1.
  2:{ destruct (matchChunkLoop_fuel (S (String.length chunk)) chunk "" false) as [? ?];
        [lia|congruence]. }
  intros He. assert (e = None) as -> by (by destruct e).
  destruct (matchChunkLoop _ chunk "" true) as [[[t1 ok1] e1]|] eqn:E1'; [|done].
  simpl in H1. subst e1.
  apply matchChunkLoop_append in E1' as (t' & ok' & E2). rewrite E2 in H2.
  destruct (matchChunkLoop _ (chunk +:+ "/") "" false) as [[[t2 ok2] e2]|]; [|done].
  simpl in H2. by subst e2.
Qed.

Ltac ltb_lia :=
  repeat case_match;
  repeat match goal with
    | H : (_ <? _) = true |- _ => apply Nat.ltb_lt in H
    | H : (_ <? _) = false |- _ => apply Nat.ltb_ge in H
    end;
  lia.

Lemma scanLoop_append pattern :
  (forall inrange k,
      scanLoop (pattern +:+ "/") inrange k
      = if scanLoop pattern inrange k <? k + String.length pattern
        then scanLoop pattern inrange k else S (k + String.length pattern))
  /\ (forall c inrange k,
        scanLoop (String c pattern +:+ "/") inrange k
        = if scanLoop (String c pattern) inrange k <? k + S (String.length pattern)
          then scanLoop (String c pattern) inrange k else S (k + S (String.length pattern))).
Proof.
  induction pattern as [|c' pattern [IH1 IH2]].
  - split.
    + intros inrange k. simpl. destruct (Nat.ltb_spec k (k + 0)); lia.
    + intros c inrange k. simpl.
      ltb_lia.
  - split; [apply IH2|]. intros c inrange k.
    change (scanLoop (String c (String c' pattern)) inrange k) with
      (if Ascii.eqb c "\" then scanLoop pattern inrange (S (S k))
       else if Ascii.eqb c "[" then scanLoop (String c' pattern) true (S k)
       else if Ascii.eqb c "]" then scanLoop (String c' pattern) false (S k)
       else if Ascii.eqb c "*" then
         if inrange then scanLoop (String c' pattern) inrange (S k) else k
       else scanLoop (String c' pattern) inrange (S k)).
    change (scanLoop (String c (String c' pattern) +:+ "/") inrange k) with
      (if Ascii.eqb c "\" then scanLoop (pattern +:+ "/") inrange (S (S k))
       else if Ascii.eqb c "[" then scanLoop (String c' pattern +:+ "/") true (S k)
       else if Ascii.eqb c "]" then scanLoop (String c' pattern +:+ "/") false (S k)
       else if Ascii.eqb c "*" then
         if inrange then scanLoop (String c' pattern +:+ "/") inrange (S k) else k
       else scanLoop (String c' pattern +:+ "/") inrange (S k)).
    rewrite !IH1, !IH2. cbn [String.length].
    ltb_lia.
Qed.

Lemma skipStars_append pattern :
  skipStars (pattern +:+ "/")
  = (fst (skipStars pattern), snd (skipStars pattern) +:+ "/").
Proof.
  induction pattern as [|c pattern IH]; [done|]. cbn [String.append skipStars].
  rewrite IH. by destruct (Ascii.eqb c "*").
Qed.

(** The chunks of a pattern followed by a separator are those of the
    pattern, the last one with the separator behind. *)
Lemma scanChunk_append pattern star chunk rest :
  scanChunk pattern = (star, chunk, rest) ->
  scanChunk (pattern +:+ "/")
  = if String.eqb rest "" then (star, chunk +:+ "/", ""%string)
    else (star, chunk, rest +:+ "/").
Proof.
  unfold scanChunk. rewrite skipStars_append.
  destruct (skipStars pattern) as [star0 p]. cbn [fst snd].
  intros [= <- <- <-]. rewrite (proj1 (scanLoop_append p)). cbn [Nat.add].
  pose proof (proj1 (scanLoop_le p) false 0) as Hle. cbn [Nat.add] in Hle.
  destruct (Nat.ltb_spec (scanLoop p false 0) (String.length p)) as [Hlt|Hge].
  - destruct (String.eqb_spec (strings.drop (scanLoop p false 0) p) "") as [E|_].
    { apply drop_nil_length in E. lia. }
    by rewrite take_app_le, drop_app_le by lia.
  - assert (scanLoop p false 0 = String.length p) as -> by lia.
    rewrite (drop_ge _ p) by lia. cbn [String.eqb].
    rewrite (take_ge _ p) by lia.
    by rewrite take_ge, drop_ge by (rewrite length_append; simpl; lia).
Qed.

Lemma patBadLoop_append fuel pattern :
  String.length pattern < fuel ->
  patBadLoop fuel pattern = false ->
  patBadLoop (S fuel) (pattern +:+ "/") = false.
Proof.
  revert pattern. induction fuel as [|fuel IH]; intros pattern Hf; [lia|].
  rewrite (patBadLoop_S (S fuel)), (patBadLoop_S fuel).
  destruct (String.eqb_spec pattern "") as [->|Hne].
  { intros _. by destruct fuel. }
  destruct (String.eqb_spec (pattern +:+ "/") "") as [|_]; [done|].
  destruct (scanChunk pattern) as [[star chunk] rest] eqn:Es.
  rewrite (scanChunk_append _ _ _ _ Es).
  destruct (star && String.eqb chunk "") eqn:E.
  - (* a trailing star *)
    intros _. apply andb_true_iff in E as [-> ->%String.eqb_eq].
    assert (rest = ""%string) as ->.
    { unfold scanChunk in Es. pose proof (skipStars_spec pattern) as (_ & _ & _ & Hs).
      destruct (skipStars pattern) as [star0 p]. cbn [snd] in Hs.
      injection Es as _ Ht Hd.
      destruct p as [|c p]; [by rewrite <- Hd; destruct (scanLoop _ _ _)|].
      destruct (scanLoop (String c p) false 0) eqn:El; [|done].
      apply scanLoop_zero in El. simpl in Hs. congruence. }
    cbn. by destruct fuel.
  - pose proof (scanChunk_length _ _ _ _ Hne Es E) as Hl.
    intros [Hc Hr]%orb_false_iff.
    destruct (String.eqb_spec rest "") as [->|_].
    + rewrite chunkBad_append, patBadLoop_S by done.
      by destruct (star && String.eqb (chunk +:+ "/") "").
    + rewrite E, Hc. cbn [orb]. apply IH; [lia|done].
Qed.

Lemma patBad_append pattern :
  patBad (pattern +:+ "/") = true -> patBad pattern = true.
Proof.
  intros H. destruct (patBad pattern) eqn:E; [done|].
  unfold patBad in *. rewrite length_append, Nat.add_1_r in H.
  rewrite patBadLoop_append in H; [done|lia|done].
Qed.

(** A malformed pattern hands a malformed glob to [Match]. *)
Lemma patBad_globOf pattern : patBad pattern = true -> patBad (globOf pattern) = true.
Proof.
  intros H. unfold globOf. rewrite ToSlash_id. cbv zeta.
  assert (patBad (strings.TrimSuffix pattern "/") = true) as H1.
  { unfold strings.TrimSuffix. destruct (strings.HasSuffix pattern "/") eqn:E; [|done].
    apply HasSuffix_true in E as [q ->]. rewrite length_append.
    replace (String.length q + String.length "/" - String.length "/") with (String.length q) by lia.
    rewrite take_append. by apply patBad_append. }
  set (p1 := strings.TrimSuffix pattern "/") in *.
  destruct (strings.HasPrefix p1 "**/") eqn:E2.
  { apply HasPrefix_true in E2 as [q E2]. rewrite E2 in *.
    rewrite TrimPrefix_append. by rewrite patBad_double_star in H1. }
  destruct (negb _); [done|].
  unfold strings.TrimPrefix. destruct (strings.HasPrefix p1 "/") eqn:E3; [|done].
  apply HasPrefix_true in E3 as [q E3]. rewrite E3 in *.
  rewrite drop_append. by rewrite <- patBad_separator.
Qed.

End syntax_facts.

(** ** Patterns with a syntax error *)

Lemma matchAnySuffix_true suffix parts :
  matchAnySuffix suffix parts = true ->
  exists name, fst (filepath.Match suffix name) = true.
Proof.
  induction parts as [|part parts IH]; [done|]. cbn [matchAnySuffix].
  destruct (fst (filepath.Match suffix (strings.Join (part :: parts) "/"))) eqn:E1; [eauto|].
  destruct (fst (filepath.Match suffix part)) eqn:E2; eauto.
Qed.

Lemma matchPattern_true_globOf relPath pattern isDir :
  matchPattern relPath pattern isDir = true ->
  exists name, fst (filepath.Match (globOf pattern) name) = true.
Proof.
  rewrite matchPattern_unfold. unfold globOf. rewrite ToSlash_id. cbv zeta.
  intros [_ H]%andb_true_iff.
  destruct (strings.HasPrefix _ "**/"); [by eapply matchAnySuffix_true|].
  destruct (negb _); [|eauto].
  apply orb_true_iff in H as [H|H]; [eauto|].
  apply matchAnyPart_true in H as (part & _ & H). eauto.
Qed.

Lemma shouldExcludeLoop_app relPath before after isDir :
  shouldExcludeLoop relPath (before ++ after) isDir
  = shouldExcludeLoop relPath before isDir || shouldExcludeLoop relPath after isDir.
Proof.
  induction before as [|p before IH]; simpl; [done|].
  by destruct (matchPattern relPath p isDir).
Qed.

(** [Match] on malformed patterns: an unclosed class after a chunk that
    has matched, after one that has not, and after a star. *)
Example Match_malformed_patterns :
  filepath.Match "a*[" "b" = (false, Some ErrBadPattern)
  /\ filepath.Match "a*[" "a" = (false, Some ErrBadPattern)
  /\ filepath.Match "[b-a]*[" "x" = (false, Some ErrBadPattern)
  /\ filepath.Match "a[" "x" = (false, Some ErrBadPattern)
  /\ filepath.Match "a/b[" "x" = (false, Some ErrBadPattern)
  /\ filepath.Match "[x-]" "z" = (false, Some ErrBadPattern)
  /\ filepath.Match "\" "a" = (false, Some ErrBadPattern)
  /\ filepath.Match "[b-a]" "x" = (false, None)
  /\ filepath.Match "*x" "xxx" = (true, None).
Proof. vm_compute. repeat split. Qed.

(** C9. [filepath.Match] always returns, and an error it reports comes with
    [matched = false]; [matchPattern] keeps [matched] alone.  [Match]
    reports [ErrBadPattern] exactly for the patterns with a malformed
    chunk, and for those on every name.  So a pattern with a syntax error
    matches no path, and [shouldExclude] over a list containing it is
    [shouldExclude] over the list without it.  The syntax error may be that
    of the pattern as written or that of the glob [matchPattern] hands to
    [Match]: the strips of [matchPattern] keep a malformed pattern
    malformed.  The unclosed class ["["] is such a pattern. *)
Theorem C9_bad_pattern_matches_nothing :
  (forall pattern name,
      filepath.MatchLoop (S (String.length pattern)) pattern name
      = Some (filepath.Match pattern name)
      /\ (snd (filepath.Match pattern name) <> None ->
          fst (filepath.Match pattern name) = false))
  /\ (forall pattern,
        (filepath.badSyntax pattern <-> filepath.patBad pattern = true)
        /\ (filepath.badSyntax pattern ->
            forall name, filepath.Match pattern name = (false, Some ErrBadPattern))
        /\ (~ filepath.badSyntax pattern ->
            forall name, snd (filepath.Match pattern name) = None))
  /\ (forall (relPath pattern : string) (isDir : bool),
        filepath.badSyntax pattern \/ filepath.badSyntax (globOf pattern) ->
        matchPattern relPath pattern isDir = false
        /\ forall before after,
            shouldExclude relPath (before ++ pattern :: after) isDir
            = shouldExclude relPath (before ++ after) isDir)
  /\ (globOf "[" = "["%string
      /\ forall name, filepath.Match "[" name = (false, Some ErrBadPattern)).
Proof.
  split; [|split; [|split]].
  - intros pattern name. split; [apply Match_total | apply Match_error_unmatched].
  - intros pattern. split; [|split].
    + split; [apply badSyntax_patBad | apply patBad_badSyntax].
    + intros Hbad%badSyntax_patBad name. by apply patBad_Match.
    + intros Hgood name. apply patBad_false_Match.
      destruct (filepath.patBad pattern) eqn:E; [|done].
      by apply patBad_badSyntax in E.
  - intros relPath pattern isDir Hbad.
    assert (matchPattern relPath pattern isDir = false) as Hm.
    { assert (filepath.patBad (globOf pattern) = true) as Hg.
      { destruct Hbad as [Hbad|Hbad]; [|by apply badSyntax_patBad].
        by apply patBad_globOf, badSyntax_patBad. }
      destruct (matchPattern relPath pattern isDir) eqn:E; [|done].
      apply matchPattern_true_globOf in E as [name E].
      by rewrite patBad_never_matches in E. }
    split; [done|]. intros before after. unfold shouldExclude.
    rewrite !shouldExcludeLoop_app. simpl. by rewrite ToSlash_id, Hm.
  - split; [reflexivity|]. intros name. by apply patBad_Match.
Qed.

Lemma C9_bad_pattern_matches_nothing_witness :
  matchPattern "src/main.go" "[b-a]*[" false = false
  /\ shouldExclude "src/main.go" ([".git"] ++ "[b-a]*[" :: ["*.go"]) false
     = shouldExclude "src/main.go" ([".git"] ++ ["*.go"]) false.
Proof.
  assert (filepath.badSyntax "[b-a]*[" \/ filepath.badSyntax (globOf "[b-a]*[")) as Hbad.
  { left. exists "x"%string. vm_compute. reflexivity. }
  destruct (proj1 (proj2 (proj2 C9_bad_pattern_matches_nothing))
              "src/main.go"%string "[b-a]*["%string false Hbad)
    as [H1 H2].
  split; [exact H1 | exact (H2 [".git"%string] ["*.go"%string])].
Defined.

(** ** The tree: entries, paths and the calls that change them *)

(** Distinct names of a concrete directory. *)
Ltac solve_NoDup :=
  repeat (apply NoDup_cons; split;
          [ let H := fresh in
            intros H;
            repeat (apply elem_of_cons in H as [H|H]; [discriminate H|]);
            by apply elem_of_nil in H
          | ]);
  apply NoDup_nil_2.

Section tree_facts.

Import os.
Implicit Types (d : node) (fs : root) (p q r : path) (name : string)
  (entries : list (string * node)).

(** Induction on a tree, with the hypothesis on every entry of a
    directory. *)
Lemma node_induction (P : node -> Prop) :
  (forall data modTime mode, P (File data modTime mode)) ->
  (forall size modTime mode entries,
      Forall (fun e => P (snd e)) entries -> P (Dir size modTime mode entries)) ->
  forall d, P d.
Proof.
  intros HF HD. fix IH 1. intros [data modTime mode|size modTime mode entries].
  - apply HF.
  - apply HD. induction entries as [|[name d] entries IHe]; constructor; [apply IH | apply IHe].
Qed.

Lemma eqb_decide (s t : string) : String.eqb s t = bool_decide (s = t).
Proof.
  destruct (String.eqb_spec s t); [by rewrite bool_decide_eq_true_2 | by rewrite bool_decide_eq_false_2].
Qed.

Lemma lookupEntry_setEntry name name' d entries :
  lookupEntry name' (setEntry name d entries)
  = if decide (name = name') then Some d else lookupEntry name' entries.
Proof.
  induction entries as [|[n d0] entries IH]; simpl.
  - rewrite eqb_decide. by repeat case_decide; try case_bool_decide.
  - rewrite !eqb_decide. case_bool_decide; simpl; rewrite ?eqb_decide.
    + subst n. by repeat case_decide; try case_bool_decide.
    + rewrite IH. case_bool_decide; [|done]. subst n. by case_decide.
Qed.

Lemma lookupEntry_removeEntry name name' entries :
  lookupEntry name' (removeEntry name entries)
  = if decide (name = name') then None else lookupEntry name' entries.
Proof.
  induction entries as [|[n d0] entries IH]; simpl.
  - by case_decide.
  - rewrite !eqb_decide. case_bool_decide; simpl; rewrite ?eqb_decide.
    + subst n. rewrite IH. case_decide; [done|]. by rewrite bool_decide_eq_false_2.
    + rewrite IH. case_bool_decide; [|done]. subst n. by case_decide.
Qed.

Lemma lookupEntry_putEntry name name' (o : option node) entries :
  lookupEntry name' (putEntry name o entries)
  = if decide (name = name') then o else lookupEntry name' entries.
Proof.
  destruct o; simpl; [apply lookupEntry_setEntry | apply lookupEntry_removeEntry].
Qed.

Lemma setEntry_same name d entries :
  lookupEntry name entries = Some d -> setEntry name d entries = entries.
Proof.
  induction entries as [|[n d0] entries IH]; simpl; [done|].
  rewrite eqb_decide. case_bool_decide; [by intros [= ->]; subst|].
  intros Hl. by rewrite IH.
Qed.

Lemma removeEntry_absent name entries :
  lookupEntry name entries = None -> removeEntry name entries = entries.
Proof.
  induction entries as [|[n d0] entries IH]; simpl; [done|].
  rewrite eqb_decide. case_bool_decide; [done|].
  intros Hl. by rewrite IH.
Qed.

Lemma putEntry_same name entries :
  putEntry name (lookupEntry name entries) entries = entries.
Proof.
  destruct (lookupEntry name entries) eqn:E; simpl;
    [by apply setEntry_same | by apply removeEntry_absent].
Qed.

Lemma lookupEntry_Some name d entries :
  lookupEntry name entries = Some d -> (name, d) ∈ entries.
Proof.
  induction entries as [|[n d0] entries IH]; simpl; [done|].
  rewrite eqb_decide. case_bool_decide.
  - intros [= ->]. subst. left.
  - intros Hl. right. by apply IH.
Qed.

Lemma lookupEntry_NoDup name d entries :
  NoDup (map fst entries) -> (name, d) ∈ entries -> lookupEntry name entries = Some d.
Proof.
  induction entries as [|[n d0] entries IH]; simpl.
  - by intros _ ?%elem_of_nil.
  - intros [Hn Hnd]%NoDup_cons [[= -> ->]|Hin]%elem_of_cons.
    + by rewrite String.eqb_refl.
    + rewrite eqb_decide. case_bool_decide; [|by apply IH].
      subst n. exfalso. apply Hn. apply list_elem_of_fmap. by exists (name, d).
Qed.

Lemma NoDup_setEntry name d entries :
  NoDup (map fst entries) -> NoDup (map fst (setEntry name d entries)).
Proof.
  assert (forall n, n ∈ map fst (setEntry name d entries) -> n = name \/ n ∈ map fst entries) as Hin.
  { induction entries as [|[n0 d0] entries IH]; simpl; intros n.
    - intros ->%list_elem_of_singleton. by left.
    - destruct (String.eqb n0 name); simpl.
      + intros [->|?]%elem_of_cons; [by left|]. right. by right.
      + intros [->|?]%elem_of_cons; [right; left|].
        destruct (IH n) as [->|?]; [done|by left|]. right. by right. }
  clear Hin. induction entries as [|[n0 d0] entries IH]; simpl.
  - intros _. repeat constructor. by intros ?%elem_of_nil.
  - intros [Hn Hnd]%NoDup_cons. rewrite eqb_decide. case_bool_decide; simpl.
    + subst n0. by apply NoDup_cons.
    + apply NoDup_cons. split; [|by apply IH].
      intros Hin. apply Hn. clear IH Hnd Hn.
      induction entries as [|[n1 d1] entries IH]; simpl in *.
      * apply list_elem_of_singleton in Hin. by subst.
      * destruct (String.eqb n1 name); simpl in *.
        -- apply elem_of_cons in Hin as [->|?]; [done|]. by right.
        -- apply elem_of_cons in Hin as [->|?]; [left|]. right. by apply IH.
Qed.

Lemma NoDup_removeEntry name entries :
  NoDup (map fst entries) -> NoDup (map fst (removeEntry name entries)).
Proof.
  assert (forall n, n ∈ map fst (removeEntry name entries) -> n ∈ map fst entries) as Hin.
  { induction entries as [|[n0 d0] entries IH]; simpl; intros n; [done|].
    destruct (String.eqb n0 name); simpl.
    - intros ?. right. by apply IH.
    - intros [->|?]%elem_of_cons; [left|]. right. by apply IH. }
  revert Hin. induction entries as [|[n0 d0] entries IH]; simpl; intros Hin; [done|].
  intros [Hn Hnd]%NoDup_cons.
  assert (forall n, n ∈ map fst (removeEntry name entries) -> n ∈ map fst entries) as Hin'.
  { clear. induction entries as [|[n0 d0] entries IH]; simpl; intros n; [done|].
    destruct (String.eqb n0 name); simpl.
    - intros ?. right. by apply IH.
    - intros [->|?]%elem_of_cons; [left|]. right. by apply IH. }
  destruct (String.eqb n0 name); simpl; [by apply IH|].
  apply NoDup_cons. split; [|by apply IH]. intros ?. apply Hn. by apply Hin'.
Qed.

Lemma NoDup_putEntry name (o : option node) entries :
  NoDup (map fst entries) -> NoDup (map fst (putEntry name o entries)).
Proof. destruct o; [apply NoDup_setEntry | apply NoDup_removeEntry]. Qed.

Lemma elem_of_putEntry name (o : option node) e entries :
  e ∈ putEntry name o entries -> o = Some (snd e) \/ e ∈ entries.
Proof.
  destruct o as [d|]; simpl.
  - induction entries as [|[n0 d0] entries IH]; simpl.
    + intros ->%list_elem_of_singleton. by left.
    + destruct (String.eqb n0 name).
      * intros [->|?]%elem_of_cons; [by left|]. right. by right.
      * intros [->|?]%elem_of_cons; [right; left|].
        destruct IH as [?|?]; [done|by left|]. right. by right.
  - induction entries as [|[n0 d0] entries IH]; simpl; [by right|].
    destruct (String.eqb n0 name).
    + intros ?. destruct IH as [?|?]; [done..|]. right. by right.
    + intros [->|?]%elem_of_cons; [right; left|].
      destruct IH as [?|?]; [done..|]. right. by right.
Qed.

Lemma everyDir_Dir Q size modTime mode entries :
  everyDir Q (Dir size modTime mode entries)
  <-> Q entries /\ Forall (fun e => everyDir Q (snd e)) entries.
Proof.
  simpl. apply and_iff_compat_l.
  induction entries as [|[n d] entries IH]; simpl.
  - split; [by constructor|done].
  - rewrite Forall_cons, IH. done.
Qed.

(** *** Paths *)

Lemma prefix_cons_iff name q p : name :: q `prefix_of` name :: p <-> q `prefix_of` p.
Proof. split; [apply prefix_cons_inv_2 | apply prefix_cons]. Qed.

Lemma nodeAt_nil fs : nodeAt fs [] = fs.
Proof. by destruct fs. Qed.

Lemma nodeAt_cons_Dir size modTime mode entries name q :
  nodeAt (Some (Dir size modTime mode entries)) (name :: q)
  = nodeAt (lookupEntry name entries) q.
Proof. simpl. by destruct (lookupEntry name entries). Qed.

Lemma nodeAt_cons_File data modTime mode name q :
  nodeAt (Some (File data modTime mode)) (name :: q) = None.
Proof. done. Qed.

Lemma nodeAt_None q : nodeAt None q = None.
Proof. done. Qed.

Lemma nodeAt_app fs p r : nodeAt fs (p ++ r) = nodeAt (nodeAt fs p) r.
Proof.
  revert fs. induction p as [|name p IH]; intros fs; simpl app.
  - by rewrite nodeAt_nil.
  - destruct fs as [[data modTime mode|size modTime mode entries]|]; try done.
    by rewrite !nodeAt_cons_Dir, IH.
Qed.

Lemma entryAt_None q : entryAt None q = None.
Proof. done. Qed.

Lemma entryAt_nil_Dir size modTime mode entries :
  entryAt (Some (Dir size modTime mode entries)) [] = Some (DirEntry size modTime mode).
Proof. done. Qed.

Lemma entryAt_cons_Dir size modTime mode entries name q :
  entryAt (Some (Dir size modTime mode entries)) (name :: q)
  = entryAt (lookupEntry name entries) q.
Proof. unfold entryAt. by rewrite nodeAt_cons_Dir. Qed.

(** Below an entry there is something only when the entry is a
    directory. *)
Lemma nodeAt_parent_Dir fs p name d :
  nodeAt fs (p ++ [name]) = Some d ->
  exists size modTime mode entries,
    nodeAt fs p = Some (Dir size modTime mode entries)
    /\ lookupEntry name entries = Some d.
Proof.
  rewrite nodeAt_app. destruct (nodeAt fs p) as [[data modTime mode|size modTime mode entries]|]; try done.
  rewrite nodeAt_cons_Dir. intros H. exists size, modTime, mode, entries. split; [done|].
  destruct (lookupEntry name entries); [by rewrite nodeAt_nil in H|done].
Qed.

(** *** [alterAt] *)

Lemma alterAt_cons_Dir create f size modTime mode entries name p :
  alterAt create f (Some (Dir size modTime mode entries)) (name :: p)
  = (fst (alterAt create f (lookupEntry name entries) p),
     Some (Dir size modTime mode
             (putEntry name (snd (alterAt create f (lookupEntry name entries) p)) entries))).
Proof. simpl. by destruct (alterAt create f (lookupEntry name entries) p). Qed.

(** A call that puts back what it found changes nothing. *)
Lemma alterAt_id create f fs p d e :
  nodeAt fs p = Some d -> f (Some d) = (e, Some d) -> alterAt create f fs p = (e, fs).
Proof.
  intros Hd Hf. revert fs Hd. induction p as [|name p IH]; intros fs Hd.
  - rewrite nodeAt_nil in Hd. by subst.
  - destruct fs as [[data modTime mode|size modTime mode entries]|]; try done.
    rewrite nodeAt_cons_Dir in Hd. rewrite alterAt_cons_Dir, (IH _ Hd). simpl.
    by rewrite putEntry_same.
Qed.

(** A call without [create] that succeeds: what it did at the path, and
    that it left the rest alone. *)
Lemma alterAt_None_ok f fs p fs' :
  alterAt None f fs p = (None, fs') ->
  f (nodeAt fs p) = (None, nodeAt fs' p)
  /\ (forall q, ~ p `prefix_of` q -> entryAt fs' q = entryAt fs q).
Proof.
  revert fs fs'. induction p as [|name p IH]; intros fs fs'.
  - simpl. rewrite !nodeAt_nil. intros ->. split; [done|].
    intros q Hq. destruct Hq. apply prefix_nil.
  - destruct fs as [[data modTime mode|size modTime mode entries]|]; try done.
    rewrite alterAt_cons_Dir. intros [= He <-].
    destruct (alterAt None f (lookupEntry name entries) p) as [e d1] eqn:Ea.
    simpl in He. subst e. destruct (IH _ _ Ea) as [IH1 IH2].
    rewrite !nodeAt_cons_Dir. simpl snd.
    rewrite lookupEntry_putEntry. rewrite decide_True by done. split; [done|].
    intros [|name' q] Hq; [done|].
    rewrite !entryAt_cons_Dir, lookupEntry_putEntry.
    case_decide; [|done]. subst name'. apply IH2.
    intros [k ->]. apply Hq. by exists k.
Qed.

(** With the target there, the way down to it does not fail. *)
Lemma alterAt_reaches create f fs p d :
  nodeAt fs p = Some d ->
  fst (alterAt create f fs p) = fst (f (Some d)).
Proof.
  revert fs. induction p as [|name p IH]; intros fs Hd.
  - rewrite nodeAt_nil in Hd. by subst.
  - destruct fs as [[data modTime mode|size modTime mode entries]|]; try done.
    rewrite nodeAt_cons_Dir in Hd. rewrite alterAt_cons_Dir. simpl. by apply IH.
Qed.

(** *** The calls of [os] *)

Lemma MkdirAll_id h fs p perm size modTime mode entries :
  nodeAt fs p = Some (Dir size modTime mode entries) ->
  MkdirAll h fs p perm = (None, fs).
Proof. intros H. unfold MkdirAll. by eapply alterAt_id. Qed.

Lemma MkdirAll_ok h fs p perm fs' :
  MkdirAll h fs p perm = (None, fs') ->
  (forall q, entryAt fs' q
             = match entryAt fs q with
               | Some e => Some e
               | None =>
                   if bool_decide (q `prefix_of` p)
                   then Some (DirEntry (dirSize h) (now h) perm)
                   else None
               end)
  /\ exists size modTime mode entries, nodeAt fs' p = Some (Dir size modTime mode entries).
Proof.
  unfold MkdirAll. revert fs fs'. induction p as [|name p IH]; intros fs fs'.
  - simpl. destruct fs as [[data modTime mode|size modTime mode entries]|]; try done.
    + intros [= <-]. split; [|by eauto]. intros q.
      destruct (entryAt _ q) eqn:E; [done|].
      rewrite bool_decide_eq_false_2; [done|]. by intros ->%prefix_nil_inv.
    + intros [= <-]. split; [|by eauto]. intros [|name q]; [done|].
      by unfold entryAt.
  - destruct fs as [[data modTime mode|size modTime mode entries]|]; try done.
    + rewrite alterAt_cons_Dir. intros [= He <-].
      destruct (alterAt _ _ (lookupEntry name entries) p) as [e d1] eqn:Ea.
      simpl in He. subst e. destruct (IH _ _ Ea) as [IH1 IH2]. simpl snd. split.
      * intros [|name' q]; [done|].
        rewrite !entryAt_cons_Dir, lookupEntry_putEntry.
        case_decide.
        -- subst name'. rewrite IH1. destruct (entryAt _ q); [done|].
           by rewrite (bool_decide_ext _ _ (prefix_cons_iff name q p)).
        -- destruct (entryAt _ q); [done|].
           rewrite bool_decide_eq_false_2; [done|]. by intros ?%prefix_cons_inv_1.
      * rewrite nodeAt_cons_Dir, lookupEntry_putEntry, decide_True by done. done.
    + cbn [alterAt].
      destruct (alterAt _ _ None p) as [e d1] eqn:Ea.
      intros [= -> <-]. destruct (IH _ _ Ea) as [IH1 IH2]. split.
      * intros [|name' q].
        -- rewrite entryAt_nil_Dir, entryAt_None.
           rewrite bool_decide_eq_true_2; [done|apply prefix_nil].
        -- rewrite entryAt_cons_Dir, lookupEntry_putEntry, entryAt_None.
           case_decide.
           ++ subst name'. rewrite IH1, entryAt_None.
              by rewrite (bool_decide_ext _ _ (prefix_cons_iff name q p)).
           ++ change (lookupEntry name' []) with (@None node). rewrite entryAt_None.
              rewrite bool_decide_eq_false_2; [done|]. by intros ?%prefix_cons_inv_1.
      * rewrite nodeAt_cons_Dir, lookupEntry_putEntry, decide_True by done. done.
Qed.

Lemma RemoveAll_ok fs p d :
  nodeAt fs p = Some d ->
  exists fs', RemoveAll fs p = (None, fs')
    /\ forall q, entryAt fs' q = if bool_decide (p `prefix_of` q) then None else entryAt fs q.
Proof.
  intros Hd. unfold RemoveAll.
  pose proof (alterAt_reaches None (fun _ => (None, None)) fs p d Hd) as He.
  destruct (alterAt None _ fs p) as [e fs'] eqn:Ea. simpl in He. subst e.
  exists fs'. split; [done|].
  destruct (alterAt_None_ok _ _ _ _ Ea) as [H1 H2]. intros q.
  case_bool_decide as Hq; [|by apply H2].
  destruct Hq as [r ->]. unfold entryAt. rewrite nodeAt_app.
  injection H1 as <-. done.
Qed.

Lemma copyFile_skip h srcFS src dest w info d :
  dest <> [] ->
  Stat srcFS src = Some info ->
  nodeAt (destFS w) dest = Some d ->
  sameFile (Info d) info = true ->
  copyFile h srcFS src dest w = (None, w).
Proof.
  intros Hne Hs Hd Hsame. unfold copyFile. rewrite Hs.
  destruct (exists_last Hne) as (u & name & ->).
  unfold parent. rewrite removelast_last.
  destruct (nodeAt_parent_Dir _ _ _ _ Hd) as (size & modTime & mode & entries & Hu & _).
  rewrite (MkdirAll_id _ _ _ _ _ _ _ _ Hu).
  unfold Stat. rewrite Hd, Hsame. by destruct w.
Qed.

(** What a successful [copyFile] leaves: the destination stands for the
    source in the sense of the size and time check, nothing is touched
    beside the destination and the directories above it, and what was
    there stays. *)
Lemma copyFile_ok h srcFS src dest w w' :
  dest <> [] ->
  copyFile h srcFS src dest w = (None, w') ->
  (exists destInfo info,
      Stat (destFS w') dest = Some destInfo /\ Stat srcFS src = Some info
      /\ sameFile destInfo info = true)
  /\ (forall q, ~ q `prefix_of` dest -> entryAt (destFS w') q = entryAt (destFS w) q)
  /\ (forall q e, q <> dest -> entryAt (destFS w) q = Some e -> entryAt (destFS w') q = Some e)
  /\ (forall size modTime mode,
        entryAt (destFS w) dest = Some (DirEntry size modTime mode) ->
        entryAt (destFS w') dest = Some (DirEntry size modTime mode)).
Proof.
  intros Hne. unfold copyFile.
  destruct (Stat srcFS src) as [info|] eqn:Hs; [|done].
  destruct (MkdirAll h (destFS w) (parent dest) 493) as [e fs1] eqn:Hm.
  destruct e; [done|].
  destruct (MkdirAll_ok _ _ _ _ _ Hm) as [Hm1 _].
  assert (forall q, ~ q `prefix_of` dest -> entryAt fs1 q = entryAt (destFS w) q) as Hframe1.
  { intros q Hq. rewrite Hm1. destruct (entryAt (destFS w) q); [done|].
    rewrite bool_decide_eq_false_2; [done|]. intros Hp. apply Hq.
    etrans; [done|]. destruct (exists_last Hne) as (u & name & ->).
    unfold parent. rewrite removelast_last. by apply prefix_app_r. }
  assert (forall q e, entryAt (destFS w) q = Some e -> entryAt fs1 q = Some e) as Hmono1.
  { intros q e0 Hq. by rewrite Hm1, Hq. }
  assert (entryAt fs1 dest = entryAt (destFS w) dest) as Hdest1.
  { rewrite Hm1. destruct (entryAt (destFS w) dest); [done|].
    rewrite bool_decide_eq_false_2; [done|].
    destruct (exists_last Hne) as (u & name & ->).
    unfold parent. rewrite removelast_last. intros [k Hk].
    apply (f_equal length) in Hk. rewrite !length_app in Hk. simpl in Hk. lia. }
  destruct (match Stat fs1 dest with Some destInfo => sameFile destInfo info | None => false end) eqn:Hsame.
  { intros [= <-]. simpl. split; [|split; [done|split]].
    - destruct (Stat fs1 dest) as [destInfo|]; [|done]. eauto.
    - intros q e0 _. apply Hmono1.
    - intros ???. by rewrite Hdest1. }
  unfold Open. destruct (nodeAt srcFS src) as [srcFile|] eqn:Hsrc; [|done].
  destruct (OpenFile_create_trunc h fs1 dest (Mode info)) as [e fs2] eqn:Ho.
  destruct e; [done|].
  destruct (Copy h fs2 dest srcFile) as [e fs3] eqn:Hc.
  destruct e; [done|].
  destruct (Chtimes fs3 dest (ModTime info)) as [e fs4] eqn:Ht.
  intros [= -> <-]. simpl.
  unfold OpenFile_create_trunc in Ho. apply alterAt_None_ok in Ho as [Ho1 Ho2].
  unfold Copy in Hc. destruct srcFile as [data modTime mode|]; [|done].
  apply alterAt_None_ok in Hc as [Hc1 Hc2].
  unfold Chtimes in Ht. apply alterAt_None_ok in Ht as [Ht1 Ht2].
  assert (forall q, q <> dest -> ~ dest `prefix_of` q -> entryAt fs4 q = entryAt fs1 q) as Hother.
  { intros q _ Hq. by rewrite Ht2, Hc2, Ho2. }
  assert (exists mode', nodeAt fs4 dest = Some (File data (ModTime info) mode')
                        /\ exists data0 modTime0, nodeAt fs1 dest = None
                             \/ nodeAt fs1 dest = Some (File data0 modTime0 mode')) as (mode' & H4 & Hwas).
  { destruct (nodeAt fs1 dest) as [[data0 modTime0 mode0|????]|] eqn:E1; try done.
    - injection Ho1 as Ho1. rewrite <- Ho1 in Hc1. injection Hc1 as Hc1.
      rewrite <- Hc1 in Ht1. injection Ht1 as Ht1. exists mode0. split; [done|].
      exists data0, modTime0. by right.
    - injection Ho1 as Ho1. rewrite <- Ho1 in Hc1. injection Hc1 as Hc1.
      rewrite <- Hc1 in Ht1. injection Ht1 as Ht1. exists (Mode info). split; [done|].
      exists EmptyString, 0%Z. by left. }
  assert (forall r, r <> [] -> nodeAt fs1 (dest ++ r) = None) as Hbelow.
  { intros r Hr. rewrite nodeAt_app.
    destruct Hwas as (data0 & modTime0 & [->| ->]); [done|]. by destruct r. }
  split; [|split; [|split]].
  - exists (Info (File data (ModTime info) mode')), info. unfold Stat. rewrite H4.
    split; [done|]. split; [done|].
    unfold Stat in Hs. rewrite Hsrc in Hs. injection Hs as <-.
    unfold sameFile. simpl. by rewrite !Z.eqb_refl.
  - intros q Hq. rewrite <- Hframe1 by done.
    destruct (decide (dest `prefix_of` q)) as [[r ->]|Hp].
    + assert (r <> []) as Hr.
      { intros ->. apply Hq. by rewrite app_nil_r. }
      unfold entryAt. rewrite Hbelow by done. rewrite nodeAt_app, H4. by destruct r.
    + apply Hother; [|done]. intros ->. by apply Hq.
  - intros q e0 Hq He0. apply Hmono1 in He0.
    destruct (decide (dest `prefix_of` q)) as [[r ->]|Hp]; [|by rewrite Hother].
    assert (r <> []) as Hr by (intros ->; by rewrite app_nil_r in Hq).
    unfold entryAt in He0. by rewrite Hbelow in He0.
  - intros size0 modTime0 mode0 Hd. rewrite <- Hdest1 in Hd.
    unfold entryAt in Hd. by destruct Hwas as (data0 & modTime1 & [Hw|Hw]); rewrite Hw in Hd.
Qed.

(** *** What the calls leave alone, whatever their outcome *)

(** A call at [p] whose action does not touch what is below [p] changes
    nothing but the entries on the way from the root to [p]. *)
Lemma alterAt_frame create f fs p q :
  (forall o r, r <> [] -> nodeAt (snd (f o)) r = nodeAt o r) ->
  ~ q `prefix_of` p ->
  entryAt (snd (alterAt create f fs p)) q = entryAt fs q.
Proof.
  intros Hf. revert fs q. induction p as [|name p IH]; intros fs q Hq.
  - simpl. unfold entryAt. rewrite <- (nodeAt_nil fs) at 1 2.
    destruct q as [|name q]; [destruct Hq; done|].
    rewrite nodeAt_nil at 1. rewrite Hf by done. by rewrite nodeAt_nil.
  - destruct q as [|name' q]; [destruct Hq; apply prefix_nil|].
    destruct fs as [[data modTime mode|size modTime mode entries]|]; [done| |].
    + rewrite alterAt_cons_Dir. simpl snd.
      rewrite !entryAt_cons_Dir, lookupEntry_putEntry. case_decide; [|done].
      subst name'. apply IH. intros Hp. apply Hq. by apply prefix_cons.
    + cbn [alterAt]. destruct create as [[[size modTime] mode]|]; [|done].
      destruct (alterAt _ f None p) as [e d1] eqn:Ea. simpl snd.
      rewrite entryAt_cons_Dir, lookupEntry_putEntry, entryAt_None. case_decide; [|done].
      subst name'. replace d1 with (snd (alterAt (Some (size, modTime, mode)) f None p))
        by (by rewrite Ea).
      rewrite IH; [done|]. intros Hp. apply Hq. by apply prefix_cons.
Qed.

Lemma MkdirAll_frame h fs p perm q :
  ~ q `prefix_of` p -> entryAt (snd (MkdirAll h fs p perm)) q = entryAt fs q.
Proof.
  apply alterAt_frame. intros [[| ]|] r Hr; simpl; try done. by destruct r.
Qed.

Lemma parent_prefix p : parent p `prefix_of` p.
Proof.
  destruct (decide (p = [])) as [->|Hne]; [done|].
  destruct (exists_last Hne) as (u & name & ->).
  unfold parent. rewrite removelast_last. by apply prefix_app_r.
Qed.

Lemma copyFile_frame h srcFS src dest w q :
  ~ q `prefix_of` dest ->
  entryAt (destFS (snd (copyFile h srcFS src dest w))) q = entryAt (destFS w) q.
Proof.
  intros Hq. unfold copyFile.
  destruct (Stat srcFS src) as [info|]; [|done].
  assert (entryAt (snd (MkdirAll h (destFS w) (parent dest) 493)) q = entryAt (destFS w) q) as H1.
  { apply MkdirAll_frame. intros Hp. apply Hq. etrans; [done|apply parent_prefix]. }
  destruct (MkdirAll h (destFS w) (parent dest) 493) as [e1 fs1]. simpl in H1.
  destruct e1; [done|].
  destruct (match Stat fs1 dest with Some _ => _ | None => _ end); [done|].
  destruct (Open srcFS src) as [srcFile|]; [|done].
  assert (entryAt (snd (OpenFile_create_trunc h fs1 dest (Mode info))) q = entryAt fs1 q) as H2.
  { apply alterAt_frame; [|done]. intros [[| ]|] r Hr; simpl; try done; by destruct r. }
  destruct (OpenFile_create_trunc h fs1 dest (Mode info)) as [e2 fs2]. simpl in H2.
  destruct e2; [by rewrite <- H1, <- H2|].
  assert (entryAt (snd (Copy h fs2 dest srcFile)) q = entryAt fs2 q) as H3.
  { unfold Copy. destruct srcFile; [|done].
    apply alterAt_frame; [|done]. intros [[| ]|] r Hr; simpl; try done; by destruct r. }
  destruct (Copy h fs2 dest srcFile) as [e3 fs3]. simpl in H3.
  destruct e3; [by rewrite <- H1, <- H2, <- H3|].
  assert (entryAt (snd (Chtimes fs3 dest (ModTime info))) q = entryAt fs3 q) as H4.
  { apply alterAt_frame; [|done]. intros [[| ]|] r Hr; simpl; try done; by destruct r. }
  destruct (Chtimes fs3 dest (ModTime info)) as [e4 fs4]. simpl in H4.
  simpl. by rewrite <- H1, <- H2, <- H3, <- H4.
Qed.

(** *** Distinct names are kept *)

Lemma wellFormedRoot_lookupEntry size modTime mode entries name :
  uniqueNames (Dir size modTime mode entries) ->
  wellFormedRoot (lookupEntry name entries).
Proof.
  intros [_ Hall]%everyDir_Dir. destruct (lookupEntry name entries) as [d|] eqn:E; [|done].
  apply lookupEntry_Some in E. rewrite Forall_forall in Hall. by apply (Hall _ E).
Qed.

Lemma uniqueNames_putEntry size modTime mode entries name (o : option node) :
  uniqueNames (Dir size modTime mode entries) -> wellFormedRoot o ->
  uniqueNames (Dir size modTime mode (putEntry name o entries)).
Proof.
  intros [Hnd Hall]%everyDir_Dir Ho. apply everyDir_Dir. split; [by apply NoDup_putEntry|].
  apply Forall_forall. intros e [->|He]%elem_of_putEntry; [done|].
  rewrite Forall_forall in Hall. by apply Hall.
Qed.

Lemma alterAt_wellFormed create f fs p :
  (forall o, wellFormedRoot o -> wellFormedRoot (snd (f o))) ->
  wellFormedRoot fs -> wellFormedRoot (snd (alterAt create f fs p)).
Proof.
  intros Hf. revert fs. induction p as [|name p IH]; intros fs Hfs; [by apply Hf|].
  destruct fs as [[data modTime mode|size modTime mode entries]|]; [done| |].
  - rewrite alterAt_cons_Dir. simpl. apply uniqueNames_putEntry; [done|].
    apply IH. exact (wellFormedRoot_lookupEntry size modTime mode entries name Hfs).
  - cbn [alterAt]. destruct create as [[[size modTime] mode]|]; [|done].
    pose proof (IH None I) as H1.
    destruct (alterAt _ f None p) as [e d1]. simpl in *.
    apply (uniqueNames_putEntry size modTime mode [] name d1); [|done].
    apply everyDir_Dir. split; [apply NoDup_nil_2 | apply Forall_nil_2].
Qed.

Lemma MkdirAll_wellFormed h fs p perm :
  wellFormedRoot fs -> wellFormedRoot (snd (MkdirAll h fs p perm)).
Proof.
  apply alterAt_wellFormed. intros [[| ]|] Ho; simpl; try done.
  split; [apply NoDup_nil_2 | done].
Qed.

Lemma RemoveAll_wellFormed fs p :
  wellFormedRoot fs -> wellFormedRoot (snd (RemoveAll fs p)).
Proof.
  intros Hfs. unfold RemoveAll.
  pose proof (alterAt_wellFormed None (fun _ => (None, None)) fs p (fun _ _ => I) Hfs) as H1.
  destruct (alterAt None _ fs p) as [e fs']. by destruct (IsNotExist e).
Qed.

Lemma copyFile_wellFormed h srcFS src dest w :
  wellFormedRoot (destFS w) ->
  wellFormedRoot (destFS (snd (copyFile h srcFS src dest w))).
Proof.
  intros Hw. unfold copyFile.
  destruct (Stat srcFS src) as [info|]; [|done].
  pose proof (MkdirAll_wellFormed h (destFS w) (parent dest) 493 Hw) as H1.
  destruct (MkdirAll h (destFS w) (parent dest) 493) as [e1 fs1]. simpl in H1.
  destruct e1; [done|].
  destruct (match Stat fs1 dest with Some _ => _ | None => _ end); [done|].
  destruct (Open srcFS src) as [srcFile|]; [|done].
  assert (wellFormedRoot (snd (OpenFile_create_trunc h fs1 dest (Mode info)))) as H2.
  { apply alterAt_wellFormed; [|done]. by intros [[| ]|] Ho. }
  destruct (OpenFile_create_trunc h fs1 dest (Mode info)) as [e2 fs2]. simpl in H2.
  destruct e2; [done|].
  assert (wellFormedRoot (snd (Copy h fs2 dest srcFile))) as H3.
  { unfold Copy. destruct srcFile; [|done].
    apply alterAt_wellFormed; [|done]. by intros [[| ]|] Ho. }
  destruct (Copy h fs2 dest srcFile) as [e3 fs3]. simpl in H3.
  destruct e3; [done|].
  assert (wellFormedRoot (snd (Chtimes fs3 dest (ModTime info)))) as H4.
  { apply alterAt_wellFormed; [|done]. by intros [[| ]|] Ho. }
  by destruct (Chtimes fs3 dest (ModTime info)) as [e4 fs4].
Qed.

(** *** Names *)

Lemma find_validNames d r e :
  validNames d -> find d r = Some e -> Forall validName r /\ validNames e.
Proof.
  revert d. induction r as [|name r IH]; intros d Hd; simpl.
  - intros [= <-]. by split.
  - destruct d as [|size modTime mode entries]; [done|].
    destruct (lookupEntry name entries) as [d1|] eqn:E; [|done].
    apply lookupEntry_Some in E. apply everyDir_Dir in Hd as [Hn Hall].
    cbv beta in Hn. rewrite Forall_forall in Hn. rewrite Forall_forall in Hall. intros Hf.
    destruct (IH d1 (Hall _ E) Hf) as [H1 H2]. split; [|done].
    constructor; [|done]. apply Hn. apply list_elem_of_fmap. by exists (name, d1).
Qed.

Lemma Rel_not_dot r :
  r <> [] -> Forall validName r -> String.eqb (filepath.Rel r) "." = false.
Proof.
  destruct r as [|name r]; [done|]. intros _ [Hname _]%Forall_cons.
  destruct Hname as (Hne & Hdot & _). apply String.eqb_neq.
  unfold filepath.Rel. destruct r as [|name' r]; [done|].
  rewrite Join_cons by done.
  destruct name as [|c name]; [done|]. destruct name as [|c' name]; [|by intros [=]].
  intros [=]. 
Qed.

End tree_facts.

(** ** [copyFile]: the incremental skip *)

(** C8. When a regular file is at the destination with the size and the
    modification time of the source file, [copyFile] returns [nil] and
    leaves the destination as it was: the tree (so the content, size and
    time of the file) and the count of copies are unchanged.  Only the two
    numbers are compared: the contents [sdata] and [ddata] are any two
    strings of one length. *)
Theorem C8_copyFile_skips_same_size_and_time
    (h : os.host) (srcFS : os.root) (src dest : os.path) (w : world)
    (sdata ddata : string) (modTime smode dmode : Z) :
  dest <> [] ->
  os.nodeAt srcFS src = Some (os.File sdata modTime smode) ->
  os.nodeAt (destFS w) dest = Some (os.File ddata modTime dmode) ->
  String.length ddata = String.length sdata ->
  copyFile h srcFS src dest w = (None, w).
Proof.
  intros Hne Hs Hd Hlen.
  apply (copyFile_skip h srcFS src dest w
           (os.Info (os.File sdata modTime smode)) (os.File ddata modTime dmode));
    [done| |done|].
  - unfold os.Stat. by rewrite Hs.
  - unfold sameFile. simpl. by rewrite Hlen, !Z.eqb_refl.
Qed.

Lemma C8_copyFile_skips_same_size_and_time_witness :
  let src := Some (os.Dir 4096 900 493 [("f.txt", os.File "hello" 100 420)]) in
  let w := mkWorld (Some (os.Dir 4096 900 448 [("f.txt", os.File "world" 100 384)])) 0 in
  copyFile testHost src ["f.txt"] ["f.txt"] w = (None, w).
Proof.
  apply (C8_copyFile_skips_same_size_and_time testHost _ ["f.txt"] ["f.txt"] _
           "hello" "world" 100 420 384); [discriminate | reflexivity | reflexivity | reflexivity].
Defined.

(** ** The walk *)

Section walk_facts.

Import os filepath.
Implicit Types (d : node) (p q r : path).

Lemma runVisits_app {S : Type} (step : path -> node -> S -> option error * S) l1 l2 s :
  runVisits step (l1 ++ l2) s
  = let '(err, s') := runVisits step l1 s in
    match err with
    | Some e => (Some e, s')
    | None => runVisits step l2 s'
    end.
Proof.
  revert s. induction l1 as [|[p d] l1 IH]; intros s; simpl; [done|].
  destruct (step p d s) as [[e|] s']; [done|]. apply IH.
Qed.

Lemma runVisits_error {S : Type} (step : path -> node -> S -> option error * S)
    (P : error -> Prop) l s :
  (forall p d s e, fst (step p d s) = Some e -> P e) ->
  forall e, fst (runVisits step l s) = Some e -> P e.
Proof.
  intros Hstep. revert s. induction l as [|[p d] l IH]; intros s e; simpl; [done|].
  destruct (step p d s) as [[e'|] s'] eqn:E.
  - intros [= <-]. apply (Hstep p d s). by rewrite E.
  - apply IH.
Qed.

(** A callback that decides whether to skip a directory from the entry
    alone makes [walkDir] run over [visits]. *)
Lemma walkDir_visits {S : Type} (fn : WalkDirFunc S)
    (step : path -> node -> S -> option error * S) (skip : path -> node -> bool) :
  (forall p d s,
      fn p (Some d) None s
      = let '(err, s') := step p d s in
        match err with
        | Some e => (Some e, s')
        | None => ((if skip p d then Some SkipDir else None), s')
        end) ->
  (forall p d s, fst (step p d s) <> Some SkipDir) ->
  (forall p d, skip p d = true -> isDir d = true) ->
  forall d p s, walkDir fn p d s = runVisits step (visits skip p d) s.
Proof.
  intros Hfn Hstep Hskip.
  assert (forall l s, fst (runVisits step l s) <> Some SkipDir) as Hrun.
  { intros l s He.
    apply (runVisits_error step (fun e => e <> SkipDir) l s) in He; [done|].
    intros p d s0 e He' ->. by apply (Hstep p d s0). }
  induction d as [data modTime mode|size modTime mode entries IH] using node_induction;
    intros p s.
  - cbn [walkDir visits runVisits]. rewrite Hfn.
    pose proof (Hstep p (File data modTime mode) s) as Hs.
    pose proof (Hskip p (File data modTime mode)) as Hk.
    destruct (step p (File data modTime mode) s) as [[e|] s'].
    + simpl. destruct e; try done.
    + destruct (skip p (File data modTime mode)); [by specialize (Hk eq_refl)|].
      by rewrite bool_decide_eq_false_2 by (by intros []).
  - cbn [walkDir visits runVisits]. rewrite Hfn.
    pose proof (Hstep p (Dir size modTime mode entries) s) as Hs.
    destruct (step p (Dir size modTime mode entries) s) as [[e|] s'].
    + simpl. destruct e; try done.
    + destruct (skip p (Dir size modTime mode entries)).
      { rewrite bool_decide_eq_true_2 by done. done. }
      rewrite bool_decide_eq_false_2 by (by intros []).
      cbn [orb negb isDir Info IsDir].
      clear Hs. revert s'. induction IH as [|[name d1] entries Hd1 _ IHe]; intros s'; [done|].
      simpl in Hd1. rewrite runVisits_app, <- Hd1.
      pose proof (Hrun (visits skip (p ++ [name]) d1) s') as Hr. rewrite <- Hd1 in Hr.
      destruct (walkDir fn (p ++ [name]) d1 s') as [[e|] s'']; [by destruct e|].
      apply IHe.
Qed.

(** *** The entries a walk visits *)

Lemma elem_of_visits skip p d x :
  x ∈ visits skip p d
  <-> x = (p, d)
      \/ (skip p d = false
          /\ exists size modTime mode entries name d1,
              d = Dir size modTime mode entries /\ (name, d1) ∈ entries
              /\ x ∈ visits skip (p ++ [name]) d1).
Proof.
  destruct d as [data modTime mode|size modTime mode entries]; cbn [visits].
  - rewrite elem_of_cons. destruct (skip p _).
    + split; [intros [?|?%elem_of_nil]; [by left|done]|].
      intros [?|[? _]]; [by left|done].
    + split; [intros [?|?%elem_of_nil]; [by left|done]|].
      intros [?|[_ (?&?&?&?&?&?&?&_)]]; [by left|done].
  - rewrite elem_of_cons. destruct (skip p _).
    + split; [intros [?|?%elem_of_nil]; [by left|done]|].
      intros [?|[? _]]; [by left|done].
    + apply or_iff_compat_l. split.
      * intros H. split; [done|]. exists size, modTime, mode, entries.
        induction entries as [|[name d1] entries IH]; [by apply elem_of_nil in H|].
        apply elem_of_app in H as [H|H].
        -- exists name, d1. split; [done|]. split; [left|done].
        -- destruct (IH H) as (name' & d' & _ & Hin & Hx).
           exists name', d'. split; [done|]. split; [by right|done].
      * intros [_ (? & ? & ? & ? & name & d1 & [= <- <- <- <-] & Hin & Hx)].
        induction entries as [|[name' d'] entries IH]; [by apply elem_of_nil in Hin|].
        apply elem_of_app. apply elem_of_cons in Hin as [[= <- <-]|Hin]; [by left|].
        right. by apply IH.
Qed.

Lemma visits_here skip p d : (p, d) ∈ visits skip p d.
Proof. apply elem_of_visits. by left. Qed.

Lemma visits_prefix skip p d q e : (q, e) ∈ visits skip p d -> p `prefix_of` q.
Proof.
  revert p. induction d as [|size modTime mode entries IH] using node_induction; intros p.
  - intros [[= -> _]|[_ (?&?&?&?&?&?&?&_)]]%elem_of_visits; done.
  - intros [[= -> _]|[_ (?&?&?&?& name & d1 & [= <- <- <- <-] & Hin & Hx)]]%elem_of_visits; [done|].
    rewrite Forall_forall in IH. apply (IH _ Hin) in Hx.
    etrans; [|done]. by apply prefix_app_r.
Qed.

(** Above a visited entry the walk went through directories that it did
    not skip. *)
Lemma visits_ancestor skip p d q e u :
  (q, e) ∈ visits skip p d ->
  p `prefix_of` u -> u `prefix_of` q -> u <> q ->
  exists e', (u, e') ∈ visits skip p d /\ skip u e' = false /\ isDir e' = true.
Proof.
  revert p. induction d as [|size modTime mode entries IH] using node_induction; intros p.
  - intros [[= -> _]|[_ (?&?&?&?&?&?&?&_)]]%elem_of_visits; [|done].
    intros H1 H2 Hne. destruct Hne. by apply (anti_symm prefix).
  - intros [[= -> _]|[Hs (?&?&?&?& name & d1 & [= <- <- <- <-] & Hin & Hx)]]%elem_of_visits.
    { intros H1 H2 Hne. destruct Hne. by apply (anti_symm prefix). }
    intros [k ->] Hu Hne.
    destruct k as [|name' k].
    { rewrite app_nil_r. exists (Dir size modTime mode entries).
      split; [apply visits_here|done]. }
    pose proof (visits_prefix _ _ _ _ _ Hx) as [k' ->].
    assert (name' = name) as ->.
    { destruct Hu as [k'' Hk]. rewrite <- !app_assoc in Hk.
      apply app_inv_head in Hk. by injection Hk. }
    rewrite Forall_forall in IH.
    destruct (IH _ Hin (p ++ [name]) Hx) as (e' & He' & Hsk & Hd); [| |done|].
    + exists k. by rewrite <- app_assoc.
    + done.
    + exists e'. split; [|done]. apply elem_of_visits. right. split; [done|].
      by exists size, modTime, mode, entries, name, d1.
Qed.

(** An entry is visited when the walk skips no directory above it. *)
Lemma visits_reach skip p d r e :
  find d r = Some e ->
  (forall u e', u `prefix_of` r -> u <> r -> find d u = Some e' -> skip (p ++ u) e' = false) ->
  (p ++ r, e) ∈ visits skip p d.
Proof.
  revert p d. induction r as [|name r IH]; intros p d.
  - intros [= ->] _. rewrite app_nil_r. apply visits_here.
  - intros Hf Hsk.
    assert (skip p d = false) as Hs.
    { rewrite <- (app_nil_r p). apply Hsk; [apply prefix_nil|done|done]. }
    destruct d as [|size modTime mode entries]; [done|]. simpl in Hf.
    destruct (lookupEntry name entries) as [d1|] eqn:El; [|done].
    apply elem_of_visits. right. split; [done|].
    exists size, modTime, mode, entries, name, d1. split; [done|].
    split; [by apply lookupEntry_Some|].
    replace (p ++ name :: r) with ((p ++ [name]) ++ r) by (by rewrite <- app_assoc).
    apply IH; [done|]. intros u e' Hu Hne Hfu.
    rewrite <- app_assoc. apply Hsk.
    + by apply prefix_cons.
    + intros [= ->]. done.
    + simpl. by rewrite El.
Qed.

(** In a tree with distinct names, a visited entry is the one at its
    path. *)
Lemma visits_find skip p d q e :
  uniqueNames d -> (q, e) ∈ visits skip p d ->
  exists r, q = p ++ r /\ find d r = Some e.
Proof.
  revert p. induction d as [|size modTime mode entries IH] using node_induction; intros p Hu.
  - intros [[= -> ->]|[_ (?&?&?&?&?&?&?&_)]]%elem_of_visits; [|done].
    exists []. by rewrite app_nil_r.
  - intros [[= -> ->]|[Hs (?&?&?&?& name & d1 & [= <- <- <- <-] & Hin & Hx)]]%elem_of_visits.
    { exists []. by rewrite app_nil_r. }
    apply everyDir_Dir in Hu as [Hnd Hall].
    rewrite Forall_forall in IH, Hall.
    destruct (IH _ Hin (p ++ [name]) (Hall _ Hin) Hx) as (r & -> & Hr).
    exists (name :: r). split; [by rewrite <- app_assoc|].
    simpl. by rewrite (lookupEntry_NoDup _ _ _ Hnd Hin).
Qed.

(** *** The two callbacks *)

Lemma alterAt_error create f fs p e :
  (forall o e, fst (f o) = Some e -> plainError e) ->
  fst (alterAt create f fs p) = Some e -> plainError e.
Proof.
  intros Hf. revert fs. induction p as [|name p IH]; intros fs; simpl; [apply Hf|].
  destruct fs as [[data modTime mode|size modTime mode entries]|].
  - by intros [= <-].
  - destruct (alterAt create f (lookupEntry name entries) p) as [e' d'] eqn:E.
    simpl. intros ->. apply (IH (lookupEntry name entries)). by rewrite E.
  - destruct create as [[[size modTime] mode]|]; [|by intros [= <-]].
    destruct (alterAt _ f None p) as [e' d'] eqn:E.
    simpl. intros ->. apply (IH None). by rewrite E.
Qed.

Lemma MkdirAll_error h fs p perm e :
  fst (MkdirAll h fs p perm) = Some e -> plainError e.
Proof.
  apply alterAt_error. intros [[]|] e'; simpl; try done. by intros [= <-].
Qed.

Lemma copyFile_error h srcFS src dest w e :
  fst (copyFile h srcFS src dest w) = Some e -> plainError e.
Proof.
  unfold copyFile. destruct (Stat srcFS src) as [info|]; [|by intros [= <-]].
  destruct (MkdirAll h (destFS w) (parent dest) 493) as [e1 fs1] eqn:E1.
  destruct e1 as [e1|].
  { intros [= <-]. apply (MkdirAll_error h (destFS w) (parent dest) 493). by rewrite E1. }
  destruct (match Stat fs1 dest with Some _ => _ | None => _ end); [done|].
  destruct (Open srcFS src) as [srcFile|]; [|by intros [= <-]].
  destruct (OpenFile_create_trunc h fs1 dest (Mode info)) as [e2 fs2] eqn:E2.
  destruct e2 as [e2|].
  { intros [= <-]. apply (alterAt_error None _ fs1 dest e2) with (2 := f_equal fst E2).
    intros [[]|] e'; simpl; try done. by intros [= <-]. }
  destruct (Copy h fs2 dest srcFile) as [e3 fs3] eqn:E3.
  destruct e3 as [e3|].
  { intros [= <-]. unfold Copy in E3. destruct srcFile; [|by injection E3 as <- _].
    apply (alterAt_error None _ fs2 dest e3) with (2 := f_equal fst E3).
    intros [[]|] e'; simpl; try done; by intros [= <-]. }
  destruct (Chtimes fs3 dest (ModTime info)) as [e4 fs4] eqn:E4.
  simpl. intros ->.
  apply (alterAt_error None _ fs3 dest e) with (2 := f_equal fst E4).
  intros [[]|] e'; simpl; try done; by intros [= <-].
Qed.

Lemma syncStep_error h src patterns p d s e :
  fst (syncStep h src patterns p d s) = Some e -> plainError e.
Proof.
  unfold syncStep. destruct s as [w validPaths].
  destruct (String.eqb _ _); [done|]. destruct (shouldExclude _ _ _); [done|].
  destruct (isDir d).
  - destruct (MkdirAll h (destFS w) p (Mode (Info d))) as [e1 fs1] eqn:E1.
    simpl. intros ->. apply (MkdirAll_error h (destFS w) p (Mode (Info d))). by rewrite E1.
  - destruct (copyFile h (Some src) p p w) as [e1 w1] eqn:E1.
    simpl. intros ->. apply (copyFile_error h (Some src) p p w). by rewrite E1.
Qed.

Lemma WalkDir_visits {S : Type} (fn : WalkDirFunc S)
    (step : path -> node -> S -> option error * S) (skip : path -> node -> bool) d s :
  (forall p d s,
      fn p (Some d) None s
      = let '(err, s') := step p d s in
        match err with
        | Some e => (Some e, s')
        | None => ((if skip p d then Some SkipDir else None), s')
        end) ->
  (forall p d s e, fst (step p d s) = Some e -> plainError e) ->
  (forall p d, skip p d = true -> isDir d = true) ->
  WalkDir (Some d) fn s = runVisits step (visits skip [] d) s.
Proof.
  intros Hfn Hstep Hskip. unfold WalkDir.
  rewrite (walkDir_visits fn step skip Hfn); [|intros p d' s' He; by apply Hstep in He as []|done].
  pose proof (runVisits_error step plainError (visits skip [] d) s Hstep) as He.
  destruct (runVisits step (visits skip [] d) s) as [[e|] s']; [|done].
  destruct (He e eq_refl) as [??]. by destruct e.
Qed.

Lemma syncWalk_visits h src w patterns :
  syncWalk h src w patterns
  = runVisits (syncStep h src patterns) (visits (excludedDir patterns) [] src) (w, ∅).
Proof.
  apply WalkDir_visits.
  - intros p d [w' validPaths]. unfold syncFn, syncStep, excludedDir.
    destruct (String.eqb (Rel p) ".") eqn:Er; [done|].
    destruct (isDir d) eqn:Ed; simpl.
    + destruct (shouldExclude (Rel p) patterns true) eqn:Ex; [done|].
      by destruct (MkdirAll h (destFS w') p (Mode (Info d))) as [[e|] fs1].
    + destruct (shouldExclude (Rel p) patterns false) eqn:Ex; [done|].
      by destruct (copyFile h (Some src) p p w') as [[e|] w1].
  - intros p d s e. apply syncStep_error.
  - unfold excludedDir. intros p d [[_ H]%andb_true_iff _]%andb_true_iff. done.
Qed.

Lemma scanOrphans_visits d validPaths :
  scanOrphans (Some d) validPaths
  = runVisits (scanStep validPaths) (visits (orphanDir validPaths) [] d) [].
Proof.
  apply WalkDir_visits.
  - intros p d' toRemove. unfold scanFn, scanStep, orphanDir.
    case_bool_decide; [done|]. simpl.
    destruct (bool_decide (p ∈ validPaths)); simpl; [done|]. by destruct (isDir d').
  - intros p d' s e. unfold scanStep. by repeat case_match.
  - unfold orphanDir. by intros p d' [_ H]%andb_true_iff.
Qed.

End walk_facts.

(** ** The orphan scan *)

Section scan_facts.

Import os filepath.
Implicit Types (d : node) (p q r t u : path) (validPaths : gset path).

Lemma runVisits_scanStep validPaths l toRemove :
  runVisits (scanStep validPaths) l toRemove = (None, toRemove ++ orphansOf validPaths l).
Proof.
  unfold orphansOf. revert toRemove.
  induction l as [|[p d] l IH]; intros toRemove; simpl; [by rewrite app_nil_r|].
  unfold scanStep at 1. rewrite filter_cons. simpl.
  case_bool_decide as Hp.
  - rewrite decide_False by (by intros [? _]). apply IH.
  - case_bool_decide as Hv; simpl.
    + rewrite decide_False by (by intros [_ ?]). apply IH.
    + rewrite decide_True by done. simpl. rewrite IH, <- app_assoc. done.
Qed.

Lemma scanOrphans_Some d validPaths :
  scanOrphans (Some d) validPaths
  = (None, orphansOf validPaths (visits (orphanDir validPaths) [] d)).
Proof. by rewrite scanOrphans_visits, runVisits_scanStep. Qed.

Lemma scanOrphans_None validPaths : scanOrphans None validPaths = (Some ENOENT, []).
Proof. done. Qed.

Lemma elem_of_orphansOf validPaths l t :
  t ∈ orphansOf validPaths l <-> t <> [] /\ (t ∉ validPaths) /\ exists e, (t, e) ∈ l.
Proof.
  unfold orphansOf. rewrite list_elem_of_fmap. split.
  - intros ([t' e] & -> & [[??] ?]%list_elem_of_filter). eauto.
  - intros (? & ? & e & ?). exists (t, e). split; [done|]. by apply list_elem_of_filter.
Qed.

(** A path on the deletion list is the topmost orphan on its way from the
    root. *)
Lemma scanOrphans_topmost dest validPaths t :
  t ∈ snd (scanOrphans dest validPaths) ->
  t <> [] /\ (t ∉ validPaths)
  /\ forall u, u `prefix_of` t -> u <> t -> u <> [] -> u ∈ validPaths.
Proof.
  destruct dest as [d|]; [|by intros ?%elem_of_nil].
  rewrite scanOrphans_Some. simpl.
  intros (Hne & Hv & e & Hin)%elem_of_orphansOf. split; [done|]. split; [done|].
  intros u Hu Hut Hu0.
  destruct (visits_ancestor _ _ _ _ _ u Hin) as (e' & _ & Hsk & Hd); [apply prefix_nil|done..|].
  unfold orphanDir in Hsk. rewrite Hd, andb_true_r in Hsk.
  rewrite bool_decide_eq_false_2 in Hsk by done. simpl in Hsk.
  apply negb_false_iff in Hsk. by apply bool_decide_eq_true in Hsk.
Qed.

(** In a tree with distinct names the walk visits a path once. *)
Lemma visits_NoDup skip p d :
  uniqueNames d -> NoDup (map fst (visits skip p d)).
Proof.
  revert p. induction d as [|size modTime mode entries IH] using node_induction; intros p Hu.
  - cbn [visits]. destruct (skip p _); simpl; repeat constructor; by intros ?%elem_of_nil.
  - cbn [visits]. destruct (skip p _); simpl.
    { repeat constructor. by intros ?%elem_of_nil. }
    apply everyDir_Dir in Hu as [Hnd Hall].
    assert (forall es q, q ∈ map fst
              ((fix loop (dirs : list (string * node)) : list (path * node) :=
                  match dirs with
                  | [] => []
                  | (name, d1) :: dirs' => visits skip (p ++ [name]) d1 ++ loop dirs'
                  end) es) ->
            exists name r, name ∈ map fst es /\ q = p ++ name :: r) as Hin.
    { clear. induction es as [|[name d1] es IHe]; intros q; [by intros ?%elem_of_nil|].
      rewrite fmap_app, elem_of_app. intros [Hq|Hq].
      - apply list_elem_of_fmap in Hq as ([q' e] & -> & Hq).
        apply visits_prefix in Hq as [r ->]. exists name, r.
        split; [left|by rewrite <- app_assoc].
      - destruct (IHe _ Hq) as (name' & r & ? & ->). exists name', r. split; [by right|done]. }
    apply NoDup_cons. split.
    { intros (name & r & _ & Hq)%Hin. apply (f_equal length) in Hq.
      rewrite length_app in Hq. simpl in Hq. lia. }
    induction entries as [|[name d1] entries IHe]; [constructor|].
    simpl in Hnd. apply NoDup_cons in Hnd as [Hname Hnd].
    apply Forall_cons in IH as [IH1 IH]. apply Forall_cons in Hall as [Hd1 Hall].
    rewrite fmap_app. apply NoDup_app. split; [by apply IH1|]. split; [|by apply IHe].
    intros q Hq1 Hq2.
    apply list_elem_of_fmap in Hq1 as ([q' e] & -> & Hq1).
    apply visits_prefix in Hq1 as [r Hr]. simpl in Hr, Hq2 |- *. subst q'.
    apply Hin in Hq2 as (name' & r' & Hn' & Heq).
    rewrite <- app_assoc in Heq. apply app_inv_head in Heq. injection Heq as -> _. done.
Qed.

Lemma scanOrphans_NoDup dest validPaths :
  wellFormedRoot dest -> NoDup (snd (scanOrphans dest validPaths)).
Proof.
  destruct dest as [d|]; [|constructor]. simpl. intros Hu.
  rewrite scanOrphans_Some. simpl. unfold orphansOf.
  eapply sublist_NoDup; [exact (visits_NoDup (orphanDir validPaths) [] d Hu)|].
  apply fmap_sublist, sublist_filter.
Qed.

End scan_facts.

(** C10. After the scan of [cleanOrphans], no path on the deletion list is
    a strict descendant of another one.  A path on the list is not in
    [validPaths] while every directory above it (below the root) is: it is
    the topmost orphan of its subtree; and in a tree with distinct names it
    is on the list once, so that each orphan subtree is removed by one
    [RemoveAll]. *)
Theorem C10_deletion_list_not_nested (dest : os.root) (validPaths : gset os.path) :
  (forall t u,
      t ∈ snd (scanOrphans dest validPaths) ->
      u ∈ snd (scanOrphans dest validPaths) ->
      t `prefix_of` u -> t = u)
  /\ (forall t,
        t ∈ snd (scanOrphans dest validPaths) ->
        t <> [] /\ (t ∉ validPaths)
        /\ forall a, a `prefix_of` t -> a <> t -> a <> [] -> a ∈ validPaths)
  /\ (os.wellFormedRoot dest -> NoDup (snd (scanOrphans dest validPaths))).
Proof.
  split; [|split; [apply scanOrphans_topmost | apply scanOrphans_NoDup]].
  intros t u Ht Hu Hp. destruct (decide (t = u)) as [|Hne]; [done|]. exfalso.
  apply scanOrphans_topmost in Ht as (Ht0 & Htv & _).
  apply scanOrphans_topmost in Hu as (_ & _ & Hu).
  apply Htv. by apply Hu.
Qed.

Lemma C10_deletion_list_not_nested_witness :
  snd (scanOrphans orphanTree_dest {[ ["keep.txt"] ]}) = [ ["old"] ]
  /\ NoDup (snd (scanOrphans orphanTree_dest {[ ["keep.txt"] ]})).
Proof.
  split; [vm_compute; reflexivity|].
  apply (proj2 (proj2 (C10_deletion_list_not_nested orphanTree_dest {[ ["keep.txt"] ]}))).
  simpl. repeat split; solve_NoDup.
Defined.

(** ** The walk of [sync] *)

Section sync_facts.

Import os filepath.
Implicit Types (d : node) (fs : root) (p q r : path) (w : world)
  (validPaths : gset path) (patterns : list string).

Lemma Info_entryOf d : Info d = entryInfo (entryOf d).
Proof. by destruct d. Qed.

Lemma Stat_entryAt fs p : Stat fs p = entryInfo <$> entryAt fs p.
Proof. unfold Stat, entryAt. destruct (nodeAt fs p); [|done]. simpl. by rewrite Info_entryOf. Qed.

Lemma recorded_not_root patterns p d : recorded patterns (p, d) = true -> p <> [].
Proof. unfold recorded. simpl. by intros H ->. Qed.

Lemma syncStep_not_recorded h src patterns p d s :
  recorded patterns (p, d) = false -> syncStep h src patterns p d s = (None, s).
Proof.
  unfold recorded, syncStep. simpl. destruct s as [w validPaths].
  destruct (String.eqb (Rel p) "."); [done|].
  by destruct (shouldExclude (Rel p) patterns (isDir d)).
Qed.

Lemma syncStep_recorded h src patterns p d w validPaths :
  recorded patterns (p, d) = true ->
  syncStep h src patterns p d (w, validPaths)
  = if isDir d then
      (fst (MkdirAll h (destFS w) p (Mode (Info d))),
       (mkWorld (snd (MkdirAll h (destFS w) p (Mode (Info d)))) (copies w),
        {[p]} ∪ validPaths))
    else
      (fst (copyFile h (Some src) p p w),
       (snd (copyFile h (Some src) p p w), {[p]} ∪ validPaths)).
Proof.
  unfold recorded, syncStep. simpl.
  destruct (String.eqb (Rel p) "."); [done|].
  destruct (shouldExclude (Rel p) patterns (isDir d)); [done|]. intros _.
  destruct (isDir d).
  - by destruct (MkdirAll h (destFS w) p (Mode (Info d))).
  - by destruct (copyFile h (Some src) p p w).
Qed.

(** Whatever its outcome, a step touches the destination only on the way
    from the root to its path. *)
Lemma syncStep_any h src patterns p d w validPaths err w' validPaths' :
  syncStep h src patterns p d (w, validPaths) = (err, (w', validPaths')) ->
  (validPaths' = validPaths
   \/ (recorded patterns (p, d) = true /\ validPaths' = {[p]} ∪ validPaths))
  /\ (forall q, ~ q `prefix_of` p -> entryAt (destFS w') q = entryAt (destFS w) q)
  /\ (wellFormedRoot (destFS w) -> wellFormedRoot (destFS w')).
Proof.
  destruct (recorded patterns (p, d)) eqn:Hr.
  - rewrite syncStep_recorded by done. destruct (isDir d).
    + intros [= <- <- <-]. simpl. split; [by right|]. split.
      * intros q Hq. by apply MkdirAll_frame.
      * apply MkdirAll_wellFormed.
    + intros [= <- <- <-]. split; [by right|]. split.
      * intros q Hq. by apply copyFile_frame.
      * apply copyFile_wellFormed.
  - rewrite syncStep_not_recorded by done. intros [= <- <- <-]. by split; [left|].
Qed.

(** A step that succeeds leaves its entry synced and keeps synced what
    was. *)
Lemma syncStep_ok h src patterns p d w validPaths w' validPaths' :
  recorded patterns (p, d) = true ->
  syncStep h src patterns p d (w, validPaths) = (None, (w', validPaths')) ->
  synced src (destFS w') p d
  /\ (forall q, syncedDir (destFS w) q -> syncedDir (destFS w') q)
  /\ (forall q, syncedFile src (destFS w) q -> syncedFile src (destFS w') q).
Proof.
  intros Hr. pose proof (recorded_not_root _ _ _ Hr) as Hne.
  rewrite syncStep_recorded by done. unfold synced. destruct (isDir d).
  - intros [= He <- _]. simpl.
    destruct (MkdirAll h (destFS w) p (Mode (Info d))) as [e fs'] eqn:Em.
    simpl in He. subst e. destruct (MkdirAll_ok _ _ _ _ _ Em) as [H1 H2]. simpl.
    split; [|split].
    + destruct H2 as (size & modTime & mode & entries & H2).
      exists size, modTime, mode. unfold entryAt. by rewrite H2.
    + intros q (size & modTime & mode & Hq). exists size, modTime, mode. by rewrite H1, Hq.
    + intros q (e & info & Hq & Hs & Hsame). exists e, info. by rewrite H1, Hq.
  - intros [= He <- _].
    destruct (copyFile h (Some src) p p w) as [e w1] eqn:Ec.
    simpl in He. subst e. simpl.
    destruct (copyFile_ok _ _ _ _ _ _ Hne Ec) as ((destInfo & info & Hd & Hs & Hsame) & _ & Hmono & Hdir).
    assert (syncedFile src (destFS w1) p) as Hp.
    { rewrite Stat_entryAt in Hd. destruct (entryAt (destFS w1) p) as [e|] eqn:Ee; [|done].
      injection Hd as <-. by exists e, info. }
    split; [done|split].
    + intros q (size & modTime & mode & Hq). exists size, modTime, mode.
      destruct (decide (q = p)) as [->|Hqp]; [by apply Hdir|by apply Hmono].
    + intros q (e & info' & Hq & Hs' & Hsame').
      destruct (decide (q = p)) as [->|Hqp]; [done|].
      exists e, info'. split; [by apply Hmono|done].
Qed.

(** On a destination where its entry is synced a step changes nothing. *)
Lemma syncStep_synced h src patterns p d fs c validPaths :
  recorded patterns (p, d) = true ->
  synced src fs p d ->
  syncStep h src patterns p d (mkWorld fs c, validPaths)
  = (None, (mkWorld fs c, {[p]} ∪ validPaths)).
Proof.
  intros Hr. pose proof (recorded_not_root _ _ _ Hr) as Hne.
  rewrite syncStep_recorded by done. unfold synced. destruct (isDir d).
  - intros (size & modTime & mode & Hp). simpl.
    unfold entryAt in Hp. destruct (nodeAt fs p) as [[|size' modTime' mode' entries]|] eqn:En;
      try done.
    by rewrite (MkdirAll_id h fs p _ _ _ _ _ En).
  - intros (e & info & Hp & Hs & Hsame).
    unfold entryAt in Hp. destruct (nodeAt fs p) as [d'|] eqn:En; [|done].
    injection Hp as <-. rewrite <- Info_entryOf in Hsame.
    by rewrite (copyFile_skip h (Some src) p p (mkWorld fs c) info d' Hne Hs En Hsame).
Qed.

(** *** The whole walk *)

Lemma recordedPaths_cons patterns x l :
  recordedPaths patterns (x :: l)
  = (if recorded patterns x then {[fst x]} else ∅) ∪ recordedPaths patterns l.
Proof.
  unfold recordedPaths. rewrite filter_cons.
  destruct (recorded patterns x); simpl; [done|set_solver].
Qed.

Lemma elem_of_recordedPaths patterns l p :
  p ∈ recordedPaths patterns l <-> exists d, (p, d) ∈ l /\ recorded patterns (p, d) = true.
Proof.
  unfold recordedPaths. rewrite elem_of_list_to_set, list_elem_of_fmap. split.
  - intros ([p' d] & -> & [??]%list_elem_of_filter). eauto.
  - intros (d & ? & ?). exists (p, d). split; [done|]. by apply list_elem_of_filter.
Qed.

Lemma runVisits_sync_any h src patterns l w validPaths err w' validPaths' :
  runVisits (syncStep h src patterns) l (w, validPaths) = (err, (w', validPaths')) ->
  validPaths' ⊆ validPaths ∪ recordedPaths patterns l
  /\ (forall q,
        (forall p, p ∈ recordedPaths patterns l -> ~ q `prefix_of` p) ->
        entryAt (destFS w') q = entryAt (destFS w) q)
  /\ (wellFormedRoot (destFS w) -> wellFormedRoot (destFS w')).
Proof.
  revert w validPaths. induction l as [|[p d] l IH]; intros w validPaths.
  - intros [= <- <- <-]. split; [set_solver|done].
  - cbn [runVisits]. rewrite recordedPaths_cons. cbn [fst].
    destruct (syncStep h src patterns p d (w, validPaths)) as [e [w1 V1]] eqn:Es.
    destruct (syncStep_any _ _ _ _ _ _ _ _ _ _ Es) as (HV & Hframe & Hwf).
    assert (V1 ⊆ validPaths ∪ (if recorded patterns (p, d) then {[p]} else ∅)) as HV1.
    { destruct HV as [->|[-> ->]]; set_solver. }
    assert (forall q,
              (forall p0, p0 ∈ (if recorded patterns (p, d) then {[p]} else ∅)
                                ∪ recordedPaths patterns l -> ~ q `prefix_of` p0) ->
              entryAt (destFS w1) q = entryAt (destFS w) q) as Hf1.
    { intros q Hq. destruct (recorded patterns (p, d)) eqn:Hr.
      - apply Hframe. apply Hq. set_solver.
      - rewrite syncStep_not_recorded in Es by done. by injection Es as _ <- _. }
    destruct e as [e|].
    + intros [= <- <- <-]. split; [set_solver|]. split; [|done].
      intros q Hq. by apply Hf1.
    + intros Hl. destruct (IH _ _ Hl) as (IH1 & IH2 & IH3). split; [set_solver|]. split.
      * intros q Hq. rewrite IH2; [by apply Hf1|]. intros p0 Hp0. apply Hq. set_solver.
      * intros ?. by apply IH3, Hwf.
Qed.

Lemma runVisits_sync_ok h src patterns l w validPaths w' validPaths' :
  runVisits (syncStep h src patterns) l (w, validPaths) = (None, (w', validPaths')) ->
  validPaths' = validPaths ∪ recordedPaths patterns l
  /\ (forall p d, (p, d) ∈ l -> recorded patterns (p, d) = true -> synced src (destFS w') p d)
  /\ (forall q, syncedDir (destFS w) q -> syncedDir (destFS w') q)
  /\ (forall q, syncedFile src (destFS w) q -> syncedFile src (destFS w') q).
Proof.
  revert w validPaths. induction l as [|[p d] l IH]; intros w validPaths.
  - intros [= <- <-]. split; [set_solver|]. split; [|done]. by intros p d ?%elem_of_nil.
  - cbn [runVisits]. rewrite recordedPaths_cons. cbn [fst].
    destruct (syncStep h src patterns p d (w, validPaths)) as [e [w1 V1]] eqn:Es.
    destruct e as [e|]; [done|]. intros Hl.
    destruct (IH _ _ Hl) as (IH1 & IH2 & IH3 & IH4).
    destruct (recorded patterns (p, d)) eqn:Hr.
    + destruct (syncStep_ok _ _ _ _ _ _ _ _ _ Hr Es) as (H1 & H2 & H3).
      rewrite syncStep_recorded in Es by done.
      assert (V1 = {[p]} ∪ validPaths) as -> by (by destruct (isDir d); injection Es as _ _ <-).
      split; [set_solver|]. split; [|split].
      * intros p0 d0 [[= -> ->]|Hin]%elem_of_cons Hr0; [|by apply IH2].
        unfold synced in *. destruct (isDir d); [by apply IH3|by apply IH4].
      * intros q Hq. by apply IH3, H2.
      * intros q Hq. by apply IH4, H3.
    + rewrite syncStep_not_recorded in Es by done. injection Es as <- <-.
      split; [set_solver|]. split; [|done].
      intros p0 d0 [[= -> ->]|Hin]%elem_of_cons Hr0; [congruence|by apply IH2].
Qed.

(** On a destination where every recorded entry is synced the walk changes
    nothing and copies nothing. *)
Lemma runVisits_sync_synced h src patterns l fs c validPaths :
  (forall p d, (p, d) ∈ l -> recorded patterns (p, d) = true -> synced src fs p d) ->
  runVisits (syncStep h src patterns) l (mkWorld fs c, validPaths)
  = (None, (mkWorld fs c, validPaths ∪ recordedPaths patterns l)).
Proof.
  revert validPaths. induction l as [|[p d] l IH]; intros validPaths Hl.
  - simpl. do 2 f_equal. set_solver.
  - cbn [runVisits]. rewrite recordedPaths_cons. cbn [fst].
    destruct (recorded patterns (p, d)) eqn:Hr.
    + rewrite syncStep_synced; [|done|apply Hl; [left|done]].
      rewrite IH by (intros ????; apply Hl; [by right|done]).
      do 2 f_equal. set_solver.
    + rewrite syncStep_not_recorded by done.
      rewrite IH by (intros ????; apply Hl; [by right|done]).
      do 2 f_equal. set_solver.
Qed.

End sync_facts.

(** ** [cleanOrphans] *)

Section clean_facts.

Import os filepath.
Implicit Types (d : node) (fs : root) (p q r t u a : path) (validPaths : gset path).

Lemma entryAt_is_None fs q : entryAt fs q = None <-> nodeAt fs q = None.
Proof. unfold entryAt. by destruct (nodeAt fs q). Qed.

Lemma nodeAt_prefix fs u q :
  u `prefix_of` q -> nodeAt fs q <> None -> nodeAt fs u <> None.
Proof.
  intros [k ->]. rewrite nodeAt_app. by destruct (nodeAt fs u).
Qed.

Lemma removeLoop_spec toRemove fs :
  (forall t, t ∈ toRemove -> nodeAt fs t <> None) ->
  (forall t u, t ∈ toRemove -> u ∈ toRemove -> t `prefix_of` u -> t = u) ->
  NoDup toRemove ->
  wellFormedRoot fs ->
  exists fs',
    removeLoop toRemove fs = (None, fs')
    /\ wellFormedRoot fs'
    /\ forall q,
        entryAt fs' q
        = if decide (Exists (fun t => t `prefix_of` q) toRemove) then None
          else entryAt fs q.
Proof.
  revert fs. induction toRemove as [|t toRemove IH]; intros fs Hex Hnest Hnd Hwf.
  - exists fs. split; [done|]. split; [done|]. intros q.
    rewrite decide_False; [done|]. by intros ?%Exists_nil.
  - apply NoDup_cons in Hnd as [Ht Hnd].
    destruct (nodeAt fs t) as [d|] eqn:Ed; [|by destruct (Hex t); [left|]].
    destruct (RemoveAll_ok fs t d Ed) as (fs1 & Hr & Hfs1).
    pose proof (RemoveAll_wellFormed fs t Hwf) as Hwf1. rewrite Hr in Hwf1. simpl in Hwf1.
    destruct (IH fs1) as (fs' & Hl & Hwf' & Hfs'); [| |done|done|].
    + intros u Hu. rewrite <- entryAt_is_None, Hfs1.
      rewrite bool_decide_eq_false_2.
      * rewrite entryAt_is_None. apply Hex. by right.
      * intros Hp. apply Ht. rewrite (Hnest t u); [done|left|by right|done].
    + intros u1 u2 ??. apply Hnest; by right.
    + exists fs'. cbn [removeLoop]. rewrite Hr. split; [done|]. split; [done|].
      intros q. rewrite Hfs', Hfs1.
      destruct (decide (Exists (fun t0 => t0 `prefix_of` q) toRemove)) as [He|He].
      * rewrite decide_True; [done|]. by apply Exists_cons_tl.
      * case_bool_decide as Hp.
        -- rewrite decide_True; [done|]. by apply Exists_cons_hd.
        -- rewrite decide_False; [done|]. by intros [?|?]%Exists_cons.
Qed.

Lemma prefixClosed_prefix validPaths q a :
  prefixClosed validPaths -> q ∈ validPaths -> a `prefix_of` q -> a <> [] ->
  a ∈ validPaths.
Proof.
  intros Hc Hq [k ->] Ha. induction k as [|name k IH] using rev_ind.
  - by rewrite app_nil_r in Hq.
  - rewrite app_assoc in Hq. destruct (Hc _ _ Hq) as [H0|Hin]; [|by apply IH].
    by apply app_eq_nil in H0 as [? _].
Qed.

(** Above an orphan there is a topmost one. *)
Lemma topmost_orphan validPaths q :
  prefixClosed validPaths -> q <> [] -> q ∉ validPaths ->
  exists u, u `prefix_of` q /\ u <> [] /\ (u ∉ validPaths)
            /\ forall a, a `prefix_of` u -> a <> u -> a = [] \/ a ∈ validPaths.
Proof.
  intros Hc. induction q as [|name q IH] using rev_ind; [done|]. intros _ Hq.
  assert (forall a, a `prefix_of` q ++ [name] -> a <> q ++ [name] -> a `prefix_of` q) as Hstrict.
  { intros a [k Hk] Ha. destruct k as [|x k _] using rev_ind.
    - rewrite app_nil_r in Hk. by subst.
    - rewrite app_assoc in Hk. apply app_inj_tail in Hk as [-> _]. by apply prefix_app_r. }
  destruct (decide (q = [])) as [->|Hne].
  { exists [name]. split; [done|]. split; [done|]. split; [done|].
    intros a Ha Hne. left. apply Hstrict in Ha; [|done]. by apply prefix_nil_inv. }
  destruct (decide (q ∈ validPaths)) as [Hin|Hnin].
  - exists (q ++ [name]). split; [done|]. split; [by destruct q|]. split; [done|].
    intros a Ha Hane. destruct (decide (a = [])) as [|Ha0]; [by left|]. right.
    eapply prefixClosed_prefix; [done..|by apply Hstrict|done].
  - destruct (IH Hne Hnin) as (u & Hu & ?). exists u. split; [|done].
    by apply prefix_app_r.
Qed.

(** What [cleanOrphans] leaves: the entries at the valid paths as they
    were, and nothing else below the root. *)
Lemma cleanOrphans_spec fs validPaths :
  wellFormedRoot fs -> prefixClosed validPaths ->
  exists fs',
    cleanOrphans fs validPaths = (None, fs')
    /\ wellFormedRoot fs'
    /\ forall q,
        entryAt fs' q
        = if decide (q = [] \/ q ∈ validPaths) then entryAt fs q else None.
Proof.
  intros Hwf Hc. destruct fs as [d|].
  2:{ exists None. split; [done|]. split; [done|]. intros q. by case_decide. }
  unfold cleanOrphans. change (Stat (Some d) []) with (Some (Info d)). cbv iota.
  rewrite scanOrphans_Some.
  set (toRemove := orphansOf validPaths (visits (orphanDir validPaths) [] d)).
  assert (forall t, t ∈ toRemove ->
            t <> [] /\ (t ∉ validPaths)
            /\ forall a, a `prefix_of` t -> a <> t -> a <> [] -> a ∈ validPaths) as Htop.
  { intros t Ht. apply (scanOrphans_topmost (Some d) validPaths).
    by rewrite scanOrphans_Some. }
  destruct (removeLoop_spec toRemove (Some d)) as (fs' & Hl & Hwf' & Hfs'); [| | |done|].
  - intros t (_ & _ & e & Hin)%elem_of_orphansOf.
    apply (visits_find _ _ _ _ _ Hwf) in Hin as (r & -> & Hr). simpl. by rewrite Hr.
  - intros t u Ht Hu Hp. destruct (decide (t = u)) as [|Hne]; [done|]. exfalso.
    destruct (Htop _ Ht) as (Ht0 & Htv & _). destruct (Htop _ Hu) as (_ & _ & Hu').
    apply Htv. by apply Hu'.
  - pose proof (scanOrphans_NoDup (Some d) validPaths Hwf) as Hnd.
    by rewrite scanOrphans_Some in Hnd.
  - exists fs'. split; [done|]. split; [done|]. intros q. rewrite Hfs'.
    destruct (decide (q = [] \/ q ∈ validPaths)) as [Hq|Hq].
    + rewrite decide_False; [done|]. intros (t & Ht & Hp)%Exists_exists.
      destruct (Htop _ Ht) as (Ht0 & Htv & _). destruct Hq as [->|Hq].
      * by apply prefix_nil_inv in Hp.
      * apply Htv. by eapply prefixClosed_prefix.
    + case_decide as He; [done|]. apply entryAt_is_None.
      destruct (nodeAt (Some d) q) as [e|] eqn:Eq; [|done]. exfalso. apply He.
      destruct (topmost_orphan validPaths q Hc) as (u & Hu & Hu0 & Huv & Hua);
        [by intros ->; apply Hq; left|by intros ?; apply Hq; right|].
      apply Exists_exists. exists u. split; [|done].
      destruct (nodeAt (Some d) u) as [eu|] eqn:Eu;
        [|by destruct (nodeAt_prefix (Some d) u q Hu); [rewrite Eq|]].
      apply elem_of_orphansOf. split; [done|]. split; [done|]. exists eu.
      apply (visits_reach (orphanDir validPaths) [] d u eu Eu).
      intros a e' Ha Hau _. unfold orphanDir. simpl.
      destruct (Hua a Ha Hau) as [->|Hav]; [done|].
      by rewrite (bool_decide_eq_true_2 (a ∈ validPaths)), andb_false_r.
Qed.

End clean_facts.

(** ** [sync]: exclusion, orphans and the second run *)

Section sync_claims.

Import os filepath.
Implicit Types (d : node) (fs : root) (p q r : path) (w : world)
  (validPaths : gset path) (patterns : list string).

Lemma visits_validNames skip src p d :
  wellFormed src -> (p, d) ∈ visits skip [] src ->
  find src p = Some d /\ Forall validName p.
Proof.
  intros [Hu Hv] Hin. apply (visits_find _ _ _ _ _ Hu) in Hin as (r & -> & Hr).
  split; [done|]. by apply (find_validNames src r d).
Qed.

(** The paths of a complete walk are closed under taking the directory
    above. *)
Lemma recordedPaths_prefixClosed src patterns :
  wellFormed src ->
  prefixClosed (recordedPaths patterns (visits (excludedDir patterns) [] src)).
Proof.
  intros Hwf p name (d & Hin & Hr)%elem_of_recordedPaths.
  destruct (decide (p = [])) as [|Hne]; [by left|]. right.
  destruct (visits_ancestor _ _ _ _ _ p Hin) as (e' & He' & Hsk & Hd);
    [apply prefix_nil|by apply prefix_app_r| |].
  { intros Hp. apply (f_equal length) in Hp. rewrite length_app in Hp. simpl in Hp. lia. }
  apply elem_of_recordedPaths. exists e'. split; [done|].
  destruct (visits_validNames _ _ _ _ Hwf He') as [_ Hnames].
  unfold excludedDir in Hsk. unfold recorded. simpl.
  rewrite (Rel_not_dot p Hne Hnames), Hd in *. simpl in Hsk. by rewrite Hsk.
Qed.

(** Nothing is recorded at or below a directory that the patterns
    exclude. *)
Lemma recordedPaths_excluded src patterns r d p :
  wellFormed src -> nodeAt (Some src) r = Some d -> isDir d = true -> r <> [] ->
  shouldExclude (Rel r) patterns true = true ->
  p ∈ recordedPaths patterns (visits (excludedDir patterns) [] src) ->
  ~ r `prefix_of` p.
Proof.
  intros Hwf Hr Hd Hne Hex (dp & Hin & Hrec)%elem_of_recordedPaths Hp.
  assert (Forall validName r) as Hnames.
  { destruct Hwf as [_ Hv]. by apply (find_validNames src r d). }
  pose proof (Rel_not_dot r Hne Hnames) as Hdot.
  destruct (decide (r = p)) as [<-|Hrp].
  - destruct (visits_validNames _ _ _ _ Hwf Hin) as [Hf _].
    simpl in Hr. rewrite Hr in Hf. injection Hf as <-.
    unfold recorded in Hrec. simpl in Hrec. by rewrite Hd, Hex, andb_false_r in Hrec.
  - destruct (visits_ancestor _ _ _ _ _ r Hin) as (e' & _ & Hsk & Hd');
      [apply prefix_nil|done..|].
    unfold excludedDir in Hsk. by rewrite Hdot, Hd', Hex in Hsk.
Qed.

Lemma syncWalk_ok h src w patterns w1 validPaths :
  wellFormed src -> wellFormedRoot (destFS w) ->
  syncWalk h src w patterns = (None, (w1, validPaths)) ->
  validPaths = recordedPaths patterns (visits (excludedDir patterns) [] src)
  /\ prefixClosed validPaths
  /\ wellFormedRoot (destFS w1)
  /\ forall p d, (p, d) ∈ visits (excludedDir patterns) [] src ->
                 recorded patterns (p, d) = true -> synced src (destFS w1) p d.
Proof.
  intros Hwf Hw. rewrite syncWalk_visits. intros Hrun.
  destruct (runVisits_sync_ok _ _ _ _ _ _ _ _ Hrun) as (HV & Hs & _).
  destruct (runVisits_sync_any _ _ _ _ _ _ _ _ _ Hrun) as (_ & _ & Hwf1).
  assert (validPaths = recordedPaths patterns (visits (excludedDir patterns) [] src)) as ->
    by set_solver.
  split; [done|]. split; [by apply recordedPaths_prefixClosed|]. split; [by apply Hwf1|done].
Qed.

(** [sync] is its walk, then [cleanOrphans]. *)
Lemma sync_unfold h src w patterns :
  sync h src w patterns
  = match syncWalk h src w patterns with
    | (Some e, (w1, _)) => (Some (Wrapped "walking source" [] e), w1)
    | (None, (w1, validPaths)) =>
        (fst (cleanOrphans (destFS w1) validPaths),
         mkWorld (snd (cleanOrphans (destFS w1) validPaths)) (copies w1))
    end.
Proof.
  unfold sync. destruct (syncWalk h src w patterns) as [[e|] [w1 validPaths]]; [done|].
  by destruct (cleanOrphans (destFS w1) validPaths).
Qed.

End sync_claims.

(** The trees of the examples are well formed. *)
Ltac solve_wellFormed :=
  repeat split; try solve_NoDup; try done;
  repeat (apply Forall_cons; split; [repeat split; done|]); try apply Forall_nil_2.

(** C1. For a directory of the source whose relative path [shouldExclude]
    excludes, the walk of [sync] records no path at or below it in
    [validPaths] and leaves the destination at and below the path as it
    was; after a [sync] that succeeds there is nothing at or below the
    path in the destination, whether or not the nested paths match a
    pattern themselves. *)
Theorem C1_excluded_directory_is_pruned
    (h : os.host) (src : os.node) (w : world) (patterns : list string)
    (r : os.path) (d : os.node) :
  os.wellFormed src ->
  os.nodeAt (Some src) r = Some d -> os.isDir d = true -> r <> [] ->
  shouldExclude (filepath.Rel r) patterns true = true ->
  (forall q, r `prefix_of` q -> q ∉ snd (snd (syncWalk h src w patterns)))
  /\ (forall q, r `prefix_of` q ->
        os.entryAt (destFS (fst (snd (syncWalk h src w patterns)))) q
        = os.entryAt (destFS w) q)
  /\ (os.wellFormedRoot (destFS w) ->
      forall w', sync h src w patterns = (None, w') ->
      forall q, r `prefix_of` q -> os.entryAt (destFS w') q = None).
Proof.
  intros Hwf Hr Hd Hne Hex.
  pose proof (fun p => recordedPaths_excluded src patterns r d p Hwf Hr Hd Hne Hex) as Hrec.
  destruct (syncWalk h src w patterns) as [err [w1 validPaths]] eqn:Hwalk.
  pose proof Hwalk as Hrun. rewrite syncWalk_visits in Hrun.
  destruct (runVisits_sync_any _ _ _ _ _ _ _ _ _ Hrun) as (HV & Hframe & _).
  assert (forall q, r `prefix_of` q -> q ∉ validPaths) as Hnot.
  { intros q Hq Hin. apply (Hrec q); [|done]. set_solver. }
  split; [done|]. split.
  - intros q Hq. simpl. apply Hframe. intros p Hp Hqp. apply (Hrec p Hp). by etrans.
  - intros Hw w' Hsync q Hq. rewrite sync_unfold, Hwalk in Hsync.
    destruct err as [e|]; [done|].
    destruct (syncWalk_ok _ _ _ _ _ _ Hwf Hw Hwalk) as (_ & Hc & Hw1 & _).
    destruct (cleanOrphans_spec (destFS w1) validPaths Hw1 Hc) as (fs' & Hclean & _ & Hfs').
    rewrite Hclean in Hsync. injection Hsync as <-. simpl. rewrite Hfs'.
    rewrite decide_False; [done|]. intros [->|Hin]; [|by apply (Hnot q)].
    by apply prefix_nil_inv in Hq.
Qed.

Lemma C1_excluded_directory_is_pruned_witness :
  shouldExclude "node_modules/lib.js" ["node_modules/"] false = false
  /\ (["node_modules"; "lib.js"] ∉
        snd (snd (syncWalk testHost excluded_src (mkWorld excluded_dest 0) ["node_modules/"])))
  /\ os.entryAt
       (destFS (snd (sync testHost excluded_src (mkWorld excluded_dest 0) ["node_modules/"])))
       ["node_modules"; "stale.js"] = None.
Proof.
  split; [vm_compute; reflexivity|].
  destruct (C1_excluded_directory_is_pruned testHost excluded_src (mkWorld excluded_dest 0)
              ["node_modules/"] ["node_modules"]
              (os.Dir 4096 101 493 [ ("lib.js", os.File "x" 102 420) ]))
    as (H1 & _ & H3);
    [solve_wellFormed | reflexivity | reflexivity | discriminate | vm_compute; reflexivity |].
  split.
  - apply H1. by exists ["lib.js"].
  - apply (H3 ltac:(solve_wellFormed)
              (snd (sync testHost excluded_src (mkWorld excluded_dest 0) ["node_modules/"])));
      [vm_compute; reflexivity | by exists ["stale.js"]].
Defined.

(** C2. After a walk of [sync] that completes, [cleanOrphans] returns
    without error, and so does [sync]; every path of the destination below
    the root that is not in [validPaths] is gone, a directory with all
    that was below it, and the entry at a path of [validPaths] is as the
    walk left it. *)
Theorem C2_orphans_are_removed
    (h : os.host) (src : os.node) (w w1 : world) (patterns : list string)
    (validPaths : gset os.path) :
  os.wellFormed src -> os.wellFormedRoot (destFS w) ->
  syncWalk h src w patterns = (None, (w1, validPaths)) ->
  exists fs',
    cleanOrphans (destFS w1) validPaths = (None, fs')
    /\ sync h src w patterns = (None, mkWorld fs' (copies w1))
    /\ os.entryAt fs' [] = os.entryAt (destFS w1) []
    /\ forall q, q <> [] ->
         os.entryAt fs' q
         = if decide (q ∈ validPaths) then os.entryAt (destFS w1) q else None.
Proof.
  intros Hwf Hw Hwalk.
  destruct (syncWalk_ok _ _ _ _ _ _ Hwf Hw Hwalk) as (_ & Hc & Hw1 & _).
  destruct (cleanOrphans_spec (destFS w1) validPaths Hw1 Hc) as (fs' & Hclean & _ & Hfs').
  exists fs'. split; [done|]. split; [by rewrite sync_unfold, Hwalk, Hclean|]. split.
  - rewrite Hfs'. rewrite decide_True; [done|by left].
  - intros q Hq. rewrite Hfs'. destruct (decide (q ∈ validPaths)) as [Hin|Hin].
    + rewrite decide_True; [done|by right].
    + rewrite decide_False; [done|]. by intros [?|?].
Qed.

Lemma C2_orphans_are_removed_witness :
  exists fs',
    sync testHost TestSyncRemovesOrphans_src (mkWorld orphanTree_dest 0) []
    = (None, mkWorld fs' 0)
    /\ os.entryAt fs' ["old"] = None
    /\ os.entryAt fs' ["old"; "deep"; "b.txt"] = None
    /\ os.entryAt fs' ["keep.txt"] = Some (os.FileEntry "keep" 100 420).
Proof.
  destruct (C2_orphans_are_removed testHost TestSyncRemovesOrphans_src
              (mkWorld orphanTree_dest 0)
              (fst (snd (syncWalk testHost TestSyncRemovesOrphans_src
                           (mkWorld orphanTree_dest 0) [])))
              [] {[ ["keep.txt"] ]})
    as (fs' & _ & Hsync & _ & Hq);
    [solve_wellFormed | solve_wellFormed | vm_compute; reflexivity |].
  assert (copies (fst (snd (syncWalk testHost TestSyncRemovesOrphans_src
                                  (mkWorld orphanTree_dest 0) []))) = 0%nat) as Hcopies
    by (vm_compute; reflexivity).
  rewrite Hcopies in Hsync.
  exists fs'. split; [exact Hsync|].
  rewrite !Hq by discriminate. repeat split.
Defined.

(** C3. When [sync] has succeeded, a second [sync] of the same source and
    patterns on the destination it left succeeds too, leaves that
    destination as it is, entry for entry and so time for time, and copies
    no file. *)
Theorem C3_sync_twice_is_sync_once
    (h h' : os.host) (src : os.node) (w w1 : world) (patterns : list string) :
  os.wellFormed src -> os.wellFormedRoot (destFS w) ->
  sync h src w patterns = (None, w1) ->
  sync h' src (mkWorld (destFS w1) 0) patterns = (None, mkWorld (destFS w1) 0).
Proof.
  intros Hwf Hw Hsync. rewrite sync_unfold in Hsync.
  destruct (syncWalk h src w patterns) as [[e|] [w0 validPaths]] eqn:Hwalk; [done|].
  destruct (syncWalk_ok _ _ _ _ _ _ Hwf Hw Hwalk) as (HV & Hc & Hw0 & Hsynced).
  destruct (cleanOrphans_spec (destFS w0) validPaths Hw0 Hc) as (fs1 & Hclean & Hwf1 & Hfs1).
  rewrite Hclean in Hsync. injection Hsync as <-. simpl.
  (* the second walk changes nothing *)
  assert (syncWalk h' src (mkWorld fs1 0) patterns = (None, (mkWorld fs1 0, validPaths))) as Hwalk2.
  { rewrite syncWalk_visits, runVisits_sync_synced.
    - do 2 f_equal. rewrite HV. set_solver.
    - intros p d Hin Hrec. specialize (Hsynced p d Hin Hrec).
      assert (p ∈ validPaths) as Hp.
      { rewrite HV. apply elem_of_recordedPaths. eauto. }
      unfold synced, syncedDir, syncedFile in *. rewrite Hfs1.
      by rewrite decide_True by (by right). }
  (* and the second scan finds no orphan *)
  rewrite sync_unfold, Hwalk2. simpl.
  destruct (cleanOrphans_spec fs1 validPaths Hwf1 Hc) as (fs2 & Hclean2 & _ & _).
  rewrite Hclean2. simpl. do 2 f_equal.
  destruct fs1 as [d1|]; [|by injection Hclean2].
  unfold cleanOrphans in Hclean2. change (os.Stat (Some d1) []) with (Some (os.Info d1)) in Hclean2.
  cbv iota in Hclean2. rewrite scanOrphans_Some in Hclean2.
  assert (orphansOf validPaths (filepath.visits (orphanDir validPaths) [] d1) = []) as Hnone.
  { apply elem_of_nil_inv. intros t (Ht0 & Htv & e & Hin)%elem_of_orphansOf.
    apply (visits_find _ _ _ _ _ Hwf1) in Hin as (r & -> & Hr). simpl in *.
    assert (os.entryAt (Some d1) r <> None) as Hex.
    { unfold os.entryAt. simpl. by rewrite Hr. }
    rewrite Hfs1 in Hex. rewrite decide_False in Hex; [done|]. by intros [?|?]. }
  rewrite Hnone in Hclean2. by injection Hclean2.
Qed.

Lemma C3_sync_twice_is_sync_once_witness :
  let w1 := snd (sync testHost TestSync_src (mkWorld TestSync_dest 0) ["*.log"]) in
  copies w1 = 2%nat
  /\ sync (os.mkHost 2000 4096) TestSync_src (mkWorld (destFS w1) 0) ["*.log"]
     = (None, mkWorld (destFS w1) 0).
Proof.
  split; [vm_compute; reflexivity|].
  apply (C3_sync_twice_is_sync_once testHost (os.mkHost 2000 4096) TestSync_src
           (mkWorld TestSync_dest 0));
    [solve_wellFormed | solve_wellFormed | vm_compute; reflexivity].
Defined.

(** ** [TestSync] and [TestSyncRemovesOrphans] on the model *)

Example TestSync :
  let '(err, w) := sync testHost TestSync_src (mkWorld TestSync_dest 0) ["*.log"]%string in
  err = None
  /\ os.entryAt (destFS w) ["file1.txt"]%string = Some (os.FileEntry "hello" 100 420)
  /\ os.entryAt (destFS w) ["subdir"; "file2.txt"]%string = Some (os.FileEntry "world" 103 420)
  /\ os.entryAt (destFS w) ["ignore.log"]%string = None
  /\ copies w = 2%nat.
Proof. vm_compute. repeat split. Qed.

Example TestSyncRemovesOrphans :
  let '(err, w) :=
    sync testHost TestSyncRemovesOrphans_src (mkWorld TestSyncRemovesOrphans_dest 0) [] in
  err = None
  /\ os.entryAt (destFS w) ["orphan.txt"]%string = None
  /\ os.entryAt (destFS w) ["keep.txt"]%string = Some (os.FileEntry "keep" 100 420).
Proof. vm_compute. repeat split. Qed.

(** ** [TestMatch] of Go's [path/filepath] on the model of [Match] *)

Example TestMatch :
  forallb (fun '(pattern, name, matched, bad) =>
             match filepath.Match pattern name with
             | (m, Some ErrBadPattern) => Bool.eqb m matched && bad
             | (m, None) => Bool.eqb m matched && negb bad
             | _ => false
             end)
          TestMatch_table = true.
Proof. vm_compute. reflexivity. Qed.

(** ** Literal patterns and star patterns *)

Section literal_facts.

Import filepath.
Local Open Scope nat_scope.
Local Arguments String.append !_ _ / : simpl nomatch.

Lemma literal_cons c s :
  literal (String c s) = true ->
  Ascii.eqb c "*" = false /\ Ascii.eqb c "?" = false /\ Ascii.eqb c "[" = false
  /\ Ascii.eqb c "\" = false /\ literal s = true.
Proof.
  simpl. intros [Hc ->]%andb_true_iff. apply negb_true_iff in Hc.
  apply orb_false_iff in Hc as [Hc ->]. apply orb_false_iff in Hc as [Hc ->].
  by apply orb_false_iff in Hc as [-> ->].
Qed.

Lemma HasPrefix_nil s : strings.HasPrefix s "" = true.
Proof. unfold strings.HasPrefix. by destruct s. Qed.

Lemma HasPrefix_cons c s c' p :
  strings.HasPrefix (String c s) (String c' p) = Ascii.eqb c c' && strings.HasPrefix s p.
Proof.
  unfold strings.HasPrefix. cbn [String.length strings.take String.eqb].
  change (S (String.length p) <=? S (String.length s)) with (String.length p <=? String.length s).
  by destruct (String.length p <=? String.length s), (Ascii.eqb c c').
Qed.

Lemma scanLoop_literal s inrange k :
  literal s = true -> scanLoop s inrange k = k + String.length s.
Proof.
  revert inrange k. induction s as [|c s IH]; intros inrange k; [simpl; lia|].
  intros (Hs & _ & Hb & He & Hl)%literal_cons. cbn [scanLoop String.length].
  rewrite He, Hb, Hs. destruct (Ascii.eqb c "]"); rewrite IH by done; lia.
Qed.

Lemma scanChunk_literal c s :
  literal (String c s) = true ->
  scanChunk (String c s) = (false, String c s, ""%string).
Proof.
  intros H. pose proof (literal_cons _ _ H) as (Hs & _).
  unfold scanChunk. cbn [skipStars]. rewrite Hs.
  rewrite scanLoop_literal by done. cbn [Nat.add].
  by rewrite take_ge, drop_ge by done.
Qed.

(** On a literal chunk, [matchChunk] compares bytes. *)
Lemma matchChunkLoop_literal fuel chunk s failed :
  literal chunk = true -> String.length chunk < fuel ->
  matchChunkLoop fuel chunk s failed
  = Some (if negb failed && strings.HasPrefix s chunk
          then (strings.drop (String.length chunk) s, true, None)
          else (""%string, false, None)).
Proof.
  revert fuel s failed. induction chunk as [|c chunk IH]; intros fuel s failed Hl Hf.
  - destruct fuel as [|fuel]; [lia|]. simpl. rewrite HasPrefix_nil. by destruct failed.
  - destruct fuel as [|fuel]; [simpl in Hf; lia|].
    apply literal_cons in Hl as (_ & Hq & Hb & He & Hl).
    cbn [matchChunkLoop]. rewrite Hb, Hq, He.
    destruct failed; cbn [orb negb andb].
    { rewrite IH by (simpl in Hf; done || lia). done. }
    destruct s as [|s0 s]; cbn [String.eqb].
    { rewrite IH by (simpl in Hf; done || lia). done. }
    rewrite IH by (simpl in Hf; done || lia).
    rewrite HasPrefix_cons, negb_involutive, Ascii.eqb_sym. done.
Qed.

Lemma matchChunk_literal chunk s :
  literal chunk = true ->
  matchChunk chunk s
  = Some (if strings.HasPrefix s chunk
          then (strings.drop (String.length chunk) s, true, None)
          else (""%string, false, None)).
Proof. intros H. unfold matchChunk. by rewrite matchChunkLoop_literal by (done || lia). Qed.

Lemma HasPrefix_drop_nil s p :
  strings.HasPrefix s p = true -> strings.drop (String.length p) s = ""%string -> s = p.
Proof.
  intros [t ->]%HasPrefix_true. rewrite drop_append. intros ->. apply append_nil_r.
Qed.

(** A literal pattern matches itself and nothing else. *)
Lemma Match_literal lit name :
  literal lit = true -> Match lit name = (String.eqb name lit, None).
Proof.
  intros Hl. unfold Match. destruct lit as [|c lit]; [by destruct name|].
  cbn [MatchLoop String.length]. change (String.eqb (String c lit) "") with false. cbv iota.
  rewrite scanChunk_literal by done. cbn [andb].
  rewrite matchChunk_literal by done.
  destruct (strings.HasPrefix name (String c lit)) eqn:Ep.
  - cbn [andb orb String.eqb negb]. rewrite orb_false_r.
    destruct (String.eqb_spec (strings.drop (String.length (String c lit)) name) "") as [Ed|Ed].
    + rewrite (HasPrefix_drop_nil _ _ Ep Ed). by rewrite String.eqb_refl.
    + destruct (String.eqb_spec name (String c lit)) as [->|]; [|done].
      destruct Ed. by rewrite <- (append_nil_r (String c lit)) at 2; rewrite drop_append.
  - cbn [andb]. destruct (String.eqb_spec name (String c lit)) as [->|]; [|done].
    rewrite <- (append_nil_r (String c lit)) in Ep at 1. by rewrite HasPrefix_append in Ep.
Qed.

Lemma Contains_cons c s :
  strings.Contains (String c s) "/" = Ascii.eqb c "/" || strings.Contains s "/".
Proof. apply Contains_separator. Qed.

Lemma Contains_app_false s t :
  strings.Contains (s +:+ t) "/" = false -> strings.Contains s "/" = false.
Proof.
  induction s as [|c s IH]; [done|]. cbn [String.append].
  rewrite !Contains_cons. intros [-> H]%orb_false_iff. by rewrite IH.
Qed.

(** The loop of [Match] after a star, on a last chunk that is literal: it
    finds the chunk at the end of the name, behind at least one byte and no
    separator. *)
Lemma starLoop_literal ext (k : string -> result) name :
  literal ext = true -> ext <> ""%string ->
  (forall t, k t = Some (String.eqb t "", None)) ->
  exists b,
    starLoop ext "" k (Some (false, None)) name = Some (b, None)
    /\ (b = true
        <-> exists pre, pre <> ""%string /\ name = pre +:+ ext
                        /\ strings.Contains pre "/" = false).
Proof.
  intros Hl Hne Hk. induction name as [|c name (b & IH & Hb)].
  { exists false. split; [done|]. split; [done|]. by intros ([|c0 pre0] & ? & ? & _). }
  cbn [starLoop]. change Separator with "/"%char.
  destruct (Ascii.eqb c "/") eqn:Ec.
  { exists false. split; [done|]. split; [done|].
    intros ([|c' pre] & ? & Hn & Hc); [done|]. injection Hn as <- _.
    rewrite Contains_cons, Ec in Hc. done. }
  assert ((exists pre, pre <> ""%string /\ String c name = pre +:+ ext
                       /\ strings.Contains pre "/" = false)
          <-> name = ext \/ b = true) as Hstep.
  { rewrite Hb. split.
    - intros ([|c' pre] & ? & Hn & Hc); [done|]. injection Hn as <- Hn.
      destruct pre as [|c'' pre]; [by left|right].
      exists (String c'' pre). rewrite Contains_cons, Ec in Hc. done.
    - intros [->|(pre & Hp & -> & Hc)].
      + exists (String c ""). repeat split; [done|]. by rewrite Contains_cons, Ec.
      + exists (String c pre). repeat split; [done|]. by rewrite Contains_cons, Ec. }
  rewrite matchChunk_literal by done.
  destruct (strings.HasPrefix name ext) eqn:Ep.
  - cbn [String.eqb andb].
    destruct (String.eqb_spec (strings.drop (String.length ext) name) "") as [Ed|Ed].
    + rewrite Ed, Hk. exists true. split; [done|]. rewrite Hstep. split; [|done].
      intros _. left. by apply HasPrefix_drop_nil.
    + cbn [negb]. exists b. split; [done|]. rewrite Hstep. split; [by right|].
      intros [->|]; [|done]. destruct Ed.
      by rewrite <- (append_nil_r ext) at 2; rewrite drop_append.
  - exists b. split; [done|]. rewrite Hstep. split; [by right|].
    intros [->|]; [|done].
    rewrite <- (append_nil_r ext) in Ep at 1. by rewrite HasPrefix_append in Ep.
Qed.

(** A star in front of a literal: the names that end with the literal and
    have no separator before it. *)
Lemma Match_star_literal ext name :
  literal ext = true ->
  snd (Match ("*" +:+ ext) name) = None
  /\ (fst (Match ("*" +:+ ext) name) = true
      <-> exists pre, name = pre +:+ ext /\ strings.Contains pre "/" = false).
Proof.
  intros Hl. unfold Match. change ("*" +:+ ext) with (String "*" ext).
  cbn [MatchLoop checkLoop String.length].
  change (String.eqb (String "*" ext) "") with false. cbv iota.
  destruct ext as [|c ext].
  { cbn. split; [done|]. rewrite negb_true_iff. split.
    - intros H. exists name. by rewrite append_nil_r.
    - intros (pre & -> & H). by rewrite append_nil_r. }
  assert (scanChunk (String "*" (String c ext)) = (true, String c ext, ""%string)) as ->.
  { pose proof (literal_cons _ _ Hl) as (Hs & _).
    unfold scanChunk. cbn [skipStars]. change (Ascii.eqb "*" "*") with true. cbv iota.
    rewrite Hs. cbn [snd]. rewrite scanLoop_literal by done. cbn [Nat.add].
    by rewrite take_ge, drop_ge by done. }
  cbn [andb String.eqb]. rewrite matchChunk_literal by done.
  destruct (strings.HasPrefix name (String c ext)) eqn:Ep.
  - cbn [andb negb]. rewrite orb_false_r.
    destruct (String.eqb_spec (strings.drop (String.length (String c ext)) name) "") as [Ed|Ed].
    + rewrite (HasPrefix_drop_nil _ _ Ep Ed).
      destruct (String.length ext); cbn; (split; [done|]); (split; [|done]);
        intros _; by exists ""%string.
    + destruct (starLoop_literal (String c ext)
                  (fun name0 => Some (String.eqb name0 "", None)) name Hl)
        as (b & -> & Hb); [done|done|].
      split; [done|]. cbn [fst]. rewrite Hb. split.
      * intros (pre & _ & ? & ?). eauto.
      * intros ([|c' pre] & Hn & Hc); [|by exists (String c' pre)].
        destruct Ed. rewrite Hn. cbn [String.append].
        by rewrite <- (append_nil_r (String c ext)) at 2; rewrite drop_append.
  - cbn [andb].
    destruct (starLoop_literal (String c ext)
                (fun name0 => Some (String.eqb name0 "", None)) name Hl)
      as (b & -> & Hb); [done|done|].
    split; [done|]. cbn [fst]. rewrite Hb. split.
    * intros (pre & _ & ? & ?). eauto.
    * intros ([|c' pre] & Hn & Hc); [|by exists (String c' pre)].
      rewrite Hn in Ep. cbn [String.append] in Ep.
      rewrite <- (append_nil_r (String c ext)) in Ep at 1. by rewrite HasPrefix_append in Ep.
Qed.

(** The pieces of [Split] hold no separator. *)
Lemma Split_no_separator_in s part :
  part ∈ strings.Split s "/" -> strings.Contains part "/" = false.
Proof.
  revert part. induction s as [|c s IH]; intros part; simpl.
  - by intros ->%list_elem_of_singleton.
  - destruct (Ascii.eqb c "/") eqn:Ec.
    + intros [->|H]%elem_of_cons; [done|by apply IH].
    + destruct (strings.Split s "/") as [|p ps] eqn:Es.
      * intros ->%list_elem_of_singleton. by rewrite Contains_cons, Ec.
      * intros [->|H]%elem_of_cons.
        -- rewrite Contains_cons, Ec. apply IH. by left.
        -- apply IH. by right.
Qed.

Lemma Base_nonempty s : Base s <> ""%string.
Proof.
  unfold Base. destruct (String.eqb s ""); [done|].
  by destruct (String.eqb (lastElement (stripTrailingSeparators s)) "") eqn:E;
    [|apply String.eqb_neq in E].
Qed.

(** The base of a path is one of its components, or the path is made of
    separators alone and the base is one separator. *)
Lemma Base_cases s :
  s <> ""%string ->
  Base s ∈ strings.Split s "/" \/ Base s = "/"%string.
Proof.
  intros Hs. destruct (String.eqb_spec (stripTrailingSeparators s) "") as [E|E].
  - right. unfold Base. rewrite E. by destruct (String.eqb_spec s "").
  - left. by apply Base_in_Split.
Qed.

Lemma shouldExcludeLoop_true relPath patterns isDir :
  shouldExcludeLoop relPath patterns isDir = true
  <-> exists pattern, pattern ∈ patterns /\ matchPattern relPath pattern isDir = true.
Proof.
  induction patterns as [|p patterns IH]; simpl.
  - split; [done|]. by intros (? & ?%elem_of_nil & _).
  - destruct (matchPattern relPath p isDir) eqn:E.
    + split; [|done]. intros _. exists p. split; [left|done].
    + rewrite IH. split.
      * intros (x & Hx & Hm). exists x. split; [by right|done].
      * intros (x & Hx & Hm). apply elem_of_cons in Hx as [->|Hx]; [congruence|eauto].
Qed.

End literal_facts.

Section pattern_facts.

Local Open Scope nat_scope.
Local Arguments String.append !_ _ / : simpl nomatch.

Lemma literal_drop n s : literal s = true -> literal (strings.drop n s) = true.
Proof.
  revert s. induction n as [|n IH]; intros [|c s]; try done.
  intros (_ & _ & _ & _ & H)%literal_cons. by apply IH.
Qed.

Lemma literal_no_double_star s : literal s = true -> strings.HasPrefix s "**/" = false.
Proof.
  destruct s as [|c s]; [done|]. intros (Hs & _)%literal_cons.
  change "**/"%string with (String "*" "*/"). by rewrite HasPrefix_cons, Hs.
Qed.

End pattern_facts.

Lemma matchPattern_plain_name (relPath lit : string) (isDir : bool) :
  literal lit = true -> strings.Contains lit "/" = false -> relPath <> ""%string ->
  matchPattern relPath lit isDir = true <-> lit ∈ strings.Split relPath "/".
Proof.
  intros Hl Hs Hne. rewrite matchPattern_no_separator by done.
  rewrite orb_true_iff, matchAnyPart_true, Match_literal by done. cbn [fst]. split.
  - intros [Eb%String.eqb_eq|(part & Hin & Hm)].
    + rewrite <- Eb in *. destruct (Base_cases relPath Hne) as [|E]; [done|].
      by rewrite E in Hs.
    + rewrite Match_literal in Hm by done. by apply String.eqb_eq in Hm as ->.
  - intros Hin. right. exists lit. split; [done|].
    rewrite Match_literal by done. apply String.eqb_refl.
Qed.

(** X1. A pattern that is a plain name (no metacharacter, no separator)
    excludes exactly the entries that have this name as one of their path
    components, at any depth, files and directories alike. *)
Theorem X1_plain_name_matches_any_component
    (relPath lit : string) (isDir : bool) :
  literal lit = true -> strings.Contains lit "/" = false -> relPath <> ""%string ->
  matchPattern relPath lit isDir = true <-> lit ∈ strings.Split relPath "/".
Proof. apply matchPattern_plain_name. Qed.

Lemma X1_plain_name_matches_any_component_witness :
  matchPattern "src/.git/config" ".git" false = true
  <-> ".git"%string ∈ strings.Split "src/.git/config" "/".
Proof.
  apply (X1_plain_name_matches_any_component "src/.git/config" ".git" false);
    [reflexivity | reflexivity | discriminate].
Defined.

(** X2. A pattern made of one star and a literal ending without separator,
    such as ["*.log"], excludes exactly the entries one of whose path
    components ends with the literal. *)
Theorem X2_star_pattern_matches_component_ending
    (relPath ext : string) (isDir : bool) :
  literal ext = true -> strings.Contains ext "/" = false -> relPath <> ""%string ->
  matchPattern relPath ("*" +:+ ext) isDir = true
  <-> exists part, part ∈ strings.Split relPath "/" /\ strings.HasSuffix part ext = true.
Proof.
  intros Hl Hs Hne.
  assert (forall part, part ∈ strings.Split relPath "/" ->
            fst (filepath.Match ("*" +:+ ext) part) = true
            <-> strings.HasSuffix part ext = true) as Hpart.
  { intros part Hin. rewrite (proj2 (Match_star_literal ext part Hl)), HasSuffix_true. split.
    - intros (pre & -> & _). by exists pre.
    - intros (pre & ->). exists pre. split; [done|].
      by eapply Contains_app_false, Split_no_separator_in. }
  rewrite matchPattern_no_separator
    by (change ("*" +:+ ext) with (String "*" ext); by rewrite Contains_cons).
  rewrite orb_true_iff, matchAnyPart_true. split.
  - intros [Hb|(part & Hin & Hm)].
    + destruct (Base_cases relPath Hne) as [Hin|E].
      * exists (filepath.Base relPath). split; [done|]. by apply Hpart.
      * rewrite E in Hb. apply (Match_star_literal ext "/" Hl) in Hb as (pre & Hp & Hc).
        destruct pre as [|c pre]; cbn [String.append] in Hp.
        -- change ("" +:+ ext) with ext in Hp. by rewrite <- Hp in Hs.
        -- injection Hp as <- _. by rewrite Contains_cons in Hc.
    + exists part. split; [done|]. by apply Hpart.
  - intros (part & Hin & Hm). right. exists part. split; [done|]. by apply Hpart.
Qed.

Lemma X2_star_pattern_matches_component_ending_witness :
  matchPattern "logs/2024/debug.log" "*.log" false = true
  <-> exists part, part ∈ strings.Split "logs/2024/debug.log" "/"
                   /\ strings.HasSuffix part ".log" = true.
Proof.
  apply (X2_star_pattern_matches_component_ending "logs/2024/debug.log" ".log" false);
    [reflexivity | reflexivity | discriminate].
Defined.

(** X3. A literal pattern with a separator inside names one path from the
    root of the tree: it excludes the entry at exactly that path (given
    with or without a leading separator) and no other, in particular no
    entry of the same name deeper in the tree. *)
Theorem X3_literal_path_matches_that_path_only
    (relPath pattern : string) (isDir : bool) :
  literal pattern = true -> strings.Contains pattern "/" = true ->
  strings.HasSuffix pattern "/" = false ->
  matchPattern relPath pattern isDir = true <-> relPath = strings.TrimPrefix pattern "/".
Proof.
  intros Hl Hc Hs. rewrite matchPattern_unfold. cbv zeta.
  unfold strings.TrimSuffix. rewrite Hs, literal_no_double_star, Hc by done.
  cbn [negb orb andb]. rewrite Match_literal.
  - cbn [fst]. apply String.eqb_eq.
  - unfold strings.TrimPrefix. destruct (strings.HasPrefix pattern "/"); [|done].
    by apply literal_drop.
Qed.

Lemma X3_literal_path_matches_that_path_only_witness :
  (matchPattern "build/output" "/build/output" true = true
   <-> "build/output"%string = strings.TrimPrefix "/build/output" "/")
  /\ (matchPattern "src/build/output" "/build/output" true = true
      <-> "src/build/output"%string = strings.TrimPrefix "/build/output" "/").
Proof.
  split.
  - apply (X3_literal_path_matches_that_path_only "build/output" "/build/output" true);
      reflexivity.
  - apply (X3_literal_path_matches_that_path_only "src/build/output" "/build/output" true);
      reflexivity.
Defined.

(** X4. [shouldExclude] is the disjunction of [matchPattern] over the
    list: a path is excluded exactly when some pattern of the list matches
    it, so neither the order of the patterns nor a repetition matters and
    a longer list never excludes less. *)
Theorem X4_shouldExclude_iff_some_pattern_matches
    (relPath : string) (patterns : list string) (isDir : bool) :
  shouldExclude relPath patterns isDir = true
  <-> exists pattern, pattern ∈ patterns /\ matchPattern relPath pattern isDir = true.
Proof.
  unfold shouldExclude. rewrite ToSlash_id. apply shouldExcludeLoop_true.
Qed.

(** ** [copyFile]: what it writes, when it fails *)

Section copy_facts.

Import os.
Local Open Scope nat_scope.

Lemma parent_snoc (p : path) name : parent (p ++ [name]) = p.
Proof. unfold parent. apply removelast_last. Qed.

Lemma entryAt_nodeAt fs q e :
  entryAt fs q = Some e <-> exists d, nodeAt fs q = Some d /\ entryOf d = e.
Proof.
  unfold entryAt. destruct (nodeAt fs q) as [d|]; [|by split; [|intros (? & ? & _)]].
  split; [intros [= <-]; eauto|]. by intros (? & [= <-] & <-).
Qed.

Lemma entryIsDir_entryOf d : entryIsDir (entryOf d) = isDir d.
Proof. by destruct d. Qed.

(** With the directory of the target there, the way down does not fail. *)
Lemma alterAt_fst_parent create f fs p name size modTime mode entries :
  nodeAt fs p = Some (Dir size modTime mode entries) ->
  fst (alterAt create f fs (p ++ [name])) = fst (f (nodeAt fs (p ++ [name]))).
Proof.
  revert fs. induction p as [|name' p IH]; intros fs Hd.
  - rewrite nodeAt_nil in Hd. subst fs. simpl.
    destruct (lookupEntry name entries) as [d1|]; [by destruct (f (Some d1))|].
    by destruct (f None).
  - destruct fs as [[data0 modTime0 mode0|size0 modTime0 mode0 entries0]|]; try done.
    rewrite nodeAt_cons_Dir in Hd. cbn [app].
    rewrite alterAt_cons_Dir, nodeAt_cons_Dir. cbn [fst]. by apply IH.
Qed.

(** A call that changes nothing when it fails leaves the tree as it was. *)
Lemma alterAt_error_id f fs p e :
  (forall o e, fst (f o) = Some e -> snd (f o) = o) ->
  fst (alterAt None f fs p) = Some e -> snd (alterAt None f fs p) = fs.
Proof.
  intros Hf. revert fs. induction p as [|name p IH]; intros fs; [apply Hf|].
  destruct fs as [[data0 modTime0 mode0|size0 modTime0 mode0 entries0]|]; try done.
  rewrite alterAt_cons_Dir. cbn [fst snd]. intros He.
  by rewrite (IH _ He), putEntry_same.
Qed.

(** [MkdirAll] keeps the entries that are there, whether it fails or not. *)
Lemma MkdirAll_preserves h fs p perm q e :
  entryAt fs q = Some e -> entryAt (snd (MkdirAll h fs p perm)) q = Some e.
Proof.
  unfold MkdirAll. revert fs q. induction p as [|name p IH]; intros fs q.
  - simpl. by destruct fs as [[]|].
  - destruct fs as [[data0 modTime0 mode0|size0 modTime0 mode0 entries0]|]; try done.
    rewrite alterAt_cons_Dir. cbn [snd]. destruct q as [|name' q]; [done|].
    rewrite !entryAt_cons_Dir, lookupEntry_putEntry.
    case_decide; [|done]. subst name'. apply IH.
Qed.

Lemma MkdirAll_parent_entry h fs dest perm fs1 :
  dest <> [] -> MkdirAll h fs (parent dest) perm = (None, fs1) ->
  entryAt fs1 dest = entryAt fs dest.
Proof.
  intros Hne Hm. destruct (MkdirAll_ok _ _ _ _ _ Hm) as [Hm1 _].
  rewrite Hm1. destruct (entryAt fs dest); [done|].
  rewrite bool_decide_eq_false_2; [done|].
  destruct (exists_last Hne) as (u & name & ->). rewrite parent_snoc.
  intros [k Hk]. apply (f_equal length) in Hk. rewrite !length_app in Hk. simpl in Hk. lia.
Qed.

(** The three writes of [copyFile] on a destination that is a regular file
    or missing, in a directory that is there. *)
Lemma copyFile_writes h fs1 dest data modTime mode perm :
  dest <> [] ->
  (exists size0 modTime0 mode0 entries0,
      nodeAt fs1 (parent dest) = Some (Dir size0 modTime0 mode0 entries0)) ->
  (forall e, entryAt fs1 dest = Some e -> entryIsDir e = false) ->
  exists fs2 fs3 fs4,
    OpenFile_create_trunc h fs1 dest perm = (None, fs2)
    /\ Copy h fs2 dest (File data modTime mode) = (None, fs3)
    /\ Chtimes fs3 dest modTime = (None, fs4)
    /\ entryAt fs4 dest
       = Some (FileEntry data modTime
                 (match entryAt fs1 dest with Some e => entryMode e | None => perm end))
    /\ forall q, q <> dest -> entryAt fs4 q = entryAt fs1 q.
Proof.
  intros Hne (size0 & modTime0 & mode0 & entries0 & Hp) Hfile.
  destruct (exists_last Hne) as (u & name & ->). rewrite parent_snoc in Hp.
  set (dest := u ++ [name]) in *.
  destruct (OpenFile_create_trunc h fs1 dest perm) as [e2 fs2] eqn:Ho.
  assert (e2 = None) as ->.
  { pose proof (alterAt_fst_parent None
        (fun d => match d with
                  | Some (Dir _ _ _ _) => (Some EISDIR, d)
                  | Some (File _ _ mode) => (None, Some (File EmptyString (now h) mode))
                  | None => (None, Some (File EmptyString (now h) perm))
                  end) fs1 u name _ _ _ _ Hp) as Hfst.
    unfold OpenFile_create_trunc in Ho. fold dest in Hfst. rewrite Ho in Hfst.
    cbn [fst] in Hfst. rewrite Hfst.
    destruct (nodeAt fs1 dest) as [[|size1 modTime1 mode1 entries1]|] eqn:E; try done.
    specialize (Hfile (DirEntry size1 modTime1 mode1)). unfold entryAt in Hfile.
    rewrite E in Hfile. by specialize (Hfile eq_refl). }
  pose proof Ho as Ho'. unfold OpenFile_create_trunc in Ho'.
  apply alterAt_None_ok in Ho' as [Ho1 Ho2].
  assert (exists mode', nodeAt fs2 dest = Some (File EmptyString (now h) mode')
            /\ mode' = match entryAt fs1 dest with Some e => entryMode e | None => perm end
            /\ forall r, r <> [] -> nodeAt fs1 (dest ++ r) = None)
    as (mode' & H2 & Hmode & Hbelow).
  { unfold entryAt. destruct (nodeAt fs1 dest) as [[data1 modTime1 mode1|]|] eqn:E; try done.
    - injection Ho1 as <-. exists mode1. repeat split.
      intros r Hr. rewrite nodeAt_app, E. by destruct r.
    - injection Ho1 as <-. exists perm. repeat split.
      intros r Hr. by rewrite nodeAt_app, E. }
  destruct (Copy h fs2 dest (File data modTime mode)) as [e3 fs3] eqn:Hc.
  assert (e3 = None) as ->.
  { unfold Copy in Hc. apply (f_equal fst) in Hc.
    by rewrite (alterAt_reaches _ _ _ _ _ H2) in Hc. }
  pose proof Hc as Hc'. unfold Copy in Hc'. apply alterAt_None_ok in Hc' as [Hc1 Hc2].
  rewrite H2 in Hc1. injection Hc1 as Hc1. symmetry in Hc1.
  destruct (Chtimes fs3 dest modTime) as [e4 fs4] eqn:Ht.
  assert (e4 = None) as ->.
  { unfold Chtimes in Ht. apply (f_equal fst) in Ht.
    by rewrite (alterAt_reaches _ _ _ _ _ Hc1) in Ht. }
  pose proof Ht as Ht'. unfold Chtimes in Ht'. apply alterAt_None_ok in Ht' as [Ht1 Ht2].
  rewrite Hc1 in Ht1. injection Ht1 as Ht1. symmetry in Ht1.
  exists fs2, fs3, fs4. repeat split; try done.
  - unfold entryAt at 1. rewrite Ht1. simpl. by rewrite Hmode.
  - intros q Hq. destruct (decide (dest `prefix_of` q)) as [[r ->]|Hnp].
    + assert (r <> []) as Hr by (intros ->; by rewrite app_nil_r in Hq).
      unfold entryAt. rewrite Hbelow, nodeAt_app, Ht1 by done. by destruct r.
    + by rewrite Ht2, Hc2, Ho2.
Qed.

Lemma prefix_parent (q dest : path) :
  q <> dest -> q `prefix_of` dest <-> q `prefix_of` parent dest.
Proof.
  intros Hne. destruct (decide (dest = [])) as [->|Hd].
  { split; [intros ?%prefix_nil_inv; by subst|done]. }
  destruct (exists_last Hd) as (u & name & ->). rewrite parent_snoc. split.
  - intros [k Hk]. destruct (decide (k = [])) as [->|Hk'].
    { rewrite app_nil_r in Hk. by subst. }
    destruct (exists_last Hk') as (k' & name' & ->).
    rewrite app_assoc in Hk. apply app_inj_tail in Hk as [-> _]. by exists k'.
  - intros H. etrans; [done|]. by apply prefix_app_r.
Qed.

(** [copyFile] of a regular file, step by step. *)
Lemma copyFile_File h srcFS src dest w data modTime mode :
  nodeAt srcFS src = Some (File data modTime mode) ->
  copyFile h srcFS src dest w
  = let '(err, fs) := MkdirAll h (destFS w) (parent dest) 493 in
    match err with
    | Some e => (Some e, mkWorld fs (copies w))
    | None =>
        if negb (rewritten data modTime mode (entryAt fs dest))
        then (None, mkWorld fs (copies w))
        else
          let '(err, fs) := OpenFile_create_trunc h fs dest mode in
          match err with
          | Some e => (Some e, mkWorld fs (copies w))
          | None =>
              let '(err, fs) := Copy h fs dest (File data modTime mode) in
              match err with
              | Some e => (Some e, mkWorld fs (S (copies w)))
              | None =>
                  let '(err, fs) := Chtimes fs dest modTime in
                  (err, mkWorld fs (S (copies w)))
              end
          end
    end.
Proof.
  intros Hs. unfold copyFile, Open, Stat. rewrite Hs.
  destruct (MkdirAll h (destFS w) (parent dest) 493) as [[e|] fs]; [done|].
  unfold rewritten, entryAt. destruct (nodeAt fs dest) as [d|]; [|done].
  cbn [option_map]. rewrite <- Info_entryOf.
  by destruct (sameFile (Info d) _).
Qed.

Lemma copyFile_result h srcFS src dest w w' data modTime mode :
  dest <> [] ->
  nodeAt srcFS src = Some (File data modTime mode) ->
  copyFile h srcFS src dest w = (None, w') ->
  entryAt (destFS w') dest = Some (copied data modTime mode (entryAt (destFS w) dest))
  /\ copies w'
     = copies w + (if rewritten data modTime mode (entryAt (destFS w) dest) then 1 else 0)
  /\ forall q, q <> dest ->
       entryAt (destFS w') q
       = match entryAt (destFS w) q with
         | Some e => Some e
         | None =>
             if bool_decide (q `prefix_of` dest)
             then Some (DirEntry (dirSize h) (now h) 493)
             else None
         end.
Proof.
  intros Hne Hs. rewrite (copyFile_File _ _ _ _ _ _ _ _ Hs).
  destruct (MkdirAll h (destFS w) (parent dest) 493) as [[e|] fs1] eqn:Hm; [done|].
  pose proof (MkdirAll_parent_entry _ _ _ _ _ Hne Hm) as Hdest.
  destruct (MkdirAll_ok _ _ _ _ _ Hm) as [Hm1 Hm2].
  assert (forall q, q <> dest ->
            entryAt fs1 q
            = match entryAt (destFS w) q with
              | Some e => Some e
              | None =>
                  if bool_decide (q `prefix_of` dest)
                  then Some (DirEntry (dirSize h) (now h) 493)
                  else None
              end) as Hframe.
  { intros q Hq. rewrite Hm1. destruct (entryAt (destFS w) q); [done|].
    by rewrite (bool_decide_ext _ _ (prefix_parent q dest Hq)). }
  rewrite Hdest.
  destruct (rewritten data modTime mode (entryAt (destFS w) dest)) eqn:Hr; cbn [negb].
  2:{ intros [= <-]. cbn [destFS copies]. rewrite Hdest. split; [|split; [lia|done]].
      unfold rewritten, copied in *. destruct (entryAt (destFS w) dest) as [e|]; [|done].
      apply negb_false_iff in Hr. by rewrite Hr. }
  intros Hcopy.
  assert (forall e, entryAt fs1 dest = Some e -> entryIsDir e = false) as Hfile.
  { intros e0 (d & Hd0 & <-)%entryAt_nodeAt. rewrite entryIsDir_entryOf.
    destruct (OpenFile_create_trunc h fs1 dest mode) as [e2 fs2] eqn:Ho.
    unfold OpenFile_create_trunc in Ho. apply (f_equal fst) in Ho.
    rewrite (alterAt_reaches _ _ _ _ _ Hd0) in Ho. cbn [fst] in Ho.
    destruct d; [done|]. by subst e2. }
  revert Hcopy.
  destruct (copyFile_writes h fs1 dest data modTime mode mode Hne Hm2 Hfile)
    as (fs2 & fs3 & fs4 & -> & -> & -> & H4 & Hother).
  intros [= <-]. cbn [destFS copies]. split; [|split; [lia|]].
  - rewrite H4, Hdest. unfold copied, rewritten in *.
    destruct (entryAt (destFS w) dest) as [e|]; [|done].
    apply negb_true_iff in Hr. by rewrite Hr.
  - intros q Hq. rewrite Hother by done. by apply Hframe.
Qed.

(** A failed copy of a regular file leaves the entries that were there. *)
Lemma copyFile_failure h srcFS src dest w w' data modTime mode err :
  dest <> [] ->
  nodeAt srcFS src = Some (File data modTime mode) ->
  copyFile h srcFS src dest w = (Some err, w') ->
  copies w' = copies w
  /\ forall q e, entryAt (destFS w) q = Some e -> entryAt (destFS w') q = Some e.
Proof.
  intros Hne Hs. rewrite (copyFile_File _ _ _ _ _ _ _ _ Hs).
  pose proof (fun q e => MkdirAll_preserves h (destFS w) (parent dest) 493 q e) as Hpres.
  destruct (MkdirAll h (destFS w) (parent dest) 493) as [[e1|] fs1] eqn:Hm.
  { intros [= _ <-]. by split. }
  cbn [snd] in Hpres. destruct (negb _); [done|].
  destruct (MkdirAll_ok _ _ _ _ _ Hm) as [_ Hm2].
  destruct (OpenFile_create_trunc h fs1 dest mode) as [[e2|] fs2] eqn:Ho.
  { intros [= _ <-]. split; [done|]. cbn [destFS].
    assert (fs2 = fs1) as ->; [|done].
    unfold OpenFile_create_trunc in Ho.
    pose proof (f_equal fst Ho) as Hfst. cbn [fst] in Hfst.
    apply alterAt_error_id in Hfst; [by rewrite Ho in Hfst|].
    intros [[]|] e; cbn; congruence. }
  assert (forall e, entryAt fs1 dest = Some e -> entryIsDir e = false) as Hfile.
  { intros e0 (d & Hd0 & <-)%entryAt_nodeAt. rewrite entryIsDir_entryOf.
    unfold OpenFile_create_trunc in Ho. apply (f_equal fst) in Ho.
    rewrite (alterAt_reaches _ _ _ _ _ Hd0) in Ho. by destruct d. }
  destruct (copyFile_writes h fs1 dest data modTime mode mode Hne Hm2 Hfile)
    as (fs2' & fs3 & fs4 & Ho' & Hc & Ht & _).
  rewrite Ho in Ho'. injection Ho' as <-. by rewrite Hc, Ht.
Qed.

(** Whatever the source is and whatever [copyFile] returns, it removes no
    entry and changes none but the one at its destination. *)
Lemma copyFile_keeps h srcFS src dest w err w' :
  dest <> [] ->
  copyFile h srcFS src dest w = (err, w') ->
  forall q e, entryAt (destFS w) q = Some e ->
    entryAt (destFS w') q <> None
    /\ (q <> dest -> entryAt (destFS w') q = Some e).
Proof.
  intros Hne Hcopy q e Hq.
  destruct (nodeAt srcFS src) as [[data modTime mode|size modTime mode entries]|] eqn:Hs.
  - (* a regular file *)
    destruct err as [err|].
    + destruct (copyFile_failure _ _ _ _ _ _ _ _ _ _ Hne Hs Hcopy) as [_ Hkeep].
      rewrite (Hkeep _ _ Hq). by split.
    + destruct (copyFile_result _ _ _ _ _ _ _ _ _ Hne Hs Hcopy) as (Hdest & _ & Hframe).
      destruct (decide (q = dest)) as [->|Hqd]; [by rewrite Hdest|].
      rewrite (Hframe q Hqd), Hq. by split.
  - (* a directory: the destination is opened and cut, then the read fails *)
    unfold copyFile, Open, Stat in Hcopy. rewrite Hs in Hcopy.
    pose proof (MkdirAll_preserves h (destFS w) (parent dest) 493 q e Hq) as Hq1.
    destruct (MkdirAll h (destFS w) (parent dest) 493) as [[e1|] fs1] eqn:Hm.
    { injection Hcopy as _ <-. cbn [destFS snd] in *. rewrite Hq1. by split. }
    cbn [snd] in Hq1.
    destruct (match _ with Some destInfo => _ | None => false end).
    { injection Hcopy as _ <-. cbn [destFS]. rewrite Hq1. by split. }
    cbn [Info Mode] in Hcopy.
    destruct (OpenFile_create_trunc h fs1 dest mode) as [[e2|] fs2] eqn:Ho.
    { injection Hcopy as _ <-. cbn [destFS].
      assert (fs2 = fs1) as ->; [|rewrite Hq1; by split].
      unfold OpenFile_create_trunc in Ho.
      pose proof (f_equal fst Ho) as Hfst. cbn [fst] in Hfst.
      apply alterAt_error_id in Hfst; [by rewrite Ho in Hfst|].
      intros [[]|] e0; cbn; congruence. }
    cbn [Copy] in Hcopy. injection Hcopy as _ <-. cbn [destFS].
    unfold OpenFile_create_trunc in Ho. apply alterAt_None_ok in Ho as [Ho1 Ho2].
    destruct (decide (dest `prefix_of` q)) as [[r ->]|Hnp].
    + destruct (decide (r = [])) as [->|Hr].
      * rewrite app_nil_r. split; [|done]. unfold entryAt.
        destruct (nodeAt fs1 dest) as [[]|], (nodeAt fs2 dest); simplify_eq; done.
      * exfalso. unfold entryAt in Hq1. rewrite nodeAt_app in Hq1.
        destruct (nodeAt fs1 dest) as [[]|]; simplify_eq; by destruct r.
    + rewrite (Ho2 q Hnp), Hq1. by split.
  - (* nothing: [os.Stat] fails *)
    unfold copyFile, Stat in Hcopy. rewrite Hs in Hcopy.
    injection Hcopy as _ <-. rewrite Hq. by split.
Qed.

End copy_facts.

(** X5. When [copyFile] returns [nil] for a regular source file, the
    destination path holds either the entry that was there, untouched,
    when its size and modification time are those of the source, or a
    regular file with the bytes and the modification time of the source
    (under the permission bits of the file it replaces, or of the source
    when the file is new), and one copy is counted in the second case
    only.  Every other entry is as before, apart from missing directories
    above the destination, which are made with mode 0755. *)
Theorem X5_copyFile_leaves_source_bytes
    (h : os.host) (srcFS : os.root) (src dest : os.path) (w w' : world)
    (data : string) (modTime mode : Z) :
  dest <> [] ->
  os.nodeAt srcFS src = Some (os.File data modTime mode) ->
  copyFile h srcFS src dest w = (None, w') ->
  os.entryAt (destFS w') dest = Some (copied data modTime mode (os.entryAt (destFS w) dest))
  /\ copies w'
     = (copies w + (if rewritten data modTime mode (os.entryAt (destFS w) dest) then 1 else 0))%nat
  /\ forall q, q <> dest ->
       os.entryAt (destFS w') q
       = match os.entryAt (destFS w) q with
         | Some e => Some e
         | None =>
             if bool_decide (q `prefix_of` dest)
             then Some (os.DirEntry (os.dirSize h) (os.now h) 493)
             else None
         end.
Proof. apply copyFile_result. Qed.

Lemma X5_copyFile_leaves_source_bytes_witness :
  let src := Some (os.Dir 4096 900 493 [("f.txt", os.File "hello" 100 420)]) in
  let w := mkWorld (Some (os.Dir 4096 900 448 [("a", os.Dir 4096 10 448 [("f.txt", os.File "old" 50 384)])])) 0 in
  let w' := snd (copyFile testHost src ["f.txt"] ["a"; "f.txt"] w) in
  os.entryAt (destFS w') ["a"; "f.txt"] = Some (os.FileEntry "hello" 100 384)
  /\ copies w' = 1%nat.
Proof.
  intros src w w'.
  destruct (X5_copyFile_leaves_source_bytes testHost src ["f.txt"] ["a"; "f.txt"] w w'
              "hello" 100 420) as (H1 & H2 & _);
    [discriminate | reflexivity | reflexivity |].
  split; [exact H1 | exact H2].
Defined.

(** X6. [copyFile] never replaces a directory: with a directory at the
    destination path it fails with [EISDIR] and changes nothing, unless
    the size and the modification time the directory reports are those of
    the source file; then it returns [nil], and has not copied. *)
Theorem X6_copyFile_onto_directory
    (h : os.host) (srcFS : os.root) (src dest : os.path) (w : world)
    (data : string) (modTime mode size dmodTime dmode : Z)
    (entries : list (string * os.node)) :
  dest <> [] ->
  os.nodeAt srcFS src = Some (os.File data modTime mode) ->
  os.nodeAt (destFS w) dest = Some (os.Dir size dmodTime dmode entries) ->
  copyFile h srcFS src dest w
  = ((if (size =? Z.of_nat (String.length data)) && (dmodTime =? modTime)
      then None else Some EISDIR), w).
Proof.
  intros Hne Hs Hd. rewrite (copyFile_File _ _ _ _ _ _ _ _ Hs).
  destruct (exists_last Hne) as (u & name & ->). rewrite parent_snoc.
  destruct (nodeAt_parent_Dir _ _ _ _ Hd) as (size0 & modTime0 & mode0 & entries0 & Hu & _).
  rewrite (MkdirAll_id _ _ _ _ _ _ _ _ Hu).
  unfold rewritten, os.entryAt. rewrite Hd. cbn [os.entryOf entryInfo negb].
  rewrite negb_involutive. unfold sameFile. cbn [os.Size os.ModTime os.Info].
  destruct w as [fs c]. cbn [destFS copies] in *.
  destruct ((size =? _) && (dmodTime =? modTime)); [done|].
  unfold os.OpenFile_create_trunc.
  by rewrite (alterAt_id _ _ _ _ _ (Some EISDIR) Hd).
Qed.

Lemma X6_copyFile_onto_directory_witness :
  let src := Some (os.Dir 4096 900 493 [("f", os.File "hello" 100 420)]) in
  let w := mkWorld (Some (os.Dir 4096 900 448 [("f", os.Dir 4096 10 448 [])])) 0 in
  copyFile testHost src ["f"] ["f"] w = (Some EISDIR, w).
Proof.
  intros src w.
  apply (X6_copyFile_onto_directory testHost src ["f"] ["f"] w "hello" 100 420 4096 10 448 []);
    [discriminate | reflexivity | reflexivity].
Defined.

(** X7. [copyFile] removes nothing and touches one path.  Whatever the
    source is (a regular file, a directory, nothing at all) and whatever
    the call returns, every entry of the destination at a path other than
    [dest] is as it was, and the path [dest] still has an entry if it had
    one: a call that fails after the destination file has been cut leaves
    that file in place. *)
Theorem X7_copyFile_removes_nothing
    (h : os.host) (srcFS : os.root) (src dest : os.path) (w w' : world)
    (err : option error) :
  dest <> [] ->
  copyFile h srcFS src dest w = (err, w') ->
  forall q e, os.entryAt (destFS w) q = Some e ->
    os.entryAt (destFS w') q <> None
    /\ (q <> dest -> os.entryAt (destFS w') q = Some e).
Proof. apply copyFile_keeps. Qed.

Lemma X7_copyFile_removes_nothing_witness :
  let src := Some (os.Dir 4096 900 493 [("f", os.Dir 4096 50 493 [])]) in
  let w := mkWorld (Some (os.Dir 4096 900 448
                            [("f", os.File "old" 10 420); ("g", os.File "keep" 10 420)])) 0 in
  let w' := snd (copyFile testHost src ["f"] ["f"] w) in
  fst (copyFile testHost src ["f"] ["f"] w) = Some EISDIR
  /\ os.entryAt (destFS w') ["f"] = Some (os.FileEntry "" 1000 420)
  /\ os.entryAt (destFS w') ["g"] = Some (os.FileEntry "keep" 10 420).
Proof.
  intros src w w'. split; [reflexivity|]. split; [reflexivity|].
  apply (X7_copyFile_removes_nothing testHost src ["f"] ["f"] w w' (Some EISDIR)
           ltac:(discriminate) eq_refl ["g"] (os.FileEntry "keep" 10 420) eq_refl).
  discriminate.
Defined.

(** ** [sync]: what a successful run leaves, and what a failed one keeps *)

Section sync_facts.

Import os filepath.
Implicit Types (d : node) (fs : root) (p q r : path) (w : world)
  (validPaths : gset path) (patterns : list string).
Local Open Scope nat_scope.

Lemma parentsFirst_app (l1 l2 : list (path * node)) :
  parentsFirst (l1 ++ l2)
  <-> parentsFirst l1 /\ parentsFirst l2
      /\ forall x y, x ∈ l1 -> y ∈ l2 -> ~ fst y `prefix_of` fst x.
Proof.
  induction l1 as [|a l1 IH]; simpl.
  - split; [intros H; repeat split; [done|]; by intros ?? ?%elem_of_nil|tauto].
  - rewrite IH. split.
    + intros (Ha & H1 & H2 & H12). repeat split; try done.
      * intros y Hy. apply Ha, elem_of_app. by left.
      * intros x y [->|Hx]%elem_of_cons Hy; [|by apply H12].
        apply Ha, elem_of_app. by right.
    + intros ((Ha & H1) & H2 & H12). repeat split; try done.
      * intros y [Hy|Hy]%elem_of_app; [by apply Ha|]. apply H12; [left|done].
      * intros x y Hx Hy. apply H12; [by right|done].
Qed.

Lemma visits_below skip p (entries : list (string * node)) x :
  x ∈ (fix loop (dirs : list (string * node)) : list (path * node) :=
         match dirs with
         | [] => []
         | (name, d1) :: dirs' => visits skip (p ++ [name]) d1 ++ loop dirs'
         end) entries ->
  exists name r, name ∈ map fst entries /\ fst x = p ++ name :: r.
Proof.
  induction entries as [|[name d1] entries IHe]; [by intros ?%elem_of_nil|].
  intros [Hx|Hx]%elem_of_app.
  - destruct x as [q e]. apply visits_prefix in Hx as [r ->]. exists name, r.
    split; [left|by rewrite <- app_assoc].
  - destruct (IHe Hx) as (name' & r & ? & ->). exists name', r. split; [by right|done].
Qed.

(** A walk visits a directory before the entries below it. *)
Lemma visits_parentsFirst skip p d : uniqueNames d -> parentsFirst (visits skip p d).
Proof.
  revert p. induction d as [|size modTime mode entries IH] using node_induction; intros p Hu.
  - cbn [visits]. destruct (skip p _); simpl; (split; [by intros ? ?%elem_of_nil|done]).
  - cbn [visits]. destruct (skip p _); cbn [parentsFirst].
    { split; [by intros ? ?%elem_of_nil|done]. }
    apply everyDir_Dir in Hu as [Hnd Hall]. split.
    { intros y (name & r & _ & Hy)%visits_below. cbn [fst]. rewrite Hy.
      intros [k Hk]. apply (f_equal length) in Hk. rewrite !length_app in Hk.
      simpl in Hk. lia. }
    induction entries as [|[name d1] entries IHe]; [done|].
    simpl in Hnd. apply NoDup_cons in Hnd as [Hname Hnd].
    apply Forall_cons in IH as [IH1 IH]. apply Forall_cons in Hall as [Hd1 Hall].
    apply parentsFirst_app. split; [by apply IH1|]. split; [by apply IHe|].
    intros [q e] y Hx (name' & r' & Hn' & Hy)%visits_below.
    apply visits_prefix in Hx as [r ->]. cbn [fst]. rewrite Hy.
    rewrite <- app_assoc. intros Hp%prefix_app_inv. cbn [app] in Hp.
    apply prefix_cons_inv_1 in Hp. by subst.
Qed.

(** In a list that comes parents first, what is above an entry comes
    before it. *)
Lemma parentsFirst_before (l1 l2 : list (path * node)) x y :
  parentsFirst (l1 ++ x :: l2) -> y ∈ l1 ++ x :: l2 ->
  fst y `prefix_of` fst x -> fst y <> fst x -> y ∈ l1.
Proof.
  intros (_ & [Hx _] & _)%parentsFirst_app [Hy|Hy]%elem_of_app Hp Hne; [done|].
  apply elem_of_cons in Hy as [->|Hy]; [done|]. by destruct (Hx y Hy).
Qed.

Lemma seq_take_prefixes q u :
  u `prefix_of` q /\ u <> [] <-> exists n, n ∈ seq 1 (length q) /\ u = take n q.
Proof.
  split.
  - intros [[k ->] Hne]. exists (length u). split.
    + apply elem_of_seq. rewrite length_app. destruct u; [done|simpl; lia].
    + by rewrite take_app_length.
  - intros (n & [Hn1 Hn2]%elem_of_seq & ->). split.
    + apply prefix_take.
    + intros Ht. apply (f_equal length) in Ht. rewrite list.length_take in Ht. simpl in Ht. lia.
Qed.

(** The entries [sync] brings over, in terms of the tree. *)
Lemma kept_Some patterns src q d :
  kept patterns src q = Some d
  <-> find src q = Some d
      /\ forall u e, u `prefix_of` q -> u <> [] -> find src u = Some e ->
                     shouldExclude (Rel u) patterns (isDir e) = false.
Proof.
  unfold kept. destruct (find src q) as [d'|]; [|by split; [|intros [? _]]].
  destruct (forallb _ _) eqn:E.
  - rewrite forallb_forall in E. split; [|by intros [? _]].
    intros [= <-]. split; [done|]. intros u e Hu Hne He.
    destruct (proj1 (seq_take_prefixes q u) (conj Hu Hne)) as (n & Hn & ->).
    apply list_elem_of_In, E in Hn. rewrite He in Hn. by apply negb_true_iff.
  - split; [done|]. intros [_ H]. apply not_true_iff_false in E. destruct E.
    apply forallb_forall. intros n Hn%list_elem_of_In.
    destruct (find src (take n q)) as [e|] eqn:He; [|done].
    apply negb_true_iff, H; [|  |done].
    + apply prefix_take.
    + apply (seq_take_prefixes q). eauto.
Qed.

Lemma kept_visits patterns src q d :
  wellFormed src -> q <> [] ->
  kept patterns src q = Some d
  <-> (q, d) ∈ visits (excludedDir patterns) [] src /\ recorded patterns (q, d) = true.
Proof.
  intros Hwf Hq. rewrite kept_Some. split.
  - intros [Hf Hex]. split.
    + apply (visits_reach (excludedDir patterns) [] src q d Hf).
      intros u e' Hu Hne Hfu. cbn [app]. unfold excludedDir.
      destruct (decide (u = [])) as [->|Hne']; [done|].
      destruct (isDir e') eqn:Hd; [|by rewrite andb_false_r].
      rewrite <- Hd, (Hex u e' Hu Hne' Hfu). by rewrite andb_false_r.
    + unfold recorded. cbn [fst snd]. rewrite (Hex q d); [|done..].
      destruct Hwf as [_ Hv]. destruct (find_validNames src q d Hv Hf) as [Hn _].
      by rewrite (Rel_not_dot q Hq Hn).
  - intros [Hin Hrec]. destruct (visits_validNames _ _ _ _ Hwf Hin) as [Hf _].
    split; [done|]. intros u e Hu Hne He.
    destruct (decide (u = q)) as [->|Huq].
    + rewrite Hf in He. injection He as <-. unfold recorded in Hrec. cbn [fst snd] in Hrec.
      apply andb_true_iff in Hrec as [_ Hrec]. by apply negb_true_iff.
    + destruct (visits_ancestor _ _ _ _ _ u Hin) as (e' & He' & Hsk & Hd);
        [apply prefix_nil|done..|].
      destruct (visits_validNames _ _ _ _ Hwf He') as [Hf' Hn].
      rewrite Hf' in He. injection He as <-.
      unfold excludedDir in Hsk. rewrite (Rel_not_dot u Hne Hn), Hd in Hsk.
      by rewrite Hd.
Qed.

(** One step of the walk on an entry that [sync] brings over. *)
Lemma syncStep_entry h src patterns q d w validPaths w' validPaths' :
  recorded patterns (q, d) = true -> find src q = Some d ->
  syncStep h src patterns q d (w, validPaths) = (None, (w', validPaths')) ->
  entryAt (destFS w') q = Some (brought h d (entryAt (destFS w) q))
  /\ exists perm, forall q', q' <> q ->
        entryAt (destFS w') q'
        = match entryAt (destFS w) q' with
          | Some e => Some e
          | None =>
              if bool_decide (q' `prefix_of` q)
              then Some (DirEntry (dirSize h) (now h) perm)
              else None
          end.
Proof.
  intros Hrec Hf. pose proof (recorded_not_root _ _ _ Hrec) as Hq.
  rewrite syncStep_recorded by done. destruct d as [data modTime mode|size modTime mode entries].
  - cbn [isDir Info IsDir]. destruct (copyFile h (Some src) q q w) as [e w2] eqn:Hc.
    cbn [fst snd]. intros [= -> <- _].
    destruct (copyFile_result h (Some src) q q w w2 data modTime mode Hq Hf Hc)
      as (H1 & _ & H3).
    split; [done|]. by exists 493%Z.
  - cbn [isDir Info IsDir Mode]. destruct (MkdirAll h (destFS w) q mode) as [e fs'] eqn:Hm.
    cbn [fst snd]. intros [= -> <- _]. cbn [destFS].
    destruct (MkdirAll_ok _ _ _ _ _ Hm) as [Hm1 _]. split.
    + rewrite Hm1. cbn [brought]. destruct (entryAt (destFS w) q); [done|].
      by rewrite bool_decide_eq_true_2.
    + exists mode. intros q' _. apply Hm1.
Qed.

(** The entries of a successful walk: each entry brought over is at its
    path as [brought] tells, from what the destination had there at the
    start. *)
Lemma runVisits_sync_entries h src patterns l w validPaths w1 validPaths1 :
  parentsFirst l ->
  (forall q d, (q, d) ∈ l -> find src q = Some d) ->
  runVisits (syncStep h src patterns) l (w, validPaths) = (None, (w1, validPaths1)) ->
  (forall q d, (q, d) ∈ l -> recorded patterns (q, d) = true ->
               entryAt (destFS w1) q = Some (brought h d (entryAt (destFS w) q)))
  /\ (forall e, entryAt (destFS w1) [] = Some e ->
                entryIsDir e = true \/ entryAt (destFS w) [] = Some e).
Proof.
  revert w1 validPaths1. induction l as [|[q d] l IH] using rev_ind; intros w1 validPaths1.
  { intros _ _ [= <- _]. split; [by intros ?? ?%elem_of_nil|]. intros e He. by right. }
  intros (Hl & _ & Hlast)%parentsFirst_app Hfind. rewrite runVisits_app.
  destruct (runVisits (syncStep h src patterns) l (w, validPaths))
    as [[e|] [wm validPathsm]] eqn:Hrun; [done|].
  destruct (IH wm validPathsm Hl) as [IH1 IH2]; [|done|].
  { intros q' d' Hin. apply Hfind, elem_of_app. by left. }
  assert (entryAt (destFS wm) q = entryAt (destFS w) q) as Hsame.
  { destruct (runVisits_sync_any _ _ _ _ _ _ _ _ _ Hrun) as (_ & Hframe & _).
    apply Hframe. intros p (dp & Hp & _)%elem_of_recordedPaths.
    apply (Hlast (p, dp) (q, d)); [done|left]. }
  cbn [runVisits].
  destruct (syncStep h src patterns q d (wm, validPathsm)) as [[e|] [w2 validPaths2]] eqn:Hstep;
    [done|].
  intros [= <- <-]. destruct (recorded patterns (q, d)) eqn:Hrec.
  - destruct (syncStep_entry _ _ _ _ _ _ _ _ _ Hrec (Hfind q d ltac:(set_solver)) Hstep)
      as [Hq (perm & Hother)].
    split.
    + intros q' d' [Hin|[= -> ->]%list_elem_of_singleton]%elem_of_app Hrec'.
      * assert (q' <> q) as Hne.
        { intros ->. by apply (Hlast (q, d') (q, d)); [|left|]. }
        rewrite (Hother q' Hne), (IH1 q' d' Hin Hrec'). done.
      * by rewrite Hq, Hsame.
    + intros e. rewrite (Hother [] ltac:(by intros <-; apply recorded_not_root in Hrec)).
      destruct (entryAt (destFS wm) []) as [e0|] eqn:E0.
      * intros [= <-]. by apply IH2.
      * rewrite bool_decide_eq_true_2 by apply prefix_nil. intros [= <-]. by left.
  - rewrite syncStep_not_recorded in Hstep by done. injection Hstep as <- _.
    split; [|done].
    intros q' d' [Hin|[= -> ->]%list_elem_of_singleton]%elem_of_app Hrec'; [|congruence].
    by apply IH1.
Qed.

(** What a successful [sync] leaves in the destination. *)
Lemma sync_result h src w w' patterns :
  wellFormed src -> wellFormedRoot (destFS w) ->
  sync h src w patterns = (None, w') ->
  forall q, q <> [] ->
    entryAt (destFS w') q
    = match kept patterns src q with
      | Some d => Some (brought h d (entryAt (destFS w) q))
      | None => None
      end.
Proof.
  intros Hwf Hw. rewrite sync_unfold.
  destruct (syncWalk h src w patterns) as [[e|] [w1 validPaths]] eqn:Hwalk; [done|].
  destruct (syncWalk_ok _ _ _ _ _ _ Hwf Hw Hwalk) as (-> & Hclosed & Hw1 & _).
  destruct (cleanOrphans_spec _ _ Hw1 Hclosed) as (fs' & Hclean & _ & Hfs').
  rewrite Hclean. cbn [fst snd]. intros [= <-] q Hq. cbn [destFS]. rewrite Hfs'.
  rewrite syncWalk_visits in Hwalk.
  destruct (runVisits_sync_entries _ _ _ _ _ _ _ _
              (visits_parentsFirst _ _ _ (proj1 Hwf))
              (fun q' d' Hy => proj1 (visits_validNames _ _ _ _ Hwf Hy)) Hwalk) as [Hent _].
  destruct (kept patterns src q) as [d|] eqn:Hk.
  - apply kept_visits in Hk as [Hin Hrec]; [|done..].
    rewrite decide_True; [by apply Hent|].
    right. apply elem_of_recordedPaths. eauto.
  - rewrite decide_False; [done|]. intros [?|(d & Hin & Hrec)%elem_of_recordedPaths]; [done|].
    assert (kept patterns src q = Some d) as Hk' by (by apply kept_visits).
    congruence.
Qed.

(** No step of the walk removes an entry, whether it fails or not. *)
Lemma syncStep_keeps h src patterns q d w validPaths err w' validPaths' :
  find src q = Some d ->
  syncStep h src patterns q d (w, validPaths) = (err, (w', validPaths')) ->
  forall q', entryAt (destFS w) q' <> None -> entryAt (destFS w') q' <> None.
Proof.
  intros Hf. destruct (recorded patterns (q, d)) eqn:Hrec.
  2:{ rewrite syncStep_not_recorded by done. by intros [= _ <- _]. }
  pose proof (recorded_not_root _ _ _ Hrec) as Hq.
  rewrite syncStep_recorded by done.
  destruct d as [data modTime mode|size modTime mode entries]; cbn [isDir Info IsDir Mode].
  - destruct (copyFile h (Some src) q q w) as [[e|] w2] eqn:Hc; cbn [fst snd].
    + intros [= _ <- _] q' Hq'.
      destruct (copyFile_failure h (Some src) q q w w2 data modTime mode e Hq Hf Hc)
        as [_ Hkeep].
      destruct (entryAt (destFS w) q') as [e0|] eqn:E0; [|done]. by rewrite (Hkeep _ _ E0).
    + intros [= _ <- _] q' Hq'.
      destruct (copyFile_result h (Some src) q q w w2 data modTime mode Hq Hf Hc)
        as (H1 & _ & H3).
      destruct (decide (q' = q)) as [->|Hne]; [by rewrite H1|].
      rewrite (H3 q' Hne). by destruct (entryAt (destFS w) q').
  - intros [= _ <- _] q' Hq'. cbn [destFS].
    destruct (entryAt (destFS w) q') as [e0|] eqn:E0; [|done].
    by rewrite (MkdirAll_preserves _ _ _ _ _ _ E0).
Qed.

Lemma runVisits_sync_keeps h src patterns l w validPaths err w' validPaths' :
  (forall q d, (q, d) ∈ l -> find src q = Some d) ->
  runVisits (syncStep h src patterns) l (w, validPaths) = (err, (w', validPaths')) ->
  forall q', entryAt (destFS w) q' <> None -> entryAt (destFS w') q' <> None.
Proof.
  revert w validPaths. induction l as [|[q d] l IH]; intros w validPaths Hfind.
  { by intros [= _ <- _]. }
  cbn [runVisits].
  destruct (syncStep h src patterns q d (w, validPaths)) as [e [w2 validPaths2]] eqn:Hstep.
  pose proof (syncStep_keeps _ _ _ _ _ _ _ _ _ _ (Hfind q d ltac:(left)) Hstep) as Hkeep.
  destruct e as [e|]; [by intros [= _ <- _]|].
  intros Hrun q' Hq'. eapply IH; [|done|by apply Hkeep].
  intros q0 d0 Hin. apply Hfind. by right.
Qed.

(** A step of the walk changes no entry that is there at another path,
    whether it fails or not. *)
Lemma syncStep_frame h src patterns q d w validPaths err w' validPaths' q' e :
  syncStep h src patterns q d (w, validPaths) = (err, (w', validPaths')) ->
  q' <> q -> entryAt (destFS w) q' = Some e -> entryAt (destFS w') q' = Some e.
Proof.
  destruct (recorded patterns (q, d)) eqn:Hrec.
  2:{ rewrite syncStep_not_recorded by done. by intros [= _ <- _]. }
  pose proof (recorded_not_root _ _ _ Hrec) as Hq.
  rewrite syncStep_recorded by done. destruct (isDir d).
  - intros [= _ <- _] _ Hq'. cbn [destFS]. by apply MkdirAll_preserves.
  - destruct (copyFile h (Some src) q q w) as [e1 w2] eqn:Hc. cbn [fst snd].
    intros [= _ <- _] Hne Hq'.
    by apply (copyFile_keeps _ _ _ _ _ _ _ Hq Hc q' e Hq').
Qed.

Lemma runVisits_sync_frame h src patterns l w validPaths err w' validPaths' q e :
  (forall x, x ∈ l -> fst x <> q) ->
  runVisits (syncStep h src patterns) l (w, validPaths) = (err, (w', validPaths')) ->
  entryAt (destFS w) q = Some e -> entryAt (destFS w') q = Some e.
Proof.
  revert w validPaths. induction l as [|[q1 d1] l IH]; intros w validPaths Hl.
  { by intros [= _ <- _]. }
  cbn [runVisits].
  destruct (syncStep h src patterns q1 d1 (w, validPaths)) as [e1 [w2 validPaths2]] eqn:Hstep.
  assert (q <> q1) as Hne.
  { intros ->. apply (Hl (q1, d1)); [by left|done]. }
  pose proof (syncStep_frame _ _ _ _ _ _ _ _ _ _ q e Hstep Hne) as Hkeep.
  destruct e1 as [e1|]; [by intros [= _ <- _]|].
  intros Hrun Hq. eapply IH; [|done|by apply Hkeep].
  intros x Hx. apply Hl. by right.
Qed.

(** The step at a source entry that finds an entry of the other kind
    fails: [MkdirAll] on a regular file, and [copyFile] on a directory
    unless its size and time are those of the source file. *)
Lemma syncStep_conflict h src patterns q d w validPaths e :
  recorded patterns (q, d) = true -> find src q = Some d ->
  entryAt (destFS w) q = Some e ->
  entryIsDir e = negb (isDir d) ->
  (isDir d = false -> sameFile (entryInfo e) (Info d) = false) ->
  fst (syncStep h src patterns q d (w, validPaths)) <> None.
Proof.
  intros Hrec Hf (d0 & Hd0 & <-)%entryAt_nodeAt Hkind Hdiff.
  pose proof (recorded_not_root _ _ _ Hrec) as Hq.
  rewrite syncStep_recorded by done. rewrite entryIsDir_entryOf in Hkind.
  destruct d as [data modTime mode|size modTime mode entries];
    cbn [isDir Info IsDir] in Hkind |- *.
  - cbn [fst]. rewrite (copyFile_File h (Some src) q q w data modTime mode Hf).
    destruct (MkdirAll h (destFS w) (parent q) 493) as [[e1|] fs1] eqn:Hm; [done|].
    pose proof (MkdirAll_parent_entry _ _ _ _ _ Hq Hm) as Hd1.
    assert (entryAt (destFS w) q = Some (entryOf d0)) as Hq0
      by (apply entryAt_nodeAt; eauto).
    rewrite Hq0 in Hd1. rewrite Hd1. unfold rewritten.
    rewrite (Hdiff eq_refl). cbn [negb].
    apply entryAt_nodeAt in Hd1 as (d1 & Hn1 & Hd1).
    assert (isDir d1 = true) as Hdir1.
    { rewrite <- entryIsDir_entryOf, Hd1, entryIsDir_entryOf. done. }
    destruct (OpenFile_create_trunc h fs1 q mode) as [e2 fs2] eqn:Ho.
    unfold OpenFile_create_trunc in Ho. apply (f_equal fst) in Ho.
    rewrite (alterAt_reaches _ _ _ _ _ Hn1) in Ho. cbn [fst] in Ho.
    destruct d1; [done|]. by subst e2.
  - cbn [fst]. unfold MkdirAll. rewrite (alterAt_reaches _ _ _ _ _ Hd0).
    by destruct d0.
Qed.

(** So [sync] fails in its walk when an entry it brings over meets an
    entry of the other kind. *)
Lemma sync_conflict h src w patterns q d e :
  wellFormed src -> q <> [] ->
  kept patterns src q = Some d ->
  entryAt (destFS w) q = Some e ->
  entryIsDir e = negb (isDir d) ->
  (isDir d = false -> sameFile (entryInfo e) (Info d) = false) ->
  exists err w', sync h src w patterns = (Some (Wrapped "walking source" [] err), w').
Proof.
  intros Hwf Hq Hkept He Hkind Hdiff. rewrite sync_unfold, syncWalk_visits.
  destruct (runVisits _ _ _) as [[err|] [w1 validPaths]] eqn:Hrun; [by eauto|].
  exfalso.
  apply (kept_visits _ _ _ _ Hwf Hq) in Hkept as [Hin Hrec].
  pose proof (visits_parentsFirst (excludedDir patterns) [] src (proj1 Hwf)) as Hpf.
  pose proof (proj1 (visits_validNames _ _ _ _ Hwf Hin)) as Hf.
  apply list_elem_of_split in Hin as (l1 & l2 & Hl). rewrite Hl in Hrun, Hpf.
  rewrite runVisits_app in Hrun.
  destruct (runVisits (syncStep h src patterns) l1 (w, ∅)) as [[e1|] [w2 validPaths2]] eqn:H1;
    [done|].
  assert (entryAt (destFS w2) q = Some e) as He2.
  { apply (runVisits_sync_frame _ _ _ _ _ _ _ _ _ q e) in H1; [done| |done].
    intros x Hx Hxq. apply parentsFirst_app in Hpf as (_ & _ & Hpf).
    apply (Hpf x (q, d) Hx); [by left|]. by rewrite <- Hxq. }
  cbn [runVisits] in Hrun.
  pose proof (syncStep_conflict h src patterns q d w2 validPaths2 e Hrec Hf He2 Hkind Hdiff)
    as Hstep.
  destruct (syncStep h src patterns q d (w2, validPaths2)) as [[e3|] s3]; [done|].
  by destruct Hstep.
Qed.

(** The errors of [cleanOrphans] are those of its scan and of its removals. *)
Lemma removeLoop_error toRemove fs err :
  fst (removeLoop toRemove fs) = Some err ->
  exists path e, err = Wrapped "removing" path e.
Proof.
  revert fs. induction toRemove as [|path toRemove IH]; intros fs; [done|].
  cbn [removeLoop]. destruct (RemoveAll fs path) as [[e|] fs1]; [|apply IH].
  intros [= <-]. eauto.
Qed.

Lemma cleanOrphans_error fs validPaths err :
  fst (cleanOrphans fs validPaths) = Some err ->
  exists context path e,
    err = Wrapped context path e
    /\ (context = "scanning destination" \/ context = "removing")%string.
Proof.
  unfold cleanOrphans. destruct (match Stat fs [] with None => true | Some _ => false end);
    [done|].
  destruct (scanOrphans fs validPaths) as [[e|] toRemove].
  - intros [= <-]. eauto 10.
  - intros (path & e & ->)%removeLoop_error. eauto 10.
Qed.

(** A [sync] that returns the error of its walk has removed nothing. *)
Lemma sync_walk_error_keeps h src w w' patterns e :
  wellFormed src ->
  sync h src w patterns = (Some (Wrapped "walking source" [] e), w') ->
  fst (syncWalk h src w patterns) = Some e
  /\ forall q, entryAt (destFS w) q <> None -> entryAt (destFS w') q <> None.
Proof.
  intros Hwf. rewrite sync_unfold.
  destruct (syncWalk h src w patterns) as [[e1|] [w1 validPaths]] eqn:Hwalk.
  - intros [= <- <-]. split; [done|].
    rewrite syncWalk_visits in Hwalk.
    apply (runVisits_sync_keeps _ _ _ _ _ _ _ _ _
             (fun q d Hin => proj1 (visits_validNames _ _ _ _ Hwf Hin)) Hwalk).
  - intros [= Herr _]. apply cleanOrphans_error in Herr as (c & p & e2 & [= <- _ _] & Hc).
    by destruct Hc.
Qed.

End sync_facts.

(** ** [cleanOrphans] on any set of valid paths *)

Section clean_general.

Import os filepath.
Implicit Types (d : node) (fs : root) (p q r t u a : path) (validPaths : gset path).
Local Open Scope nat_scope.

Lemma allValid_spec validPaths q :
  allValid validPaths q = true
  <-> forall u, u `prefix_of` q -> u <> [] -> u ∈ validPaths.
Proof.
  unfold allValid. rewrite forallb_forall. split.
  - intros H u Hu Hne.
    destruct (proj1 (seq_take_prefixes q u) (conj Hu Hne)) as (n & Hn & ->).
    apply list_elem_of_In, H in Hn. by apply bool_decide_eq_true in Hn.
  - intros H n Hn%list_elem_of_In. apply bool_decide_eq_true, H.
    + apply prefix_take.
    + apply (seq_take_prefixes q). eauto.
Qed.

Lemma prefix_snoc_inv (a q : path) name :
  a `prefix_of` q ++ [name] -> a <> q ++ [name] -> a `prefix_of` q.
Proof.
  intros [k Hk] Ha. destruct k as [|x k _] using rev_ind.
  - rewrite app_nil_r in Hk. by subst.
  - rewrite app_assoc in Hk. apply app_inj_tail in Hk as [-> _]. by apply prefix_app_r.
Qed.

(** Above a path that is not valid all the way there is a topmost path
    that is not valid. *)
Lemma topmost_invalid validPaths q :
  allValid validPaths q = false ->
  exists u, u `prefix_of` q /\ u <> [] /\ (u ∉ validPaths)
            /\ forall a, a `prefix_of` u -> a <> u -> a <> [] -> a ∈ validPaths.
Proof.
  induction q as [|name q IH] using rev_ind; [done|]. intros Hq.
  destruct (allValid validPaths q) eqn:Hq'.
  - exists (q ++ [name]). split; [done|]. split; [by destruct q|].
    rewrite allValid_spec in Hq'. split.
    + intros Hin. apply not_true_iff_false in Hq. apply Hq, allValid_spec.
      intros u Hu Hne. destruct (decide (u = q ++ [name])) as [->|Hne']; [done|].
      apply Hq'; [by eapply prefix_snoc_inv|done].
    + intros a Ha Hne Ha0. apply Hq'; [by eapply prefix_snoc_inv|done].
  - destruct (IH eq_refl) as (u & Hu & ?). exists u. split; [|done].
    by apply prefix_app_r.
Qed.

(** What [cleanOrphans] leaves, for any set of valid paths: an entry stays
    when its path and the directories above it are valid, and goes
    otherwise. *)
Lemma cleanOrphans_general fs validPaths :
  wellFormedRoot fs ->
  exists fs',
    cleanOrphans fs validPaths = (None, fs')
    /\ wellFormedRoot fs'
    /\ forall q, entryAt fs' q = if allValid validPaths q then entryAt fs q else None.
Proof.
  intros Hwf. destruct fs as [d|].
  2:{ exists None. split; [done|]. split; [done|]. intros q. by destruct (allValid _ _). }
  unfold cleanOrphans. change (Stat (Some d) []) with (Some (Info d)). cbv iota.
  rewrite scanOrphans_Some.
  set (toRemove := orphansOf validPaths (visits (orphanDir validPaths) [] d)).
  assert (forall t, t ∈ toRemove ->
            t <> [] /\ (t ∉ validPaths)
            /\ forall a, a `prefix_of` t -> a <> t -> a <> [] -> a ∈ validPaths) as Htop.
  { intros t Ht. apply (scanOrphans_topmost (Some d) validPaths).
    by rewrite scanOrphans_Some. }
  destruct (removeLoop_spec toRemove (Some d)) as (fs' & Hl & Hwf' & Hfs'); [| | |done|].
  - intros t (_ & _ & e & Hin)%elem_of_orphansOf.
    apply (visits_find _ _ _ _ _ Hwf) in Hin as (r & -> & Hr). simpl. by rewrite Hr.
  - intros t u Ht Hu Hp. destruct (decide (t = u)) as [|Hne]; [done|]. exfalso.
    destruct (Htop _ Ht) as (Ht0 & Htv & _). destruct (Htop _ Hu) as (_ & _ & Hu').
    apply Htv. by apply Hu'.
  - pose proof (scanOrphans_NoDup (Some d) validPaths Hwf) as Hnd.
    by rewrite scanOrphans_Some in Hnd.
  - exists fs'. split; [done|]. split; [done|]. intros q. rewrite Hfs'.
    destruct (allValid validPaths q) eqn:Hq.
    + rewrite decide_False; [done|]. intros (t & Ht & Hp)%Exists_exists.
      destruct (Htop _ Ht) as (Ht0 & Htv & _).
      rewrite allValid_spec in Hq. by apply Htv, Hq.
    + case_decide as He; [done|]. apply entryAt_is_None.
      destruct (nodeAt (Some d) q) as [e|] eqn:Eq; [|done]. exfalso. apply He.
      destruct (topmost_invalid validPaths q Hq) as (u & Hu & Hu0 & Huv & Hua).
      apply Exists_exists. exists u. split; [|done].
      destruct (nodeAt (Some d) u) as [eu|] eqn:Eu;
        [|by destruct (nodeAt_prefix (Some d) u q Hu); [rewrite Eq|]].
      apply elem_of_orphansOf. split; [done|]. split; [done|]. exists eu.
      apply (visits_reach (orphanDir validPaths) [] d u eu Eu).
      intros a e' Ha Hau _. unfold orphanDir. simpl.
      destruct (decide (a = [])) as [->|Ha0]; [done|].
      by rewrite (bool_decide_eq_true_2 (a ∈ validPaths)), andb_false_r by (by apply Hua).
Qed.

(** After [cleanOrphans] the scan finds nothing to remove. *)
Lemma cleanOrphans_again fs fs' validPaths :
  wellFormedRoot fs ->
  cleanOrphans fs validPaths = (None, fs') ->
  snd (scanOrphans fs' validPaths) = [] /\ cleanOrphans fs' validPaths = (None, fs').
Proof.
  intros Hwf Hc. destruct (cleanOrphans_general fs validPaths Hwf) as (fs1 & Hc1 & Hwf1 & Hfs1).
  rewrite Hc in Hc1. injection Hc1 as <-.
  destruct fs' as [d'|]; [|done].
  assert (orphansOf validPaths (visits (orphanDir validPaths) [] d') = []) as Hnil.
  { destruct (orphansOf _ _) as [|t l] eqn:E; [done|]. exfalso.
    assert (t ∈ orphansOf validPaths (visits (orphanDir validPaths) [] d')) as Ht
      by (rewrite E; left).
    apply elem_of_orphansOf in Ht as (Ht0 & Htv & e & Hin).
    apply (visits_find _ _ _ _ _ Hwf1) in Hin as (r & -> & Hr). cbn [app] in *.
    assert (entryAt (Some d') r <> None) as Hex.
    { unfold entryAt. cbn [nodeAt]. by rewrite Hr. }
    rewrite Hfs1 in Hex. destruct (allValid validPaths r) eqn:Hv; [|done].
    rewrite allValid_spec in Hv. by apply Htv, Hv. }
  split; [by rewrite scanOrphans_Some; cbn [snd]|].
  unfold cleanOrphans. change (Stat (Some d') []) with (Some (Info d')). cbv iota.
  by rewrite scanOrphans_Some, Hnil.
Qed.

End clean_general.

(** ** [sync] and [cleanOrphans]: results *)

(** X8. What a successful [sync] leaves in the destination.  Below the
    root there is an entry exactly at the paths of the source entries that
    are not excluded and not below an excluded directory.  At the path of
    such a directory the destination has the directory it had, or a new
    one with the mode of the source directory; at the path of such a file
    it has the entry it had when that has the size and the modification
    time of the source file, and else a regular file with the bytes and
    the modification time of the source. *)
Theorem X8_sync_leaves_kept_entries
    (h : os.host) (src : os.node) (w w' : world) (patterns : list string) :
  os.wellFormed src -> os.wellFormedRoot (destFS w) ->
  sync h src w patterns = (None, w') ->
  forall q, q <> [] ->
    os.entryAt (destFS w') q
    = match kept patterns src q with
      | Some d => Some (brought h d (os.entryAt (destFS w) q))
      | None => None
      end.
Proof. apply sync_result. Qed.

Lemma X8_sync_leaves_kept_entries_witness :
  let w' := snd (sync testHost excluded_src (mkWorld excluded_dest 0) ["node_modules/"]) in
  os.entryAt (destFS w') ["main.go"] = Some (os.FileEntry "package main" 100 420)
  /\ os.entryAt (destFS w') ["node_modules"; "stale.js"] = None.
Proof.
  intros w'.
  assert (os.wellFormed excluded_src) as Hsrc by solve_wellFormed.
  assert (os.wellFormedRoot (destFS (mkWorld excluded_dest 0))) as Hdest by solve_wellFormed.
  assert (sync testHost excluded_src (mkWorld excluded_dest 0) ["node_modules/"] = (None, w'))
    as Hsync by (vm_compute; reflexivity).
  pose proof (X8_sync_leaves_kept_entries testHost excluded_src (mkWorld excluded_dest 0) w'
                ["node_modules/"] Hsrc Hdest Hsync) as H.
  split.
  - exact (H ["main.go"] ltac:(discriminate)).
  - exact (H ["node_modules"; "stale.js"] ltac:(discriminate)).
Defined.

(** X9. [sync] fails in its walk when an entry that it brings over meets
    an entry of the other kind in the destination: a regular file where the
    source has a directory ([os.MkdirAll] refuses), or a directory where the
    source has a regular file of another size or modification time (the
    directory cannot be opened for writing).  The error is returned as
    "walking source: ...". *)
Theorem X9_sync_fails_on_kind_conflict
    (h : os.host) (src : os.node) (w : world) (patterns : list string)
    (q : os.path) (d : os.node) (e : os.entry) :
  os.wellFormed src -> q <> [] ->
  kept patterns src q = Some d ->
  os.entryAt (destFS w) q = Some e ->
  entryIsDir e = negb (os.isDir d) ->
  (os.isDir d = false -> sameFile (entryInfo e) (os.Info d) = false) ->
  exists err w', sync h src w patterns = (Some (Wrapped "walking source" [] err), w').
Proof. apply sync_conflict. Qed.

Lemma X9_sync_fails_on_kind_conflict_witness :
  exists err w',
    sync testHost conflict_src (mkWorld conflict_dest 0) []
    = (Some (Wrapped "walking source" [] err), w').
Proof.
  apply (X9_sync_fails_on_kind_conflict testHost conflict_src (mkWorld conflict_dest 0) []
           ["a"] (os.File "hello" 100 420) (os.DirEntry 4096 50 493)).
  - solve_wellFormed.
  - discriminate.
  - reflexivity.
  - reflexivity.
  - reflexivity.
  - intros _. reflexivity.
Defined.

(** X10. A [sync] that returns [nil] on a destination that did not exist
    or was an empty directory leaves a copy of the source without what the
    patterns exclude: below the root there is a regular file with the
    bytes and the modification time of the source file at the path of
    every source file that is brought over, a directory at the path of
    every such directory, and nothing anywhere else. *)
Theorem X10_sync_into_empty_destination
    (h : os.host) (src : os.node) (w w' : world) (patterns : list string) :
  os.wellFormed src ->
  (destFS w = None \/ exists size modTime mode, destFS w = Some (os.Dir size modTime mode [])) ->
  sync h src w patterns = (None, w') ->
  forall q, q <> [] ->
    match kept patterns src q with
    | Some (os.File data modTime _) =>
        exists mode, os.entryAt (destFS w') q = Some (os.FileEntry data modTime mode)
    | Some (os.Dir _ _ _ _) =>
        exists size modTime mode, os.entryAt (destFS w') q = Some (os.DirEntry size modTime mode)
    | None => os.entryAt (destFS w') q = None
    end.
Proof.
  intros Hwf Hempty Hsync q Hq.
  assert (os.wellFormedRoot (destFS w) /\ os.entryAt (destFS w) q = None) as [Hw Hnone].
  { destruct Hempty as [->|(size & modTime & mode & ->)].
    - split; [done|]. by destruct q.
    - split; [by split; [constructor|]|]. by destruct q. }
  rewrite (sync_result _ _ _ _ _ Hwf Hw Hsync q Hq), Hnone.
  destruct (kept patterns src q) as [[]|]; cbn; eauto.
Qed.

Lemma X10_sync_into_empty_destination_witness :
  let w' := snd (sync testHost TestSync_src (mkWorld None 0) ["*.log"]) in
  (exists mode,
      os.entryAt (destFS w') ["subdir"; "file2.txt"] = Some (os.FileEntry "world" 103 mode))
  /\ os.entryAt (destFS w') ["ignore.log"] = None.
Proof.
  intros w'.
  assert (os.wellFormed TestSync_src) as Hsrc by solve_wellFormed.
  assert (sync testHost TestSync_src (mkWorld None 0) ["*.log"] = (None, w'))
    as Hsync by (vm_compute; reflexivity).
  pose proof (X10_sync_into_empty_destination testHost TestSync_src (mkWorld None 0) w'
                ["*.log"] Hsrc (or_introl eq_refl) Hsync) as H.
  split.
  - exact (H ["subdir"; "file2.txt"] ltac:(discriminate)).
  - exact (H ["ignore.log"] ltac:(discriminate)).
Defined.

(** X11. A [sync] that returns the error of its walk, "walking source:
    ...", has removed nothing: [cleanOrphans] has not run, no step of the
    walk removes an entry, and every path that had an entry in the
    destination still has one. *)
Theorem X11_failed_walk_removes_nothing
    (h : os.host) (src : os.node) (w w' : world) (patterns : list string) (e : error) :
  os.wellFormed src ->
  sync h src w patterns = (Some (Wrapped "walking source" [] e), w') ->
  fst (syncWalk h src w patterns) = Some e
  /\ forall q, os.entryAt (destFS w) q <> None -> os.entryAt (destFS w') q <> None.
Proof. apply sync_walk_error_keeps. Qed.

Lemma X11_failed_walk_removes_nothing_witness :
  let w' := snd (sync testHost conflict_src (mkWorld conflict_dest 0) []) in
  os.entryAt (destFS w') ["stale.txt"] <> None.
Proof.
  intros w'.
  apply (X11_failed_walk_removes_nothing testHost conflict_src (mkWorld conflict_dest 0) w' []
           EISDIR).
  - solve_wellFormed.
  - vm_compute. reflexivity.
  - discriminate.
Defined.

(** X12. After a [cleanOrphans] that returns [nil], on any set of valid
    paths, the entries left are exactly those whose path is valid together
    with every directory above it; an entry at a valid path below a
    directory that is not valid has gone with that directory.  The root
    stays. *)
Theorem X12_cleanOrphans_keeps_valid_chains
    (fs fs' : os.root) (validPaths : gset os.path) :
  os.wellFormedRoot fs ->
  cleanOrphans fs validPaths = (None, fs') ->
  forall q, os.entryAt fs' q = if allValid validPaths q then os.entryAt fs q else None.
Proof.
  intros Hwf Hclean.
  destruct (cleanOrphans_general fs validPaths Hwf) as (fs1 & Hc & _ & Hfs').
  rewrite Hclean in Hc. by injection Hc as <-.
Qed.

Lemma X12_cleanOrphans_keeps_valid_chains_witness :
  let fs' := snd (cleanOrphans orphanTree_dest {[ ["keep.txt"]; ["old"; "a.txt"] ]}) in
  os.entryAt fs' ["keep.txt"] = Some (os.FileEntry "keep" 100 420)
  /\ os.entryAt fs' ["old"; "a.txt"] = None.
Proof.
  intros fs'.
  assert (os.wellFormedRoot orphanTree_dest) as Hwf by solve_wellFormed.
  assert (cleanOrphans orphanTree_dest {[ ["keep.txt"]; ["old"; "a.txt"] ]} = (None, fs'))
    as Hclean by (vm_compute; reflexivity).
  pose proof (X12_cleanOrphans_keeps_valid_chains orphanTree_dest fs'
                {[ ["keep.txt"]; ["old"; "a.txt"] ]} Hwf Hclean) as H.
  split.
  - rewrite H. reflexivity.
  - rewrite H. reflexivity.
Defined.

(** X13. [cleanOrphans] is idempotent: run again with the same valid
    paths on the tree it has left, the scan finds nothing to remove and
    the tree stays as it is. *)
Theorem X13_cleanOrphans_twice
    (fs fs' : os.root) (validPaths : gset os.path) :
  os.wellFormedRoot fs ->
  cleanOrphans fs validPaths = (None, fs') ->
  snd (scanOrphans fs' validPaths) = [] /\ cleanOrphans fs' validPaths = (None, fs').
Proof. apply cleanOrphans_again. Qed.

Lemma X13_cleanOrphans_twice_witness :
  let fs' := snd (cleanOrphans orphanTree_dest {[ ["keep.txt"] ]}) in
  cleanOrphans fs' {[ ["keep.txt"] ]} = (None, fs').
Proof.
  intros fs'.
  apply (X13_cleanOrphans_twice orphanTree_dest fs' {[ ["keep.txt"] ]}).
  - solve_wellFormed.
  - vm_compute. reflexivity.
Defined.

(** ** [run]: the arguments, the patterns *)

Section run_facts.

Import os filepath.
Local Open Scope nat_scope.
Local Arguments String.append !_ _ / : simpl nomatch.

(** The arguments the loop takes in one turn, for an induction that
    follows the loop. *)
Lemma args_ind2 (P : list string -> Prop) :
  P [] -> (forall a, P [a]) ->
  (forall a b l, P l -> P (b :: l) -> P (a :: b :: l)) ->
  forall l, P l.
Proof.
  intros H0 H1 H2 l. assert (P l /\ forall a, P (a :: l)) as [? _]; [|done].
  induction l as [|b l [IH1 IH2]]; [by split|]. split; [apply IH2|].
  intros a. by apply H2.
Qed.

(** A prefix of the arguments that the loop gets through leaves the rest
    to be read with the variables it has set. *)
Lemma parseArgs_app pre rest o o' :
  parseArgs pre o = Parsed o' -> parseArgs (pre ++ rest) o = parseArgs rest o'.
Proof.
  revert o. induction pre as [|a|a b pre IH1 IH2] using args_ind2; intros o.
  - by intros [= ->].
  - cbn [parseArgs app].
    destruct (String.eqb a "--to"); [done|]. destruct (String.eqb a "--name"); [done|].
    destruct (String.eqb a "--exclude"); [done|].
    destruct (String.eqb a "-h" || String.eqb a "--help"); [done|].
    destruct (strings.HasPrefix a "-"); [done|]. by intros [= ->].
  - cbn [parseArgs app].
    destruct (String.eqb a "--to"); [apply IH1|].
    destruct (String.eqb a "--name"); [apply IH1|].
    destruct (String.eqb a "--exclude"); [apply IH1|].
    destruct (String.eqb a "-h" || String.eqb a "--help"); [done|].
    destruct (strings.HasPrefix a "-"); [done|]. apply (IH2 o).
Qed.

Lemma parseArgs_no_to args o o' :
  parseArgs args o = Parsed o' -> "--to"%string ∉ args -> destPath o' = destPath o.
Proof.
  revert o. induction args as [|a|a b args IH1 IH2] using args_ind2; intros o.
  - by intros [= ->].
  - cbn [parseArgs].
    destruct (String.eqb a "--to"); [done|]. destruct (String.eqb a "--name"); [done|].
    destruct (String.eqb a "--exclude"); [done|].
    destruct (String.eqb a "-h" || String.eqb a "--help"); [done|].
    destruct (strings.HasPrefix a "-"); [done|]. by intros [= ->].
  - cbn [parseArgs]. intros H Hin.
    assert ("--to"%string ∉ args) as Hin1 by set_solver.
    assert ("--to"%string ∉ b :: args) as Hin2 by set_solver.
    destruct (String.eqb_spec a "--to") as [->|_]; [set_solver|].
    destruct (String.eqb a "--name"); [by rewrite (IH1 _ H Hin1)|].
    destruct (String.eqb a "--exclude"); [by rewrite (IH1 _ H Hin1)|].
    destruct (String.eqb a "-h" || String.eqb a "--help"); [done|].
    destruct (strings.HasPrefix a "-"); [done|]. by apply IH2.
Qed.

(** *** Paths with a component [.git] *)

Lemma Split_Join (u : list string) :
  u <> [] -> Forall (fun name => strings.Contains name "/" = false) u ->
  strings.Split (strings.Join u "/") "/" = u.
Proof.
  induction u as [|name u IH]; [done|]. intros _ [Hn Hu]%Forall_cons.
  destruct u as [|name' u]; [by apply Split_no_separator|].
  rewrite Join_cons by done. change ("/" +:+ ?t) with (String "/" t).
  rewrite Split_append, Split_no_separator by done. cbn [app]. f_equal. by apply IH.
Qed.

Lemma runPatterns_git src excludePatterns : ".git"%string ∈ runPatterns src excludePatterns.
Proof.
  unfold runPatterns. destruct (parseGitignore _ _) as [? [|]]; set_solver.
Qed.

(** [run] excludes every entry that has a component [.git]. *)
Lemma runPatterns_exclude_git src excludePatterns (u : path) isDir :
  Forall validName u -> ".git"%string ∈ u ->
  shouldExclude (Rel u) (runPatterns src excludePatterns) isDir = true.
Proof.
  intros Hv Hin. unfold shouldExclude. rewrite ToSlash_id.
  apply shouldExcludeLoop_true. exists ".git"%string. split; [apply runPatterns_git|].
  assert (u <> []) as Hne by (by intros ->; apply elem_of_nil in Hin).
  assert (Rel u = strings.Join u "/") as -> by (by destruct u).
  apply matchPattern_plain_name; [done|done| |].
  - destruct u as [|name u]; [done|]. apply Forall_cons in Hv as [(Hname & _) _].
    destruct u as [|name' u]; [done|]. rewrite Join_cons by done. by destruct name.
  - rewrite Split_Join; [done|done|]. eapply Forall_impl; [done|]. by intros ? (_ & _ & _ & ?).
Qed.

End run_facts.

(** X14. The argument loop reads the flags in order.  After any arguments
    it got through, [--to], [--name] and [--exclude] take the next
    argument as their value, whatever it looks like: a later [--to] or
    [--name] replaces an earlier one, the values of [--exclude] are
    collected in their order, and an argument that does not begin with a
    dash is skipped. *)
Theorem X14_parseArgs_reads_flags_in_order
    (pre : list string) (o o' : options) (v : string) :
  parseArgs pre o = Parsed o' ->
  parseArgs (pre ++ ["--to"; v]) o
  = Parsed (mkOptions v (projectName o') (excludePatterns o'))
  /\ parseArgs (pre ++ ["--name"; v]) o
     = Parsed (mkOptions (destPath o') v (excludePatterns o'))
  /\ parseArgs (pre ++ ["--exclude"; v]) o
     = Parsed (mkOptions (destPath o') (projectName o') (excludePatterns o' ++ [v]))
  /\ (strings.HasPrefix v "-" = false -> parseArgs (pre ++ [v]) o = Parsed o').
Proof.
  intros H. rewrite !(parseArgs_app _ _ _ _ H). repeat split.
  intros Hv. cbn [parseArgs].
  destruct (String.eqb_spec v "--to") as [->|_]; [done|].
  destruct (String.eqb_spec v "--name") as [->|_]; [done|].
  destruct (String.eqb_spec v "--exclude") as [->|_]; [done|].
  destruct (String.eqb_spec v "-h") as [->|_]; [done|].
  destruct (String.eqb_spec v "--help") as [->|_]; [done|].
  by rewrite Hv.
Qed.

Lemma X14_parseArgs_reads_flags_in_order_witness :
  parseArgs (["--to"; "/a"; "--exclude"; "*.log"] ++ ["--to"; "--name"]) (mkOptions "" "" [])
  = Parsed (mkOptions "--name" "" ["*.log"]).
Proof.
  apply (X14_parseArgs_reads_flags_in_order ["--to"; "/a"; "--exclude"; "*.log"]
           (mkOptions "" "" []) (mkOptions "/a" "" ["*.log"]) "--name").
  reflexivity.
Defined.

(** X15. [run] rejects a flag without its value and an unknown flag before
    it looks at the working directory or at any tree: after arguments the
    loop got through, a final [--to], [--name] or [--exclude] and any
    other argument that begins with a dash make it return the error of
    that flag, whatever follows and whatever the file system holds. *)
Theorem X15_run_rejects_bad_arguments
    (Join : string -> string -> string) (destAt : string -> world)
    (h : os.host) (getwd : string + error) (src : os.node)
    (pre rest : list string) (o : options) (arg : string) :
  parseArgs pre (mkOptions "" "" []) = Parsed o ->
  run Join destAt h getwd src (pre ++ ["--to"])
  = Returned (Some (Message "--to requires a path argument"))
  /\ run Join destAt h getwd src (pre ++ ["--name"])
     = Returned (Some (Message "--name requires a name argument"))
  /\ run Join destAt h getwd src (pre ++ ["--exclude"])
     = Returned (Some (Message "--exclude requires a pattern argument"))
  /\ (strings.HasPrefix arg "-" = true ->
      arg ∉ ["--to"; "--name"; "--exclude"; "-h"; "--help"]%string ->
      run Join destAt h getwd src (pre ++ arg :: rest)
      = Returned (Some (Message ("unknown flag: " +:+ arg)))).
Proof.
  intros H. unfold run. rewrite !(parseArgs_app _ _ _ _ H). repeat split.
  intros Hdash Hnot. cbn [parseArgs].
  destruct (String.eqb_spec arg "--to") as [->|_]; [set_solver|].
  destruct (String.eqb_spec arg "--name") as [->|_]; [set_solver|].
  destruct (String.eqb_spec arg "--exclude") as [->|_]; [set_solver|].
  destruct (String.eqb_spec arg "-h") as [->|_]; [set_solver|].
  destruct (String.eqb_spec arg "--help") as [->|_]; [set_solver|].
  by rewrite Hdash.
Qed.

Lemma X15_run_rejects_bad_arguments_witness :
  run (fun a b => a +:+ "/" +:+ b) (fun _ => mkWorld None 0) testHost (inl "/home/me/proj")
      TestSync_src (["--to"; "/backup"] ++ ["--exclude"])
  = Returned (Some (Message "--exclude requires a pattern argument")).
Proof.
  apply (X15_run_rejects_bad_arguments (fun a b => a +:+ "/" +:+ b) (fun _ => mkWorld None 0)
           testHost (inl "/home/me/proj"%string) TestSync_src ["--to"; "/backup"] []
           (mkOptions "/backup" "" []) "").
  reflexivity.
Defined.

(** X16. [-h] and [--help] end [run] with [nil] at once: after arguments
    the loop got through, nothing that follows is read, no destination is
    required and nothing is synchronised. *)
Theorem X16_run_help_stops
    (Join : string -> string -> string) (destAt : string -> world)
    (h : os.host) (getwd : string + error) (src : os.node)
    (pre rest : list string) (o : options) :
  parseArgs pre (mkOptions "" "" []) = Parsed o ->
  run Join destAt h getwd src (pre ++ "-h" :: rest) = Returned None
  /\ run Join destAt h getwd src (pre ++ "--help" :: rest) = Returned None.
Proof.
  intros H. unfold run. by rewrite !(parseArgs_app _ _ _ _ H).
Qed.

Lemma X16_run_help_stops_witness :
  run (fun a b => a +:+ "/" +:+ b) (fun _ => mkWorld None 0) testHost (inl "/home/me/proj")
      TestSync_src (["--to"; "/backup"] ++ "-h" :: ["--bogus"])
  = Returned None.
Proof.
  apply (X16_run_help_stops (fun a b => a +:+ "/" +:+ b) (fun _ => mkWorld None 0)
           testHost (inl "/home/me/proj"%string) TestSync_src ["--to"; "/backup"] ["--bogus"]
           (mkOptions "/backup" "" [])).
  reflexivity.
Defined.

(** X17. Without an argument [--to], [run] never synchronises: it returns
    before it looks at the working directory or at any tree. *)
Theorem X17_run_without_to_does_not_sync
    (Join : string -> string -> string) (destAt : string -> world)
    (h : os.host) (getwd : string + error) (src : os.node) (args : list string) :
  "--to"%string ∉ args ->
  exists err, run Join destAt h getwd src args = Returned err.
Proof.
  intros Hin. unfold run.
  destruct (parseArgs args (mkOptions "" "" [])) as [o| |msg] eqn:H; [|by eauto..].
  rewrite (parseArgs_no_to _ _ _ H Hin). cbn. eauto.
Qed.

Lemma X17_run_without_to_does_not_sync_witness :
  exists err,
    run (fun a b => a +:+ "/" +:+ b) (fun _ => mkWorld None 0) testHost (inl "/home/me/proj")
        TestSync_src ["--name"; "x"; "--exclude"; "*.log"]
    = Returned err.
Proof.
  apply (X17_run_without_to_does_not_sync (fun a b => a +:+ "/" +:+ b)
           (fun _ => mkWorld None 0) testHost (inl "/home/me/proj"%string) TestSync_src
           ["--name"; "x"; "--exclude"; "*.log"]).
  vm_compute. set_solver.
Defined.

(** X18. Without [--name], or with an empty name, the destination folder
    is named after the working directory: for arguments that the loop
    reads to their end without an error, and a working directory that
    [os.Getwd] returns, [run] does the same as with [--name] and the base
    name of the working directory added at the end of the arguments. *)
Theorem X18_run_default_name
    (Join : string -> string -> string) (destAt : string -> world)
    (h : os.host) (srcPath : string) (src : os.node) (args : list string) (o : options) :
  parseArgs args (mkOptions "" "" []) = Parsed o ->
  projectName o = ""%string ->
  run Join destAt h (inl srcPath) src args
  = run Join destAt h (inl srcPath) src (args ++ ["--name"; filepath.Base srcPath]).
Proof.
  intros H Hname. unfold run. rewrite (parseArgs_app _ _ _ _ H), H.
  assert (parseArgs ["--name"%string; filepath.Base srcPath] o
          = Parsed (mkOptions (destPath o) (filepath.Base srcPath) (excludePatterns o))) as ->
    by reflexivity.
  cbn [destPath projectName excludePatterns]. rewrite Hname.
  change (String.eqb "" "") with true. cbv iota.
  destruct (String.eqb (destPath o) ""); [done|].
  destruct (String.eqb_spec (filepath.Base srcPath) "") as [E|_]; [|done].
  by destruct (Base_nonempty srcPath).
Qed.

Lemma X18_run_default_name_witness :
  run (fun a b => a +:+ "/" +:+ b) (fun _ => mkWorld None 0) testHost (inl "/home/me/proj")
      TestSync_src ["--to"; "/backup"]
  = run (fun a b => a +:+ "/" +:+ b) (fun _ => mkWorld None 0) testHost (inl "/home/me/proj")
      TestSync_src (["--to"; "/backup"] ++ ["--name"; filepath.Base "/home/me/proj"]).
Proof.
  apply (X18_run_default_name (fun a b => a +:+ "/" +:+ b) (fun _ => mkWorld None 0)
           testHost "/home/me/proj" TestSync_src ["--to"; "/backup"]
           (mkOptions "/backup" "" [])); reflexivity.
Defined.

(** X19. A destination written by [run] holds no [.git]: [run] always
    puts the pattern [.git] in front of the others, so after a successful
    run no path of the destination with a component [.git] has an entry,
    whether the source has one there or the destination had. *)
Theorem X19_run_never_brings_git
    (Join : string -> string -> string) (destAt : string -> world)
    (h : os.host) (getwd : string + error) (src : os.node) (args : list string)
    (fullDest : string) (w' : world) :
  os.wellFormed src -> os.wellFormedRoot (destFS (destAt fullDest)) ->
  run Join destAt h getwd src args = Synced fullDest None w' ->
  forall q, ".git"%string ∈ q -> os.entryAt (destFS w') q = None.
Proof.
  intros Hwf Hw. unfold run.
  destruct (parseArgs args _) as [o| |msg]; [|done..].
  destruct (String.eqb (destPath o) ""); [done|]. destruct getwd as [srcPath|e]; [|done].
  cbv zeta. set (name := if String.eqb (projectName o) "" then _ else _).
  destruct (sync h src (destAt (Join (destPath o) name)) (runPatterns src (excludePatterns o)))
    as [err w1] eqn:Hsync.
  intros [= <- -> ->] q Hq.
  assert (q <> []) as Hne by (by intros ->; apply elem_of_nil in Hq).
  rewrite (sync_result _ _ _ _ _ Hwf Hw Hsync q Hne).
  destruct (kept _ src q) as [d|] eqn:Hk; [|done]. exfalso.
  apply kept_Some in Hk as [Hf Hex].
  apply list_elem_of_split in Hq as (a & b & ->).
  destruct (os.find src (a ++ [".git"%string])) as [e|] eqn:He.
  2:{ apply (nodeAt_prefix (Some src) (a ++ [".git"%string]) (a ++ ".git"%string :: b)).
      - exists b. by rewrite <- app_assoc.
      - cbn [os.nodeAt]. by rewrite Hf.
      - done. }
  specialize (Hex (a ++ [".git"%string]) e).
  rewrite (runPatterns_exclude_git src (excludePatterns o) (a ++ [".git"%string]) (os.isDir e))
    in Hex.
  - assert (true = false) as Hc; [apply Hex|done].
    + exists b. by rewrite <- app_assoc.
    + by destruct a.
    + done.
  - destruct Hwf as [_ Hv]. by destruct (find_validNames src _ e Hv He).
  - set_solver.
Qed.

Lemma X19_run_never_brings_git_witness :
  let join := fun a b => a +:+ "/" +:+ b in
  let destAt := fun _ : string => mkWorld git_dest 0 in
  let w' :=
    match run join destAt testHost (inl "/home/me/proj") git_src ["--to"; "/backup"] with
    | Synced _ _ w => w
    | Returned _ => mkWorld None 0
    end in
  os.entryAt (destFS w') [".git"; "HEAD"] = None
  /\ os.entryAt (destFS w') [".git"; "config"] = None
  /\ os.entryAt (destFS w') ["main.go"] = Some (os.FileEntry "package main" 100 420).
Proof.
  intros join destAt w'.
  assert (os.wellFormed git_src) as Hsrc by solve_wellFormed.
  assert (os.wellFormedRoot (destFS (destAt "/backup/proj"%string))) as Hdest
    by solve_wellFormed.
  assert (run join destAt testHost (inl "/home/me/proj"%string) git_src ["--to"; "/backup"]
          = Synced "/backup/proj" None w') as Hrun by (vm_compute; reflexivity).
  pose proof (X19_run_never_brings_git join destAt testHost (inl "/home/me/proj"%string)
                git_src ["--to"; "/backup"] "/backup/proj" w' Hsrc Hdest Hrun) as H.
  split; [|split].
  - apply H. set_solver.
  - apply H. set_solver.
  - vm_compute. reflexivity.
Defined.

(** The tests of [run] in [main_test.go], on the model. *)
Example TestRun_argument_errors
    (Join : string -> string -> string) (destAt : string -> world)
    (h : os.host) (getwd : string + error) (src : os.node) :
  run Join destAt h getwd src [] = Returned (Some (Message "--to flag is required"))
  /\ run Join destAt h getwd src ["--to"]
     = Returned (Some (Message "--to requires a path argument"))
  /\ run Join destAt h getwd src ["--to"; "/tmp"; "--exclude"]
     = Returned (Some (Message "--exclude requires a pattern argument"))
  /\ run Join destAt h getwd src ["--to"; "/tmp"; "--name"]
     = Returned (Some (Message "--name requires a name argument"))
  /\ run Join destAt h getwd src ["--unknown"]
     = Returned (Some (Message "unknown flag: --unknown")).
Proof. repeat split. Qed.

Example TestRunWithNameFlag (Join : string -> string -> string) :
  exists w,
    run Join (fun _ => mkWorld None 0) testHost (inl "/tmp/src1")
        (os.Dir 4096 900 493 [("test.txt", os.File "test" 100 420)])
        ["--to"; "/tmp/dest1"; "--name"; "CustomName"]
    = Synced (Join "/tmp/dest1" "CustomName") None w
    /\ os.entryAt (destFS w) ["test.txt"] = Some (os.FileEntry "test" 100 420).
Proof. eexists. split; vm_compute; reflexivity. Qed.

Example TestRunWithoutNameFlag (Join : string -> string -> string) :
  exists w,
    run Join (fun _ => mkWorld None 0) testHost (inl "/tmp/src1")
        (os.Dir 4096 900 493 [("test.txt", os.File "test" 100 420)])
        ["--to"; "/tmp/dest1"]
    = Synced (Join "/tmp/dest1" (filepath.Base "/tmp/src1")) None w
    /\ os.entryAt (destFS w) ["test.txt"] = Some (os.FileEntry "test" 100 420).
Proof. eexists. split; vm_compute; reflexivity. Qed.

(** ** [parseGitignore]: the lines it reads *)

Section gitignore_facts.

Local Open Scope nat_scope.
Local Arguments String.append !_ _ / : simpl nomatch.

(** *** Bytes *)

Lemma byte_inj c c' : utf8.byte c = utf8.byte c' -> c = c'.
Proof.
  unfold utf8.byte. intros H%N2Z.inj.
  by rewrite <- (ascii_N_embedding c), <- (ascii_N_embedding c'), H.
Qed.

Lemma asciiSpace_byte c : asciiSpace c = true -> (RuneSelf <=? utf8.byte c)%Z = false.
Proof.
  unfold asciiSpace. rewrite !orb_true_iff, !Ascii.eqb_eq.
  by intros [[[[[-> | ->] | ->] | ->] | ->] | ->].
Qed.

Lemma plainByte_spec c :
  plainByte c = true ->
  (RuneSelf <=? utf8.byte c)%Z = false /\ asciiSpace c = false
  /\ IsSpace (utf8.byte c) = false.
Proof.
  unfold plainByte. intros [Hlt%Z.ltb_lt Hsp%negb_true_iff]%andb_true_iff.
  split; [apply Z.leb_gt; done|]. split; [done|].
  unfold IsSpace. unfold RuneSelf in Hlt. rewrite (proj2 (Z.leb_le _ 255)) by lia.
  unfold asciiSpace in Hsp. rewrite !orb_false_iff in Hsp.
  destruct Hsp as (((((H9 & H10) & H11) & H12) & H13) & H32).
  assert (forall n x, Ascii.eqb c x = false -> utf8.byte x = n -> (utf8.byte c =? n)%Z = false)
    as Hne.
  { intros n x Hx <-. apply Z.eqb_neq. intros ?%byte_inj. subst. by rewrite Ascii.eqb_refl in Hx. }
  rewrite (Hne 9%Z _ H9), (Hne 10%Z _ H10), (Hne 11%Z _ H11), (Hne 12%Z _ H12),
    (Hne 13%Z _ H13), (Hne 32%Z _ H32) by done.
  cbn [orb]. rewrite !(proj2 (Z.eqb_neq _ _)) by lia. done.
Qed.

Lemma DecodeRuneInString_ascii c s :
  (utf8.byte c <? RuneSelf)%Z = true ->
  utf8.DecodeRuneInString (String c s) = (utf8.byte c, 1).
Proof.
  intros Hlt%Z.ltb_lt. unfold RuneSelf in Hlt. unfold utf8.DecodeRuneInString, utf8.first.
  cbv zeta. rewrite (proj2 (Z.ltb_lt _ 128)) by done. done.
Qed.

Lemma DecodeRuneInString_pos c s : 1 <= snd (utf8.DecodeRuneInString (String c s)).
Proof.
  unfold utf8.DecodeRuneInString. cbv zeta.
  repeat (first [ progress cbn [snd] | lia
                | match goal with
                  | |- context [if ?b then _ else _] => destruct b
                  | |- context [let '(_, _) := ?x in _] => destruct x
                  | |- context [match ?x with EmptyString => _ | String _ _ => _ end] =>
                      destruct x
                  end ]).
Qed.

(** *** Strings from their end *)

Lemma string_snoc s : s <> ""%string -> exists s0 c, s = s0 +:+ String c "".
Proof.
  induction s as [|c s IH]; [done|]. intros _. destruct s as [|c' s].
  - by exists ""%string, c.
  - destruct IH as (s0 & c0 & ->); [done|]. by exists (String c s0), c0.
Qed.

Lemma get_snoc s c : String.get (String.length (s +:+ String c "") - 1) (s +:+ String c "") = Some c.
Proof.
  induction s as [|c' s IH]; [done|]. cbn [String.append String.length] in *.
  rewrite Nat.sub_1_r in *. cbn [Nat.pred].
  destruct (String.length (s +:+ String c "")) eqn:E; [by destruct s|].
  cbn [String.get Nat.pred] in *. done.
Qed.

Lemma take_snoc s c : strings.take (String.length (s +:+ String c "") - 1) (s +:+ String c "") = s.
Proof.
  rewrite length_append. cbn [String.length].
  replace (String.length s + 1 - 1) with (String.length s) by lia. apply take_append.
Qed.

Lemma blank_app s t : blank (s +:+ t) = blank s && blank t.
Proof. induction s as [|c s IH]; [done|]. cbn [String.append blank]. rewrite IH. by rewrite andb_assoc. Qed.

Lemma blank_cons c s :
  blank (String c s) = true -> asciiSpace c = true /\ Ascii.eqb c "010" = false /\ blank s = true.
Proof.
  cbn [blank]. intros [[? ?%negb_true_iff]%andb_true_iff ?]%andb_true_iff. done.
Qed.

(** *** [TrimSpace] on a line *)

(** The first loop skips the blanks. *)
Lemma TrimSpace_lead lead c rest :
  blank lead = true -> plainByte c = true ->
  TrimSpace (lead +:+ String c rest)
  = trimSpaceStop (String.length (String c rest)) (String c rest).
Proof.
  intros Hl Hc. induction lead as [|c0 lead IH].
  - cbn [String.append TrimSpace]. destruct (plainByte_spec c Hc) as (-> & -> & _). done.
  - apply blank_cons in Hl as (Hsp & _ & Hl). cbn [String.append TrimSpace].
    rewrite (asciiSpace_byte _ Hsp), Hsp. cbn [negb]. by apply IH.
Qed.

Lemma TrimSpace_blank lead : blank lead = true -> TrimSpace lead = ""%string.
Proof.
  induction lead as [|c0 lead IH]; [done|]. intros (Hsp & _ & Hl)%blank_cons.
  cbn [TrimSpace]. rewrite (asciiSpace_byte _ Hsp), Hsp. cbn [negb]. by apply IH.
Qed.

(** The second loop drops the blanks at the end. *)
Lemma trimSpaceStop_trail n : forall trail s fuel,
  String.length trail = n -> blank trail = true -> n <= fuel ->
  trimSpaceStop fuel (s +:+ trail) = trimSpaceStop (fuel - n) s.
Proof.
  induction n as [|n IH]; intros trail s fuel Hn Hb Hf.
  - destruct trail; [|done]. by rewrite append_nil_r, Nat.sub_0_r.
  - destruct (string_snoc trail) as (trail0 & c & ->); [by destruct trail|].
    rewrite blank_app in Hb. apply andb_true_iff in Hb as [Hb0 (Hsp & _ & _)%blank_cons].
    rewrite length_append in Hn. cbn [String.length] in Hn.
    destruct fuel as [|fuel]; [lia|]. rewrite <- append_assoc. cbn [trimSpaceStop].
    rewrite get_snoc, take_snoc, (asciiSpace_byte _ Hsp), Hsp. cbn [negb].
    rewrite (IH trail0 s fuel) by (done || lia). f_equal.
Qed.

Lemma trimSpaceStop_plain fuel s c :
  plainByte c = true -> 1 <= fuel ->
  trimSpaceStop fuel (s +:+ String c "") = s +:+ String c "".
Proof.
  intros Hc Hf. destruct fuel as [|fuel]; [lia|]. cbn [trimSpaceStop].
  rewrite get_snoc. by destruct (plainByte_spec c Hc) as (-> & -> & _).
Qed.

Lemma cleanPattern_spec p :
  cleanPattern p = true ->
  exists c rest p0 c',
    p = String c rest /\ p = p0 +:+ String c' ""
    /\ plainByte c = true /\ Ascii.eqb c "#" = false /\ Ascii.eqb c "!" = false
    /\ plainByte c' = true /\ strings.Contains p newline = false.
Proof.
  unfold cleanPattern. destruct p as [|c rest]; [done|].
  destruct (string_snoc (String c rest)) as (p0 & c' & Hp); [done|].
  rewrite Hp at 1 2. rewrite get_snoc.
  intros [[[[H1 H2%negb_true_iff]%andb_true_iff H3%negb_true_iff]%andb_true_iff H4]%andb_true_iff
            H5%negb_true_iff]%andb_true_iff.
  by exists c, rest, p0, c'.
Qed.

(** A pattern between blanks is trimmed to the pattern. *)
Lemma TrimSpace_pattern lead p trail :
  blank lead = true -> blank trail = true -> cleanPattern p = true ->
  TrimSpace (lead +:+ p +:+ trail) = p.
Proof.
  intros Hl Ht (c & rest & p0 & c' & Hp & Hp' & Hc & _ & _ & Hc' & _)%cleanPattern_spec.
  rewrite Hp at 1. cbn [String.append]. rewrite (TrimSpace_lead _ _ _ Hl Hc).
  change (String c (rest +:+ trail)) with (String c rest +:+ trail). rewrite <- Hp.
  rewrite (trimSpaceStop_trail (String.length trail) trail p) by (done || rewrite length_append; lia).
  rewrite length_append. replace (String.length p + String.length trail - String.length trail)
    with (String.length p) by lia.
  rewrite Hp'. apply trimSpaceStop_plain; [done|]. rewrite length_append. simpl. lia.
Qed.

(** *** A plain first byte stays *)

Lemma backToRuneStart_le fuel s start lim : (backToRuneStart fuel s start lim <= start)%Z.
Proof.
  revert start. induction fuel as [|fuel IH]; intros start; cbn [backToRuneStart]; [lia|].
  destruct (start <? lim)%Z; [lia|]. destruct (RuneStart _); [lia|].
  specialize (IH (start - 1)%Z). lia.
Qed.

Lemma length_drop_pos n s : n < String.length s -> strings.drop n s <> ""%string.
Proof.
  intros H E. apply (f_equal String.length) in E. rewrite length_drop in E. simpl in E. lia.
Qed.

(** The last rune of a string with a plain first byte: it is that byte
    when the string has no other, and else it does not reach it. *)
Lemma DecodeLastRuneInString_first c t :
  (utf8.byte c <? RuneSelf)%Z = true ->
  (t = ""%string -> DecodeLastRuneInString (String c t) = (utf8.byte c, 1))
  /\ (t <> ""%string ->
      1 <= snd (DecodeLastRuneInString (String c t)) <= String.length t).
Proof.
  intros Hc. split.
  { intros ->. unfold DecodeLastRuneInString. cbn. unfold byteAt. cbn. by rewrite Hc. }
  intros Ht. assert (1 <= String.length t) as Hlen by (destruct t; [done|simpl; lia]).
  unfold DecodeLastRuneInString. cbv zeta.
  change ((String.length (String c t) =? 0)) with false. cbv iota.
  destruct (byteAt _ _ <? RuneSelf)%Z; [cbn [snd]; lia|].
  set (start := Z.to_nat _).
  assert (start < String.length (String c t)) as Hstart.
  { unfold start.
    pose proof (backToRuneStart_le UTFMax (String c t)
                  (Z.of_nat (String.length (String c t) - 1) - 1)
                  (Z.max (Z.of_nat (String.length (String c t)) - Z.of_nat UTFMax) 0)) as Hle.
    cbn [String.length] in *. destruct (_ <? 0)%Z; lia. }
  destruct (utf8.DecodeRuneInString (strings.drop start (String c t))) as [r size] eqn:Ed.
  destruct (Nat.eqb_spec (start + size) (String.length (String c t))) as [E|E];
    cbn [negb snd]; [|lia].
  destruct start as [|start].
  - cbn [strings.drop] in Ed. rewrite DecodeRuneInString_ascii in Ed by done.
    injection Ed as _ <-. cbn [String.length] in E. lia.
  - cbn [String.length] in *. split; [|lia].
    destruct (strings.drop (S start) (String c t)) as [|c1 t1] eqn:Ed1.
    + by apply length_drop_pos in Ed1.
    + pose proof (DecodeRuneInString_pos c1 t1) as Hp. rewrite Ed in Hp. cbn [snd] in Hp. lia.
Qed.

Lemma take_cons_S n c s : strings.take (S n) (String c s) = String c (strings.take n s).
Proof. done. Qed.

(** Going back from the end, [lastIndexFunc] stops at the plain first
    byte at the latest. *)
Lemma lastIndexFuncLoop_first c rest fuel i :
  plainByte c = true -> 1 <= i <= String.length (String c rest) -> i <= fuel ->
  exists j, lastIndexFuncLoop fuel IsSpace false (String c rest) i = Some j.
Proof.
  intros Hc. destruct (plainByte_spec c Hc) as (Hself & _ & Hsp).
  assert ((utf8.byte c <? RuneSelf)%Z = true) as Hlt.
  { apply Z.ltb_lt. by apply Z.leb_gt in Hself. }
  revert i. induction fuel as [|fuel IH]; intros i Hi Hf; [lia|].
  cbn [lastIndexFuncLoop]. destruct (Nat.eqb_spec i 0) as [|_]; [lia|].
  destruct i as [|i]; [lia|]. rewrite take_cons_S.
  destruct (DecodeLastRuneInString_first c (strings.take i rest) Hlt) as [H1 H2].
  destruct (decide (i = 0)) as [->|Hi0].
  - rewrite H1 by (by destruct rest). rewrite Hsp. cbn. eauto.
  - assert (strings.take i rest <> ""%string) as Hne.
    { intros E. apply (f_equal String.length) in E. cbn [String.length] in *.
      rewrite length_take in E by lia. simpl in E. lia. }
    specialize (H2 Hne). cbn [String.length] in Hi. rewrite length_take in H2 by lia.
    destruct (DecodeLastRuneInString _) as [r size]. cbn [snd] in H2.
    destruct (Bool.eqb (IsSpace r) false); [eauto|].
    apply IH; cbn [String.length]; lia.
Qed.

Lemma TrimRightFunc_first c rest :
  plainByte c = true ->
  exists rest', TrimRightFunc (String c rest) IsSpace = String c rest'.
Proof.
  intros Hc. unfold TrimRightFunc, lastIndexFunc.
  destruct (lastIndexFuncLoop_first c rest (String.length (String c rest))
              (String.length (String c rest)) Hc) as [j ->]; [cbn; lia|done|].
  cbv zeta. destruct (plainByte_spec c Hc) as (Hself & _ & _).
  destruct j as [|j].
  - unfold byteAt. cbn [String.get]. rewrite Hself. cbn. eauto.
  - destruct (RuneSelf <=? byteAt _ _)%Z; cbn [Nat.add]; rewrite take_cons_S; eauto.
Qed.

Lemma trimSpaceStop_first fuel c rest :
  plainByte c = true ->
  exists rest', trimSpaceStop fuel (String c rest) = String c rest'.
Proof.
  intros Hc. revert rest. induction fuel as [|fuel IH]; intros rest; [by eexists|].
  cbn [trimSpaceStop].
  destruct (String.get _ _) as [c0|] eqn:Eg; [|by eexists].
  destruct (RuneSelf <=? utf8.byte c0)%Z; [by apply TrimRightFunc_first|].
  destruct (asciiSpace c0) eqn:Hsp; cbn [negb]; [|by eexists].
  cbn [String.length]. rewrite Nat.sub_1_r. cbn [Nat.pred].
  destruct rest as [|c1 rest].
  - cbn in Eg. injection Eg as <-. destruct (plainByte_spec c Hc) as (_ & Hn & _). congruence.
  - cbn [String.length]. rewrite take_cons_S. apply IH.
Qed.

(** A line that begins, after blanks, with a plain byte is trimmed to a
    text that begins with this byte. *)
Lemma TrimSpace_first lead c text :
  blank lead = true -> plainByte c = true ->
  exists rest', TrimSpace (lead +:+ String c text) = String c rest'.
Proof.
  intros Hl Hc. rewrite (TrimSpace_lead _ _ _ Hl Hc). by apply trimSpaceStop_first.
Qed.

(** *** Lines *)

Lemma HasPrefix_byte c s x : strings.HasPrefix (String c s) (String x "") = Ascii.eqb c x.
Proof.
  unfold strings.HasPrefix. simpl. by destruct (Ascii.eqb c x).
Qed.

Lemma Contains_newline_cons c s :
  strings.Contains (String c s) newline = Ascii.eqb c "010" || strings.Contains s newline.
Proof.
  change (strings.Contains (String c s) newline)
    with (strings.HasPrefix (String c s) newline || strings.Contains s newline).
  unfold newline. by rewrite HasPrefix_byte.
Qed.

Lemma Contains_newline_app s t :
  strings.Contains (s +:+ t) newline
  = strings.Contains s newline || strings.Contains t newline.
Proof.
  induction s as [|c s IH]; [done|]. cbn [String.append].
  by rewrite !Contains_newline_cons, IH, orb_assoc.
Qed.

Lemma Split_no_newline s :
  strings.Contains s newline = false -> strings.Split s "010" = [s].
Proof.
  induction s as [|c s IH]; [done|].
  rewrite Contains_newline_cons. intros [H1 H2]%orb_false_iff.
  simpl. by rewrite H1, IH.
Qed.

Lemma Split_Join_newline (lines : list string) :
  lines <> [] -> Forall (fun line => strings.Contains line newline = false) lines ->
  strings.Split (strings.Join lines newline) "010" = lines.
Proof.
  induction lines as [|line lines IH]; [done|]. intros _ [Hn Hu]%Forall_cons.
  destruct lines as [|line' lines]; [by apply Split_no_newline|].
  rewrite Join_cons by done. unfold newline at 1. cbn [String.append].
  change (line +:+ String "010" ?t) with (line +:+ String "010" t).
  rewrite Split_append, Split_no_newline by done. cbn [app]. f_equal. by apply IH.
Qed.

Lemma blank_no_newline s : blank s = true -> strings.Contains s newline = false.
Proof.
  induction s as [|c s IH]; [done|]. intros (_ & Hc & Hs)%blank_cons.
  by rewrite Contains_newline_cons, Hc, IH.
Qed.

Lemma lineYields_no_newline line o :
  lineYields line o -> strings.Contains line newline = false.
Proof.
  intros [lead p trail Hl Ht Hp|lead c text Hl Hc Ht|lead Hl].
  - apply cleanPattern_spec in Hp as (_ & _ & _ & _ & _ & _ & _ & _ & _ & _ & Hp).
    by rewrite !Contains_newline_app, Hp, !blank_no_newline.
  - rewrite Contains_newline_app, Contains_newline_cons, Ht, blank_no_newline by done.
    by destruct Hc as [-> | ->].
  - by apply blank_no_newline.
Qed.

(** *** [dropCR] *)

Lemma dropCR_snoc s c :
  dropCR (s +:+ String c "") = if Ascii.eqb c "013" then s else s +:+ String c "".
Proof.
  unfold dropCR, strings.HasSuffix. rewrite take_snoc, length_append.
  cbn [String.length]. rewrite (proj2 (Nat.leb_le 1 _)) by lia.
  replace (String.length s + 1 - 1) with (String.length s) by lia.
  rewrite drop_append. cbn. by destruct (Ascii.eqb c "013").
Qed.

(** A line without its carriage return stands for what the line stands
    for. *)
Lemma lineYields_dropCR line o : lineYields line o -> lineYields (dropCR line) o.
Proof.
  intros [lead p trail Hl Ht Hp|lead c text Hl Hc Ht|lead Hl].
  - destruct (decide (trail = ""%string)) as [->|Hne].
    + rewrite append_nil_r.
      pose proof Hp as (_ & _ & p0 & c' & _ & Hp' & _ & _ & _ & Hc' & _)%cleanPattern_spec.
      rewrite Hp', <- append_assoc, dropCR_snoc.
      destruct (Ascii.eqb_spec c' "013") as [->|_]; [done|].
      rewrite append_assoc, <- Hp'. rewrite <- (append_nil_r p) at 1. by constructor.
    + destruct (string_snoc trail Hne) as (trail0 & c & ->).
      rewrite blank_app in Ht. apply andb_true_iff in Ht as [Ht0 Hc].
      rewrite <- !append_assoc, dropCR_snoc.
      destruct (Ascii.eqb c "013").
      * rewrite append_assoc. by constructor.
      * rewrite !append_assoc. constructor; [done| |done]. by rewrite blank_app, Ht0.
  - destruct (decide (text = ""%string)) as [->|Hne].
    + rewrite dropCR_snoc. destruct Hc as [-> | ->]; cbn; by constructor; [|auto|].
    + destruct (string_snoc text Hne) as (text0 & c1 & ->).
      rewrite Contains_newline_app in Ht. apply orb_false_iff in Ht as [Ht0 Ht1].
      change (lead +:+ String c (text0 +:+ String c1 ""))
        with (lead +:+ (String c text0 +:+ String c1 "")).
      rewrite <- append_assoc, dropCR_snoc.
      destruct (Ascii.eqb c1 "013").
      * by constructor.
      * rewrite append_assoc. cbn [String.append]. constructor; [done..|].
        by rewrite Contains_newline_app, Ht0.
  - destruct (decide (lead = ""%string)) as [->|Hne]; [by constructor|].
    destruct (string_snoc lead Hne) as (lead0 & c & ->).
    rewrite dropCR_snoc. destruct (Ascii.eqb c "013"); [|by constructor].
    rewrite blank_app in Hl. apply andb_true_iff in Hl as [Hl0 _]. by constructor.
Qed.

(** *** The loop of [parseGitignore] *)

Lemma parseLines_line line o tokens :
  lineYields line o ->
  parseLines (line :: tokens)
  = match o with Some p => p :: parseLines tokens | None => parseLines tokens end.
Proof.
  intros [lead p trail Hl Ht Hp|lead c text Hl Hc Ht|lead Hl]; cbn [parseLines].
  - rewrite (TrimSpace_pattern _ _ _ Hl Ht Hp).
    apply cleanPattern_spec in Hp as (c & rest & _ & _ & -> & _ & _ & H1 & H2 & _).
    change "#"%string with (String "#" ""). change "!"%string with (String "!" "").
    by rewrite !HasPrefix_byte, H1, H2.
  - destruct (TrimSpace_first lead c text Hl) as [rest' ->].
    { by destruct Hc as [-> | ->]. }
    change "#"%string with (String "#" ""). change "!"%string with (String "!" "").
    rewrite !HasPrefix_byte. by destruct Hc as [-> | ->].
  - by rewrite (TrimSpace_blank _ Hl).
Qed.

Lemma parseLines_yields (lines : list string) (outs : list (option string)) :
  Forall2 lineYields lines outs -> parseLines (map dropCR lines) = omap id outs.
Proof.
  induction 1 as [|line o lines outs Hy _ IH]; [done|]. cbn [map].
  rewrite (parseLines_line _ o _ (lineYields_dropCR _ _ Hy)), IH. by destruct o.
Qed.

(** The scanner gets through lines that fit its buffer; the empty piece
    after a last newline, which is no token, would have been skipped. *)
Lemma scanLines_short (lines : list string) :
  Forall (fun line => (Z.of_nat (String.length line) < MaxScanTokenSize)%Z) lines ->
  exists tokens,
    scanLines lines = (tokens, None)
    /\ parseLines tokens = parseLines (map dropCR lines).
Proof.
  induction lines as [|line lines IH]; [by exists []|]. intros [Hl Hs]%Forall_cons.
  cbn [scanLines]. rewrite (proj2 (Z.leb_gt _ _)) by done.
  destruct lines as [|line' lines].
  - destruct (String.eqb_spec line "") as [->|_]; [by exists []|]. by eexists.
  - destruct (IH Hs) as (tokens & -> & Ht). eexists. split; [done|].
    cbn [parseLines map] in *. by rewrite Ht.
Qed.

Lemma scanLines_too_long (good rest : list string) (long : string) :
  Forall (fun line => (Z.of_nat (String.length line) < MaxScanTokenSize)%Z) good ->
  (MaxScanTokenSize <= Z.of_nat (String.length long))%Z ->
  scanLines (good ++ long :: rest) = (map dropCR good, Some ErrTooLong).
Proof.
  intros Hg Hl. induction good as [|line good IH].
  - cbn [scanLines app map]. rewrite (proj2 (Z.leb_le _ _)) by done.
    destruct (String.eqb_spec long "") as [->|_]; [simpl in Hl; unfold MaxScanTokenSize in Hl; lia|].
    by destruct rest.
  - apply Forall_cons in Hg as [Hline Hg]. cbn [scanLines app map].
    rewrite (proj2 (Z.leb_gt _ _)) by done. rewrite (IH Hg).
    by destruct good.
Qed.

End gitignore_facts.

(** [TestParseGitignore] and [TestParseGitignoreMissing] on the model. *)
Example TestParseGitignore :
  parseGitignore (Some (os.Dir 4096 900 493
                          [(".gitignore", os.File TestParseGitignore_content 100 420)]))
                 [".gitignore"]
  = (["*.log"; "node_modules/"; "dist/"], None).
Proof. vm_compute. reflexivity. Qed.

Example TestParseGitignoreMissing :
  snd (parseGitignore None ["nonexistent"; ".gitignore"]) <> None.
Proof. discriminate. Qed.

(** X20. [parseGitignore] reads an ignore file line by line.  For a file
    whose lines are patterns between blanks, comments ([#]) and negations
    ([!]) after blanks, and blank lines, each shorter than the 65536 bytes
    of the scanner's buffer, ended by newlines or by carriage return and
    newline, with or without a newline after the last line, it returns
    the patterns in their order, without the blanks, and no error;
    comments, negations and blank lines give nothing. *)
Theorem X20_parseGitignore_reads_pattern_lines
    (fs : os.root) (path : os.path) (lines : list string) (outs : list (option string))
    (modTime mode : Z) :
  Forall2 lineYields lines outs ->
  Forall (fun line => (Z.of_nat (String.length line) < MaxScanTokenSize)%Z) lines ->
  os.nodeAt fs path = Some (os.File (strings.Join lines newline) modTime mode) ->
  parseGitignore fs path = (omap id outs, None).
Proof.
  intros Hy Hs Hf. unfold parseGitignore, os.Open. rewrite Hf.
  destruct lines as [|line lines].
  { apply Forall2_nil_inv_l in Hy as ->. done. }
  rewrite Split_Join_newline; [|done|].
  - destruct (scanLines_short _ Hs) as (tokens & -> & ->). by rewrite (parseLines_yields _ _ Hy).
  - clear Hs Hf. induction Hy as [|l o ls os Hl _ IH]; [done|].
    constructor; [by eapply lineYields_no_newline|done].
Qed.

Lemma X20_parseGitignore_reads_pattern_lines_witness :
  parseGitignore
    (Some (os.Dir 4096 900 493
             [(".gitignore",
               os.File (strings.Join ["  *.log" +:+ String "013" ""; "# build"; "";
                                      String "009" "dist/ "; "!keep.log"] newline) 100 420)]))
    [".gitignore"]
  = (omap id [Some "*.log"; None; None; Some "dist/"; None]%string, None).
Proof.
  apply (X20_parseGitignore_reads_pattern_lines _ _
           ["  *.log" +:+ String "013" ""; "# build"; ""; String "009" "dist/ "; "!keep.log"]%string
           [Some "*.log"; None; None; Some "dist/"; None]%string 100 420).
  - constructor;
      [exact (PatternLine "  " "*.log" (String "013" "") eq_refl eq_refl eq_refl)|].
    constructor;
      [exact (SkippedLine "" "#" " build" eq_refl (or_introl eq_refl) eq_refl)|].
    constructor; [exact (BlankLine "" eq_refl)|].
    constructor;
      [exact (PatternLine (String "009" "") "dist/" " " eq_refl eq_refl eq_refl)|].
    constructor;
      [exact (SkippedLine "" "!" "keep.log" eq_refl (or_intror eq_refl) eq_refl)|].
    constructor.
  - repeat (apply Forall_cons; split; [reflexivity|]). apply Forall_nil_2.
  - reflexivity.
Defined.

(** X21. A line of the ignore file that does not fit the buffer of the
    scanner (65536 bytes or more) makes [parseGitignore] stop there with
    [bufio.ErrTooLong] and the patterns read so far; [run] then takes no
    pattern from the file at all, only [.git] and those of [--exclude]. *)
Theorem X21_ignore_file_with_long_line
    (src : os.node) (good rest : list string) (long : string) (modTime mode : Z)
    (excludePatterns : list string) :
  Forall (fun line => strings.Contains line newline = false) (good ++ long :: rest) ->
  Forall (fun line => (Z.of_nat (String.length line) < MaxScanTokenSize)%Z) good ->
  (MaxScanTokenSize <= Z.of_nat (String.length long))%Z ->
  os.nodeAt (Some src) [".gitignore"%string]
  = Some (os.File (strings.Join (good ++ long :: rest) newline) modTime mode) ->
  parseGitignore (Some src) [".gitignore"%string]
  = (parseLines (map dropCR good), Some ErrTooLong)
  /\ runPatterns src excludePatterns = ".git"%string :: excludePatterns.
Proof.
  intros Hn Hg Hl Hf.
  assert (parseGitignore (Some src) [".gitignore"%string]
          = (parseLines (map dropCR good), Some ErrTooLong)) as Hp.
  { unfold parseGitignore, os.Open. rewrite Hf.
    rewrite Split_Join_newline by (done || by destruct good).
    by rewrite scanLines_too_long. }
  split; [done|]. unfold runPatterns. by rewrite Hp.
Qed.


Lemma length_repeatByte n c : String.length (repeatByte n c) = n.
Proof. induction n as [|n IH]; [done|]. simpl. by rewrite IH. Qed.

Lemma repeatByte_no_newline n c :
  Ascii.eqb c "010" = false -> strings.Contains (repeatByte n c) newline = false.
Proof.
  intros Hc. induction n as [|n IH]; [done|]. cbn [repeatByte].
  by rewrite Contains_newline_cons, Hc, IH.
Qed.

Lemma X21_ignore_file_with_long_line_witness :
  let long := repeatByte (Z.to_nat 65536) "a" in
  let src :=
    os.Dir 4096 900 493
      [(".gitignore",
        os.File (strings.Join (["*.log"%string] ++ long :: ["dist/"%string]) newline) 100 420)] in
  parseGitignore (Some src) [".gitignore"%string] = (["*.log"%string], Some ErrTooLong)
  /\ runPatterns src ["tmp/"%string] = [".git"; "tmp/"]%string.
Proof.
  intros long src.
  apply (X21_ignore_file_with_long_line src ["*.log"%string] ["dist/"%string] long 100 420
           ["tmp/"%string]).
  - repeat (apply Forall_cons; split); [reflexivity| |reflexivity|apply Forall_nil_2].
    by apply repeatByte_no_newline.
  - apply Forall_cons. split; [reflexivity|apply Forall_nil_2].
  - unfold long. rewrite length_repeatByte, Z2Nat.id by lia. unfold MaxScanTokenSize. lia.
  - reflexivity.
Defined.

(** ** The double-star prefix on a plain name *)

Section double_star_facts.

Local Open Scope nat_scope.
Local Arguments String.append !_ _ / : simpl nomatch.

Lemma snoc_inj s t c c' :
  s +:+ String c "" = t +:+ String c' "" -> s = t /\ c = c'.
Proof.
  revert t. induction s as [|a s IH]; intros [|b t]; cbn [String.append].
  - by intros [= ->].
  - intros [= _ H]. by destruct t.
  - intros [= _ H]. by destruct s.
  - intros [= -> H]. by destruct (IH _ H) as [-> ->].
Qed.

Lemma HasSuffix_separator_append s t :
  t <> ""%string -> strings.Contains t "/" = false ->
  strings.HasSuffix (s +:+ t) "/" = false.
Proof.
  intros Hne Hc. destruct (strings.HasSuffix (s +:+ t) "/") eqn:E; [|done].
  apply HasSuffix_true in E as [u E].
  destruct (string_snoc t Hne) as (t0 & c & ->).
  rewrite <- append_assoc in E. apply snoc_inj in E as [_ ->].
  apply Contains_false_HasSuffix in Hc. by rewrite HasSuffix_append in Hc.
Qed.

Lemma Join_separator part (rest : list string) :
  rest <> [] -> strings.Contains (strings.Join (part :: rest) "/") "/" = true.
Proof.
  intros Hr. rewrite Join_cons by done. apply Contains_append.
Qed.

Lemma matchAnySuffix_literal lit (parts : list string) :
  literal lit = true -> strings.Contains lit "/" = false ->
  matchAnySuffix lit parts = true <-> lit ∈ parts.
Proof.
  intros Hl Hc. induction parts as [|part rest IH].
  { split; [done|by intros ?%elem_of_nil]. }
  cbn [matchAnySuffix]. rewrite !Match_literal by done. cbn [fst].
  destruct (String.eqb_spec (strings.Join (part :: rest) "/") lit) as [E|_].
  - split; [|done]. intros _. destruct rest as [|part' rest]; [subst; left|].
    rewrite <- E, Join_separator in Hc; done.
  - destruct (String.eqb_spec part lit) as [->|Hne].
    + split; [|done]. intros _. left.
    + rewrite IH. split; [by right|]. by intros [?|?]%elem_of_cons.
Qed.

End double_star_facts.

(** X22. In front of a plain name the double-star prefix changes nothing:
    ["**/name"] excludes exactly what ["name"] excludes, the entries with
    a path component [name]. *)
Theorem X22_double_star_plain_name
    (relPath lit : string) (isDir : bool) :
  literal lit = true -> lit <> ""%string -> strings.Contains lit "/" = false ->
  relPath <> ""%string ->
  matchPattern relPath ("**/" +:+ lit) isDir = matchPattern relPath lit isDir
  /\ (matchPattern relPath ("**/" +:+ lit) isDir = true <-> lit ∈ strings.Split relPath "/").
Proof.
  intros Hl Hne Hc Hr.
  assert (matchPattern relPath ("**/" +:+ lit) isDir = true <-> lit ∈ strings.Split relPath "/")
    as Hstar.
  { rewrite matchPattern_unfold. cbv zeta. unfold strings.TrimSuffix.
    rewrite HasSuffix_separator_append, HasPrefix_append, TrimPrefix_append by done.
    cbn [negb orb andb]. by apply matchAnySuffix_literal. }
  split; [|done].
  pose proof (matchPattern_plain_name relPath lit isDir Hl Hc Hr) as Hplain.
  destruct (matchPattern relPath ("**/" +:+ lit) isDir), (matchPattern relPath lit isDir);
    try done.
  - by pose proof (proj2 Hplain (proj1 Hstar eq_refl)).
  - by pose proof (proj2 Hstar (proj1 Hplain eq_refl)).
Qed.

Lemma X22_double_star_plain_name_witness :
  matchPattern "deep/nested/test" "**/test" true = matchPattern "deep/nested/test" "test" true
  /\ (matchPattern "deep/nested/test" "**/test" true = true
      <-> "test"%string ∈ strings.Split "deep/nested/test" "/").
Proof.
  apply (X22_double_star_plain_name "deep/nested/test" "test" true);
    [reflexivity | discriminate | reflexivity | discriminate].
Defined.
